(* ===== verification/_CoqProject ===== *)
-Q . S2P
Prelude.v
PyExc.v
PyDict.v
UrlState.v
ReturnCode.v
Round.v
Poller.v
Spec.v
Logging.v
Pool.v
PoolEnv.v
TimedPool.v
TimedSession.v
Argparse.v
Cli.v
