(* ===== verification/Prelude.v ===== *)
(** * A verification development of wait_for_connection

    The program (src/wait_for_connection.py) is a start-up gate: it polls a
    list of URLs with a thread pool until every URL answers or a global
    timeout elapses, and returns a status code.  Its parts:

    - [check_url] (lines 55-65): one probe, [urllib.request.urlopen]; returns
      [True] or raises.  The network is the environment of the model: the
      outcome of every probe is an input ([Round.urlopen_outcome]).
    - [check_failed] (lines 68-77): the list of URLs whose entry in the
      [url_up] dict is [False].
    - [i_can_has_threaded_connection] (lines 80-142): the polling session.
      It defaults the pool size, records [start = time.time()], builds
      [url_up = {u: False for u in urls}], opens a [ThreadPoolExecutor],
      and loops: read the clock, stop when [time_left < 0]; submit one
      future per URL still down (the dict comprehension of lines 107-111);
      drain [as_completed(..., timeout=time_left)], marking a URL up when
      its future returns and skipping it on [URLError]/[HTTPError]; return
      0 once [check_failed] is empty.  Exceptions leave the loop through
      three handlers: the futures [TimeoutError] (to the failure count),
      [ValueError] (-2) and [Exception] (-3).  The failure count is
      [len(failed)] below 126 and -1 from 126 on.
    - [cli_main] (lines 145-183): argparse fills a namespace from the
      defaults of lines 44-52 and the argument strings, [basicConfig]
      sets the log level, and the namespace is passed to the session;
      line 187 hands the returned code to [sys.exit].
    - the log: the session's [logger] calls at DEBUG, INFO and ERROR.
    - src/test_wait_for_connection.py: three tests calling [cli_main].

    Layout of the library (one file per component, in dependency order):

    - [Prelude] (this file): the [wfc_scope] notations, the [wfc] hint
      database, the tactics [invc]/[simpl_bool]/[elem_cases], and generic lemmas on lists
      (boolean [filter], [NoDup], splitting a trace at an appended event)
      shared by the components.
    - [PyExc]: Python's exception classes used by the handlers, their
      bases ([bases]) and [isinstance] ([issubclass]), the Python version switch
      that makes [concurrent.futures.TimeoutError] the builtin
      [TimeoutError] (3.11 on), and the monad [PyM] of statements that
      mutate a store and may raise: a raised exception keeps the store as
      mutated so far, as Python's in-place dict updates do.
    - [PyDict]: the insertion-ordered Python dict as an association list
      with [dict_get] (d[k], [None] where Python raises [KeyError]),
      [dict_set] (in-place update or append) and the dict comprehension
      [dict_from_keys]; its lookup/update laws and key invariants.
    - [UrlState]: the [url_up] table: [check_failed], the initial table,
      and [pending_urls], the URLs a round resubmits.
    - [ReturnCode]: the status computed at the end of the session and the
      process exit status of [sys.exit].
    - [Round]: one pass of the [while] body after the clock check: the
      submission comprehension and the drain of [as_completed]; the events
      it emits (submissions, OK and RETRY log lines) are recorded in the
      store, so properties about probes are properties of the event trace.
    - [Poller]: the [while] loop with its clock, the whole session
      [i_can_has_threaded_connection], the step relation of the loop over
      all clock readings and completion orders with its reachable
      configurations, the invariant proved by rule induction, the
      refinement of the executable loop, termination, the outcome
      theorems and concrete scenarios.
    - [Spec]: the specification's contract as an abstract machine on the
      set of reached endpoints ([spec_step]) and the abstraction of the
      loop's configurations ([abs_conf]).
    - [Pool]: [ThreadPoolExecutor] from its documented behaviour: the
      executor's record (FIFO work queue, running items, the [_shutdown]
      flag, and ghost fields for the submission, start and completion
      orders), [executor], [submit], the workers' labelled step relation
      [pool_step] decided by [pool_apply], and [shutdown(wait=True)].
    - [PoolEnv]: the pool under the session: a round's executor
      ([round_pool]), what [as_completed] yields from it
      ([pool_completions]), the session environment [pool_env] built
      from pool schedules, and the records [check_url] logs in the worker
      threads ([run_schedule_log]).
    - [TimedPool]: a round's executor in wall time ([tpool], [tstep],
      [timed_run]): when each probe starts and returns, and so when the
      [shutdown(wait=True)] of the [with] block returns.
    - [Logging]: the level of each of the session's log records
      ([level_of]) and the level [logging.basicConfig] sets (line 181).
      Every [logger] call of the session (lines 88-141) is an event of
      the store's trace, emitted where the code calls it
      ([Poller.default_threads], [Poller.loop_body_at], [Poller.finish],
      [Poller.fail_count], [Round.on_completed]).
    - [TimedSession]: the whole session on its thread pool in time.  The
      main thread's loop ([timed_body], [timed_loop]) runs while the
      workers run each round's probes ([round_events]); [as_completed]
      yields the probes returned by the round's deadline ([span_deadline],
      [main_walk]); the handlers run inside the [with] block
      ([finish_in_with]), the block then waits for the probes still
      queued or running, and the failure count comes after it
      ([timed_session]).  Its log ([record]) interleaves the workers'
      [check_url] records ([worker_log]) with the main thread's, and
      [emitted_rec] is what the [basicConfig] handler writes.
    - [Argparse]: [type=float] and [type=int] on argument strings (lists
      of ASCII characters), with [--timeout] converted to microsecond
      ticks, and the printing that inverts them.
    - [Cli]: the defaults; argparse (Python 3.11) on the argument
      strings: [parse_optional] classifies each string as an argument, an
      option with or without an explicit argument (exact, [--opt=v], a
      unique abbreviation, a [-vh] chain), an unknown option, or an
      ambiguous abbreviation; [consume] runs the loop of
      [_parse_known_args] as a state machine ([pmode]: no option, an
      option waiting for its string, [nargs="*"] collecting), ending in
      the recognised options, [parser.exit(0)] after the help or
      [parser.exit(2)] after an error; [parse_args] folds the options over
      [default_ns]; [cli_main_argv] runs the session on them, and
      [process_status] is the exit status of [sys.exit(cli_main())].
      The tests' argument strings are parsed by the same functions.

    Environment and bounds.  Time is integer ticks of an arbitrary unit
    (the float arithmetic of [time.time()] is exact in the model); the
    environment [Poller.env] gives the k-th reading of the clock
    ([clock e 0] is [start], [clock e (S k)] the reading at the top of
    iteration [k]) and, for iteration [k], the futures that complete
    before the round's deadline, in completion order, as a function of
    the submitted URLs.  [as_completed] yields exactly these and then
    raises its timeout when a submitted future is missing; [env_wf]
    states that it yields only submitted futures, each once, and
    [PoolEnv.pool_env_wf] that an environment built from runs of the
    thread pool satisfies it.  The loop is
    a [Fixpoint] on fuel, one unit per iteration.  The fuel is not a
    bound of the program: [session_terminates] shows that
    [Z.to_nat timeout + 1] iterations suffice whenever the clock advances
    at every reading, the lemma [session_fuel_mono] that more fuel changes nothing,
    and [stalled_clock_no_exit] that with a clock that does not advance no
    fuel suffices.  The class walk of [issubclass] is bounded by
    [class_depth] = 8 links, enough for the hierarchy
    (the lemma [issubclass_depth_enough]).

    The thread pool is a step relation with no clock: the workers'
    transitions before a round's deadline are a schedule.  Each round is
    run on an executor that is idle when the round begins, as the
    session's is ([as_completed] returned, so every earlier future had
    finished).  [TimedPool] adds time: each probe takes a given wall
    time, a free worker takes the head of the queue at once and
    otherwise the probe that returns first finishes.  [TimedSession]
    runs the whole session on it: the network is a function [probe k j]
    giving the ticks and the outcome of future [j] of iteration [k]; the
    clock the main thread reads is the time of the timed run (the call's
    time, then the time [as_completed] returned).  Its loop is a
    [Fixpoint] on fuel too; with probes of at least one tick,
    [Z.to_nat (timeout + 1)] + 1 iterations suffice (C12).  The bound on
    the session's length assumes every probe takes at most [D] ticks:
    [urlopen]'s [timeout] bounds each socket operation, not name
    resolution or the whole probe, so [D] is a property of the network,
    not of the code.

    What is not modelled: the network (abstracted into probe outcomes and
    durations), float rounding, the text of the log messages and the
    [exc_info] tracebacks, and the help text argparse prints.  Records
    that different threads log at the same instant are ordered as the
    timed run orders its events (a probe's [Reached] before the main
    thread's [OK] for it).  argparse strings outside the model give
    [CliUnsupported] rather than a guess: a [--] separator, a newline
    (which the [$] of argparse's negative-number pattern accepts), and
    [float]/[int] forms with exponents, [inf]/[nan], underscores,
    white space, control characters or non-ASCII characters around or
    in a number, or more than six decimals.  The licence, the imports
    and [logger = logging.getLogger(__name__)] (lines 1-43, the
    docstring apart) are not modelled: [TimedSession.emitted_rec] uses
    the root logger's level, which that logger, with no level of its
    own, defers to.  [ThreadPoolExecutor] is library code, modelled from
    its documented behaviour ([Pool], [PoolEnv], [TimedPool]).

    Theorems, by group (the claims are numbered C1-C29 in their doc
    comments):
    - the session ([Poller]): success is sound (C1); the returned code is
      -2, -3 or the failure count of exactly the URLs never logged OK
      (C2); a count is -1 or in [0, 125] and differs from what the module
      docstring says only at 126 failed URLs (C6); every reachable
      configuration of the step relation satisfies the store invariant
      (C3), so no URL is probed after its OK (C4); termination (C5;
      [session_fuel_mono]: more fuel changes nothing); first-round
      outcomes: all URLs up gives 0 (C8), a [ValueError] gives -2 (C18),
      when the session raises (C20), a probe [TimeoutError] ends the
      session (C21), other exceptions give -3 (C22); the behaviours that
      depart from the specification: a stalled clock never exits (C25),
      no URLs crashes the pool (C26), a first clock check past the
      deadline counts every URL as failed, an invalid one included
      (C27);
    - the specification ([Spec]): the loop refines the abstract poller
      on sets of reached endpoints (C9);
    - the session on its thread pool ([TimedSession]): it refines the
      session of [Poller], so C1-C8 hold of it (C7); its log, workers'
      records included, ends with [OK:All Urls.] or [FAIL:...] at the
      default level, and after -2 or -3 only workers' records follow the
      error (C10); with [w] workers and probes of at most [D] ticks it
      returns within [timeout + D + (N - 1) * D / w] (C11); it returns
      when probes take a tick (C12); with one worker and probes that hang
      for the timeout it lasts [N * timeout] (C13);
    - a round ([Round], [UrlState], [PoolEnv]): the URLs a round submits
      are those [check_failed] reports, up to repetitions (C14); the
      workers' [Trying to reach]/[Reached] records match the futures
      started and answered (C15); the only exceptions a round raises
      (C19); one future per occurrence of a URL (C23);
    - the log ([Logging]): a session returns 0 without [OK:All Urls.]
      only when a URL is listed twice (C24);
    - the command line ([Cli], [Argparse]): parsing the printed command
      line of a namespace gives the namespace back (C16); argparse's exits
      on [-h], a missing argument, an invalid float, extras and an
      ambiguous abbreviation (C17); [test_timeout]'s first call returns 3
      (C28), and [test_url_error] returns -2 when the probe raises
      [ValueError] (C29).

    Lemmas kept beside the claims: the thread pool's ([pool_env_wf]: an
    environment built from pool runs satisfies [env_wf];
    [pool_reachable_inv], [pool_terminates], [shutdown_wait_spec],
    [as_completed_returns_iff_idle], [timeout_shutdown_waits],
    [timed_round_bound], [timed_run_refines], [as_completed_timed],
    [one_worker_bound_reached], [single_worker_fifo]); the codes'
    ([fail_code_saturation], [exit_status_roundtrip],
    [decode_code_iff], [Cli.process_status_cases]: a crash exits with
    the status of one unreachable URL); the loop's ([run_loop_steps]:
    the executable loop is a path of the step relation);
    [scenario_one_unreachable] (the specification's scenario),
    [retry_clause_classes] (the retry clause catches exactly
    [URLError]'s subclasses), [dict_from_keys_order], [dict_set_spec],
    [check_failed_exact] and [issubclass_depth_enough]. *)

From stdpp Require Import base list.
From Stdlib Require Import ZArith Lia.

Declare Scope wfc_scope.
Delimit Scope wfc_scope with wfc.

Create HintDb wfc discriminated.

(** [invc H] inverts [H] and substitutes. *)
Ltac invc H := inversion H; subst; clear H.

(** Split [H : x ∈ [a; b; ...]] into the cases [x = a], [x = b], ...,
    closing those that are distinct literals. *)
Ltac elem_cases H :=
  repeat (apply elem_of_cons in H as [H|H]; [try discriminate H|]);
  try (by apply elem_of_nil in H).

(** Turn boolean tests of the goal and hypotheses into propositions. *)
Ltac simpl_bool :=
  repeat match goal with
  | H : (_ && _)%bool = true |- _ => apply andb_prop in H as [? ?]
  | H : negb _ = true |- _ => apply negb_true_iff in H
  | H : negb _ = false |- _ => apply negb_false_iff in H
  | H : (_ =? _)%Z = true |- _ => apply Z.eqb_eq in H
  | H : (_ <? _)%Z = true |- _ => apply Z.ltb_lt in H
  | H : (_ <? _)%Z = false |- _ => apply Z.ltb_ge in H
  | H : (_ <=? _)%Z = true |- _ => apply Z.leb_le in H
  | H : (_ <=? _)%Z = false |- _ => apply Z.leb_gt in H
  end.

Section ListFacts.
Context {A : Type}.

(** Membership in a boolean filter, in stdpp's [∈]. *)
Lemma elem_of_filter_bool (p : A -> bool) (x : A) (l : list A) :
  x ∈ List.filter p l <-> x ∈ l /\ p x = true.
Proof. rewrite !list_elem_of_In. apply filter_In. Qed.

Lemma filter_bool_length_le (p : A -> bool) (l : list A) :
  length (List.filter p l) <= length l.
Proof.
  induction l as [|x l IH]; simpl; [lia|].
  destruct (p x); simpl; lia.
Qed.

Lemma filter_bool_nil_iff (p : A -> bool) (l : list A) :
  List.filter p l = [] <-> Forall (fun x => p x = false) l.
Proof.
  induction l as [|x l IH]; simpl; [split; auto|].
  destruct (p x) eqn:E; split.
  - discriminate.
  - intros Hf. inversion Hf; congruence.
  - intros H. constructor; [done | apply IH; done].
  - intros Hf. inversion Hf; subst. by apply IH.
Qed.

Lemma NoDup_filter_bool (p : A -> bool) (l : list A) :
  NoDup l -> NoDup (List.filter p l).
Proof.
  induction 1 as [|x l Hx Hl IH]; simpl; [constructor|].
  destruct (p x); [|done]. constructor; [|done].
  rewrite elem_of_filter_bool. by intros [? _].
Qed.

(** A list without duplicates that is included in another is not longer. *)
Lemma NoDup_incl_length_le (l k : list A) :
  NoDup l -> (forall x, x ∈ l -> x ∈ k) -> length l <= length k.
Proof. intros Hnd Hincl. by apply submseteq_length, NoDup_submseteq. Qed.

(** A trace extended by one event, split around an earlier occurrence:
    either the split point is the new event, or it was already in the
    trace. *)
Lemma snoc_split (evs pre post : list A) (x y : A) :
  evs ++ [x] = pre ++ y :: post ->
  (post = [] /\ pre = evs /\ y = x) \/
  (exists post', post = post' ++ [x] /\ evs = pre ++ y :: post').
Proof.
  destruct post as [|z post _] using rev_ind; intros Heq.
  - left. apply app_inj_tail in Heq as [-> ->]. auto.
  - right. exists post.
    rewrite app_comm_cons, app_assoc in Heq.
    apply app_inj_tail in Heq as [-> ->]. auto.
Qed.
End ListFacts.

Section DedupFacts.
Context {A : Type} `{EqDecision A}.

(** Removing repetitions commutes with a boolean filter. *)
Lemma remove_dups_filter_bool (p : A -> bool) (l : list A) :
  remove_dups (List.filter p l) = List.filter p (remove_dups l).
Proof.
  induction l as [|x l IH]; simpl; [done|].
  destruct (p x) eqn:Hp; simpl.
  - assert (Hx : x ∈ List.filter p l <-> x ∈ l) by (rewrite elem_of_filter_bool; naive_solver).
    repeat case_decide; simpl; rewrite ?Hp, ?IH; naive_solver.
  - case_decide; [done|]. simpl. by rewrite Hp.
Qed.

(** The same for the order of first occurrences, the order of a dict
    built from [l]. *)
Lemma first_occurrences_filter_bool (p : A -> bool) (l : list A) :
  rev (remove_dups (rev (List.filter p l))) = List.filter p (rev (remove_dups (rev l))).
Proof. by rewrite <- filter_rev, remove_dups_filter_bool, filter_rev. Qed.
End DedupFacts.

(** [NoDup] of a concrete list, by evaluation. *)
Lemma NoDup_by_decide {A} `{EqDecision A} (l : list A) :
  bool_decide (NoDup l) = true -> NoDup l.
Proof. apply bool_decide_eq_true_1. Qed.

#[export] Hint Resolve filter_bool_length_le NoDup_filter_bool : wfc.
