(* ===== verification/PyExc.v ===== *)
(** Python exceptions and the monad of statements that mutate a store and
    may raise.

    [pyclass] lists the exception classes that the handlers of
    src/wait_for_connection.py test for or that a probe can raise, with
    their Python base classes; [issubclass] is Python's [isinstance] test on
    them.  [PyM S A] is a statement over a store [S]: it returns a value or
    raises a class, and in both cases hands back the store, because Python
    objects mutated before a [raise] stay mutated. *)

From stdpp Require Import base list.
From Stdlib Require Import ZArith Lia.
From S2P Require Import Prelude.

Module PyExc.

(** The classes, by their Python names.  [FuturesError] and
    [FuturesTimeoutError] are [concurrent.futures._base.Error] and
    [concurrent.futures._base.TimeoutError] of Python 3.10 and earlier;
    [HTTPException], [BadStatusLine], [InvalidURL] and [RemoteDisconnected]
    are those of [http.client]; [URLError] and [HTTPError] those of
    [urllib.error]. *)
Inductive pyclass :=
| BaseException | Exception | KeyboardInterrupt
| OSError | ConnectionError | ConnectionResetError | TimeoutError
| URLError | HTTPError
| ValueError | UnicodeError
| LookupError | KeyError | RuntimeError
| HTTPException | BadStatusLine | InvalidURL | RemoteDisconnected
| FuturesError | FuturesTimeoutError.

#[export] Instance pyclass_eq_dec : EqDecision pyclass.
Proof. solve_decision. Defined.

Definition all_classes : list pyclass :=
  [BaseException; Exception; KeyboardInterrupt; OSError; ConnectionError;
   ConnectionResetError; TimeoutError; URLError; HTTPError; ValueError;
   UnicodeError; LookupError; KeyError; RuntimeError; HTTPException;
   BadStatusLine; InvalidURL; RemoteDisconnected; FuturesError;
   FuturesTimeoutError].

(** The exception bases of each class ([__bases__] restricted to exception
    classes: [HTTPError]'s other base, [urllib.response.addinfourl], is not
    one). *)
Definition bases (c : pyclass) : list pyclass :=
  match c with
  | BaseException => []
  | Exception | KeyboardInterrupt => [BaseException]
  | OSError | ValueError | LookupError | RuntimeError | HTTPException
  | FuturesError => [Exception]
  | ConnectionError | TimeoutError | URLError => [OSError]
  | ConnectionResetError => [ConnectionError]
  | HTTPError => [URLError]
  | UnicodeError => [ValueError]
  | KeyError => [LookupError]
  | BadStatusLine | InvalidURL => [HTTPException]
  | RemoteDisconnected => [ConnectionResetError; BadStatusLine]
  | FuturesTimeoutError => [FuturesError]
  end.

(** [subclass_upto n c t]: [t] is [c] or reached from [c] through at most
    [n] base links. *)
Fixpoint subclass_upto (n : nat) (c t : pyclass) : bool :=
  bool_decide (c = t) ||
  match n with
  | O => false
  | S n' => existsb (fun b => subclass_upto n' b t) (bases c)
  end.

(** The hierarchy is at most five links deep; eight is a safe bound
    ([issubclass_depth_enough] below). *)
Definition class_depth : nat := 8.

Definition issubclass (c t : pyclass) : bool := subclass_upto class_depth c t.

(** [except (t1, ..., tn)] catches [c] when [c] is a subclass of one of the
    [ti]. *)
Definition matches (c : pyclass) (ts : list pyclass) : bool :=
  existsb (issubclass c) ts.

(** [concurrent.futures.TimeoutError]: an alias of the builtin
    [TimeoutError] from Python 3.11 on, a class of its own before. *)
Definition futures_TimeoutError (py311 : bool) : pyclass :=
  if py311 then TimeoutError else FuturesTimeoutError.

(** ** The statement monad *)

Inductive result (A : Type) :=
| Ok (a : A)
| Raise (e : pyclass).
Arguments Ok {A} a.
Arguments Raise {A} e.

#[export] Instance result_eq_dec `{EqDecision A} : EqDecision (result A).
Proof. solve_decision. Defined.

Definition PyM (S A : Type) : Type := S -> result A * S.

Definition ret {S A} (a : A) : PyM S A := fun s => (Ok a, s).
Definition raise {S A} (e : pyclass) : PyM S A := fun s => (Raise e, s).
Definition get {S} : PyM S S := fun s => (Ok s, s).
Definition put {S} (s : S) : PyM S unit := fun _ => (Ok tt, s).
Definition modify {S} (f : S -> S) : PyM S unit := fun s => (Ok tt, f s).

Definition bind {S A B} (m : PyM S A) (k : A -> PyM S B) : PyM S B :=
  fun s => match m s with
           | (Ok a, s') => k a s'
           | (Raise e, s') => (Raise e, s')
           end.

Notation "x <- m ;; k" := (bind m (fun x => k))
  (at level 100, m at next level, right associativity) : wfc_scope.
Notation "m ;; k" := (bind m (fun _ => k))
  (at level 100, right associativity) : wfc_scope.
Local Open Scope wfc_scope.

(** [try: m  except h]: [h e] is the handler of the first [except] clause
    that matches [e], if any; an unmatched exception propagates with the
    store as [m] left it. *)
Definition try_except {S A} (m : PyM S A) (h : pyclass -> option (PyM S A))
  : PyM S A :=
  fun s => match m s with
           | (Raise e, s') =>
               match h e with Some k => k s' | None => (Raise e, s') end
           | r => r
           end.

(** [for x in l: body(x)] where the body may raise. *)
Fixpoint py_for {S A} (l : list A) (body : A -> PyM S unit) : PyM S unit :=
  match l with
  | [] => ret tt
  | x :: l' => body x ;; py_for l' body
  end.

(** ** Laws *)

Lemma bind_ret_l {S A B} (a : A) (k : A -> PyM S B) s :
  bind (ret a) k s = k a s.
Proof. reflexivity. Qed.

Lemma bind_assoc {S A B C} (m : PyM S A) (k : A -> PyM S B) (j : B -> PyM S C) s :
  bind (bind m k) j s = bind m (fun a => bind (k a) j) s.
Proof. unfold bind. destruct (m s) as [[a|e] s']; reflexivity. Qed.

Lemma py_for_app {S A} (l1 l2 : list A) (body : A -> PyM S unit) s :
  py_for (l1 ++ l2) body s = bind (py_for l1 body) (fun _ => py_for l2 body) s.
Proof.
  revert s. induction l1 as [|x l1 IH]; intros s; [reflexivity|].
  simpl. unfold bind at 1 2 3.
  destruct (body x s) as [[[]|e] s']; [|reflexivity].
  rewrite IH. reflexivity.
Qed.

(** A property of the store that every body step preserves, raise or not,
    holds after the whole loop. *)
Lemma py_for_preserves {S A} (P : S -> Prop) (l : list A) body s :
  (forall x s, x ∈ l -> P s -> P (snd (body x s))) ->
  P s -> P (snd (py_for l body s)).
Proof.
  revert s. induction l as [|x l IH]; intros s Hb Hs; simpl; [done|].
  unfold bind. pose proof (Hb x s (list_elem_of_here _ _) Hs) as Hx.
  destruct (body x s) as [[[]|e] s'] eqn:E; simpl in *; [|done].
  apply IH; [|done]. intros y t Hy. apply Hb. by apply list_elem_of_further.
Qed.

(** An exception out of a [for] loop was raised by the body on one of the
    elements. *)
Lemma py_for_raise {S A} (l : list A) (body : A -> PyM S unit) (s : S) e (s' : S) :
  py_for l body s = (Raise e, s') ->
  exists x t, x ∈ l /\ body x t = (Raise e, s').
Proof.
  revert s. induction l as [|x l IH]; intros s; simpl; [discriminate|].
  unfold bind. destruct (body x s) as [[[]|e'] t] eqn:E.
  - intros H. destruct (IH t H) as (y & t' & Hy & Hb).
    exists y, t'. split; [by apply list_elem_of_further|done].
  - intros [= -> ->]. exists x, s. split; [apply list_elem_of_here|done].
Qed.

(** The same, with the point of the raise: the elements before it ran
    normally, from the first store to the one the raising body saw. *)
Lemma py_for_raise_split {S A} (l : list A) (body : A -> PyM S unit) (s : S) e (s' : S) :
  py_for l body s = (Raise e, s') ->
  exists pre x post t, l = pre ++ x :: post /\ py_for pre body s = (Ok tt, t) /\ body x t = (Raise e, s').
Proof.
  revert s. induction l as [|x l IH]; intros s; simpl; [discriminate|].
  unfold bind. destruct (body x s) as [[[]|e'] t] eqn:E.
  - intros H. destruct (IH t H) as (pre & y & post & t' & -> & Hpre & Hy).
    exists (x :: pre), y, post, t'. split_and!; [done| |done]. simpl. unfold bind. by rewrite E.
  - intros [= -> ->]. by exists [], x, l, s.
Qed.

(** ** The class hierarchy *)

Lemma elem_of_all_classes c : c ∈ all_classes.
Proof. destruct c; vm_compute; repeat constructor. Qed.

(** Decide a property of every class by enumerating [all_classes]. *)
Lemma forall_classes (P : pyclass -> Prop) :
  Forall P all_classes -> forall c, P c.
Proof.
  intros HF c. rewrite Forall_forall in HF. apply HF, elem_of_all_classes.
Qed.

(** A boolean property of every class, checked on the enumeration. *)
Lemma forall_classes_b (p : pyclass -> bool) :
  forallb p all_classes = true -> forall c, p c = true.
Proof.
  intros Hall c. apply forallb_forall with (x := c) in Hall; [done|].
  apply list_elem_of_In, elem_of_all_classes.
Qed.

(** One more base link changes nothing once [m] links are allowed for
    every class. *)
Lemma subclass_upto_stable m :
  (forall c t, subclass_upto (S m) c t = subclass_upto m c t) ->
  forall n c t, (m <= n)%nat -> subclass_upto n c t = subclass_upto m c t.
Proof.
  intros Hm n. induction n as [|n IH]; intros c t Hle.
  - by assert (m = 0%nat) as -> by lia.
  - destruct (decide (m = S n)) as [->|Hne]; [done|].
    rewrite <- (Hm c t). simpl. f_equal.
    induction (bases c) as [|b bs IHb]; simpl; [done|].
    rewrite (IH b t) by lia. by rewrite IHb.
Qed.

Lemma issubclass_ValueError_not_other b c :
  issubclass c ValueError = true ->
  issubclass c (futures_TimeoutError b) = false /\ matches c [URLError; HTTPError] = false.
Proof.
  revert c. assert (H : forall c, implb (issubclass c ValueError)
    (negb (issubclass c (futures_TimeoutError b)) && negb (matches c [URLError; HTTPError])) = true).
  { apply forall_classes_b. by destruct b; vm_compute. }
  intros c Hc. specialize (H c). rewrite Hc in H. simpl in H.
  apply andb_prop in H as [H1 H2]. apply negb_true_iff in H1, H2. done.
Qed.

(** ** Properties *)

(** The walk of [issubclass] is deep enough: allowing any number of
    base links beyond [class_depth] gives the same answer, so
    [issubclass] is the full subclass relation of the modelled hierarchy. *)
Theorem issubclass_depth_enough n c t :
  (class_depth <= n)%nat -> subclass_upto n c t = issubclass c t.
Proof.
  intros Hn. unfold issubclass. apply subclass_upto_stable; [|done].
  assert (H : forall c', forallb (fun t' =>
    Bool.eqb (subclass_upto (S class_depth) c' t') (subclass_upto class_depth c' t'))
    all_classes = true) by (apply forall_classes_b; vm_compute; reflexivity).
  intros c' t'. apply Bool.eqb_prop.
  exact (forall_classes_b _ (H c') t').
Qed.

Lemma issubclass_depth_enough_witness :
  (class_depth <= 12)%nat /\ subclass_upto 12 RemoteDisconnected OSError = true.
Proof.
  split; [unfold class_depth; lia|].
  rewrite (issubclass_depth_enough 12 RemoteDisconnected OSError); [|unfold class_depth; lia].
  vm_compute. reflexivity.
Defined.

(** The clause [except (URLError, HTTPError)] catches exactly the
    subclasses of [URLError]: [HTTPError] is one, while [TimeoutError],
    [ConnectionResetError], [RemoteDisconnected] and the [ValueError]
    family are not. *)
Theorem retry_clause_classes c :
  matches c [URLError; HTTPError] = issubclass c URLError.
Proof.
  apply Bool.eqb_prop. revert c. apply (forall_classes_b (fun c =>
    Bool.eqb (matches c [URLError; HTTPError]) (issubclass c URLError))).
  vm_compute. reflexivity.
Qed.

End PyExc.
