(* ===== verification/PyDict.v ===== *)
(** Python's [dict] as the program uses it for [url_up].

    A dict is an association list in insertion order: [d[k] = v] updates the
    entry of [k] in place when [k] is a key and appends it otherwise, and
    iteration ([d.items()]) follows the list.  The order matters to the
    program only through [check_failed], which lists the failed URLs in
    dict order; a [gmap] would lose it, which is why the dict is not one. *)

From stdpp Require Import base list sets.
From Stdlib Require Import Lia.
From S2P Require Import Prelude.

Module PyDict.

Section Dict.
Context {K V : Type} `{EqDecision K}.

Definition dict : Type := list (K * V).

Definition dict_keys (d : dict) : list K := map fst d.

(** [d[k]], [None] where Python raises [KeyError]. *)
Fixpoint dict_get (k : K) (d : dict) : option V :=
  match d with
  | [] => None
  | (k', v) :: d' => if decide (k = k') then Some v else dict_get k d'
  end.

(** [d[k] = v]. *)
Fixpoint dict_set (k : K) (v : V) (d : dict) : dict :=
  match d with
  | [] => [(k, v)]
  | (k', v') :: d' =>
      if decide (k = k') then (k', v) :: d' else (k', v') :: dict_set k v d'
  end.

(** [{k: v for k in ks}]: the comprehension assigns the keys in order. *)
Definition dict_from_keys (ks : list K) (v : V) : dict :=
  fold_left (fun d k => dict_set k v d) ks [].

(** Well-formed dicts: no key twice. *)
Definition dict_wf (d : dict) : Prop := NoDup (dict_keys d).

Lemma dict_get_set_eq k v d : dict_get k (dict_set k v d) = Some v.
Proof.
  induction d as [|[k' v'] d IH]; simpl; [by rewrite decide_True|].
  destruct (decide (k = k')) as [->|Hne]; simpl.
  - by rewrite decide_True.
  - by rewrite decide_False.
Qed.

Lemma dict_get_set_ne k k' v d :
  k <> k' -> dict_get k' (dict_set k v d) = dict_get k' d.
Proof.
  intros Hne. induction d as [|[j w] d IH]; simpl.
  - by rewrite decide_False.
  - destruct (decide (k = j)) as [->|Hkj]; simpl.
    + by rewrite !decide_False.
    + by rewrite IH.
Qed.

Lemma dict_get_set k k' v d :
  dict_get k' (dict_set k v d) = if decide (k' = k) then Some v else dict_get k' d.
Proof.
  case_decide; subst; [apply dict_get_set_eq|].
  apply dict_get_set_ne. congruence.
Qed.

Lemma dict_get_is_Some k d : is_Some (dict_get k d) <-> k ∈ dict_keys d.
Proof.
  induction d as [|[k' v'] d IH]; simpl.
  - split; [by intros [? ?] | intros Hin; by apply elem_of_nil in Hin].
  - rewrite elem_of_cons, <- IH.
    case_decide; subst; naive_solver.
Qed.

Lemma dict_get_None k d : dict_get k d = None <-> k ∉ dict_keys d.
Proof. rewrite <- dict_get_is_Some. destruct (dict_get k d); naive_solver. Qed.

Lemma dict_get_elem_of k v d : dict_get k d = Some v -> (k, v) ∈ d.
Proof.
  induction d as [|[k' v'] d IH]; simpl; [discriminate|].
  case_decide; intros Hget; [simplify_eq; left | right; auto].
Qed.

(** Updating a present key keeps the key list. *)
Lemma dict_keys_set_present k v d :
  k ∈ dict_keys d -> dict_keys (dict_set k v d) = dict_keys d.
Proof.
  induction d as [|[k' v'] d IH]; simpl.
  - intros Hin. by apply elem_of_nil in Hin.
  - intros Hin. case_decide; simpl; [done|].
    rewrite IH; [done|]. apply elem_of_cons in Hin. naive_solver.
Qed.

Lemma dict_keys_set_absent k v d :
  k ∉ dict_keys d -> dict_keys (dict_set k v d) = dict_keys d ++ [k].
Proof.
  induction d as [|[k' v'] d IH]; simpl; [done|].
  intros Hin. rewrite elem_of_cons in Hin.
  rewrite decide_False by naive_solver. simpl. rewrite IH; naive_solver.
Qed.

Lemma dict_set_keys_elem k k' v d :
  k' ∈ dict_keys (dict_set k v d) <-> k' = k \/ k' ∈ dict_keys d.
Proof.
  destruct (decide (k ∈ dict_keys d)) as [Hin|Hin].
  - rewrite dict_keys_set_present by done. naive_solver.
  - rewrite dict_keys_set_absent by done.
    rewrite elem_of_app, list_elem_of_singleton. naive_solver.
Qed.

Lemma dict_wf_set k v d : dict_wf d -> dict_wf (dict_set k v d).
Proof.
  unfold dict_wf. intros Hnd.
  destruct (decide (k ∈ dict_keys d)) as [Hin|Hin].
  - by rewrite dict_keys_set_present.
  - rewrite dict_keys_set_absent by done.
    apply NoDup_app. split_and!; [done| |apply NoDup_singleton].
    intros x Hx Hx'. apply list_elem_of_singleton in Hx'. by subst.
Qed.

(** The comprehension's result, looked up. *)
Lemma dict_from_keys_get ks v k :
  dict_get k (dict_from_keys ks v) = if decide (k ∈ ks) then Some v else None.
Proof.
  unfold dict_from_keys.
  assert (Hgen : forall d, (forall j, dict_get j d = None \/ dict_get j d = Some v) ->
    dict_get k (fold_left (fun d k => dict_set k v d) ks d) =
    if decide (k ∈ ks) then Some v else dict_get k d).
  { induction ks as [|j ks IH]; intros d Hd; simpl; [done|].
    rewrite IH.
    - rewrite dict_get_set. repeat case_decide; set_solver.
    - intros i. rewrite dict_get_set. destruct (decide (i = j)); [by right | apply Hd]. }
  rewrite Hgen; [by case_decide | by left].
Qed.

Lemma dict_from_keys_keys ks v k : k ∈ dict_keys (dict_from_keys ks v) <-> k ∈ ks.
Proof.
  rewrite <- dict_get_is_Some, dict_from_keys_get.
  case_decide; [naive_solver|]. split; [by intros [? ?]|done].
Qed.

Lemma dict_from_keys_wf ks v : dict_wf (dict_from_keys ks v).
Proof.
  unfold dict_from_keys.
  assert (Hgen : forall d, dict_wf d ->
    dict_wf (fold_left (fun d k => dict_set k v d) ks d)).
  { induction ks as [|j ks IH]; intros d Hd; simpl; [done|].
    by apply IH, dict_wf_set. }
  apply Hgen. constructor.
Qed.
End Dict.

Arguments dict : clear implicits.

(** ** Properties *)

Section DictProps.
Context {K V : Type} `{EqDecision K}.

(** [d[k] = v] on a well-formed dict: [d[k]] then reads [v], every
    other key reads as before, the key list is kept when [k] is a key and
    gets [k] appended otherwise, and no key appears twice. *)
Theorem dict_set_spec (k : K) (v : V) (d : dict K V) :
  dict_wf d ->
  dict_get k (dict_set k v d) = Some v /\
  (forall k', k' <> k -> dict_get k' (dict_set k v d) = dict_get k' d) /\
  dict_keys (dict_set k v d) =
    (if decide (k ∈ dict_keys d) then dict_keys d else dict_keys d ++ [k]) /\
  dict_wf (dict_set k v d).
Proof.
  intros Hwf. split_and!.
  - apply dict_get_set_eq.
  - intros k' Hne. by apply dict_get_set_ne.
  - case_decide; [by apply dict_keys_set_present | by apply dict_keys_set_absent].
  - by apply dict_wf_set.
Qed.

(** The comprehension [{k: v for k in ks}] has the keys of [ks] in
    the order of their first occurrence, without repetition. *)
Theorem dict_from_keys_order (ks : list K) (v : V) :
  dict_keys (dict_from_keys ks v) = rev (remove_dups (rev ks)).
Proof.
  unfold dict_from_keys. induction ks as [|k ks IH] using rev_ind; [done|].
  rewrite fold_left_app. simpl. rewrite rev_unit. simpl.
  pose proof (dict_from_keys_keys ks v k) as Hk. unfold dict_from_keys in Hk.
  assert (Hr : k ∈ rev ks <-> k ∈ ks).
  { rewrite !list_elem_of_In. symmetry. apply in_rev. }
  case_decide as Hin.
  - rewrite dict_keys_set_present; [done|]. apply Hk, Hr, Hin.
  - rewrite dict_keys_set_absent, IH; [done|]. rewrite Hk, <- Hr. done.
Qed.
End DictProps.

Lemma dict_set_spec_witness :
  dict_wf [(1, false); (2, false)] /\
  dict_get 2 (dict_set 2 true [(1, false); (2, false)]) = Some true.
Proof.
  assert (Hwf : dict_wf [(1, false); (2, false)]).
  { unfold dict_wf. apply NoDup_by_decide. vm_compute. reflexivity. }
  split; [exact Hwf|]. apply (dict_set_spec 2 true _ Hwf).
Defined.

#[export] Hint Resolve dict_wf_set dict_from_keys_wf dict_get_set_eq : wfc.
#[export] Hint Rewrite @dict_get_set @dict_from_keys_get : wfc.

End PyDict.
