(* ===== verification/UrlState.v ===== *)
(** The reachability table [url_up] of [i_can_has_threaded_connection] and
    the function [check_failed] (src/wait_for_connection.py, lines 68-77
    and 94): a dict from URL to [True] (reached) or [False] (not yet). *)

From stdpp Require Import base list sets strings.
From Stdlib Require Import Lia.
From S2P Require Import Prelude PyDict.
Import PyDict.

Module UrlState.

Abbreviation url := string.
Abbreviation url_table := (dict string bool).

(** [url_up = {u: False for u in urls}] (line 94). *)
Definition init_url_up (urls : list url) : url_table := dict_from_keys urls false.

(** [check_failed(url_up)]: [[u for u, ok in url_up.items() if not ok]]. *)
Definition check_failed (url_up : url_table) : list url :=
  map fst (List.filter (fun '(_, ok) => negb ok) url_up).

(** [url_up[u]] read as a truth value, for a URL known to be a key. *)
Definition is_up (url_up : url_table) (u : url) : bool :=
  match dict_get u url_up with Some ok => ok | None => false end.

(** The URLs the comprehension of lines 107-111 submits, one per
    occurrence in [urls]: [[url for url in urls if not url_up[url]]]. *)
Definition pending_urls (urls : list url) (url_up : url_table) : list url :=
  List.filter (fun u => negb (is_up url_up u)) urls.

(** Table inclusion: every URL up in [d] is up in [d'], on the same keys. *)
Definition table_le (d d' : url_table) : Prop :=
  dict_keys d' = dict_keys d /\ forall u, dict_get u d = Some true -> dict_get u d' = Some true.

(** ** check_failed *)

Lemma elem_of_check_failed_pair u d :
  u ∈ check_failed d <-> (u, false) ∈ d.
Proof.
  unfold check_failed. rewrite list_elem_of_fmap. split.
  - intros [[u' ok] [-> Hin]]. apply elem_of_filter_bool in Hin as [Hin Hok].
    destruct ok; [discriminate|done].
  - intros Hin. exists (u, false). split; [done|]. by apply elem_of_filter_bool.
Qed.

Lemma dict_wf_get_pair (d : url_table) u b :
  dict_wf d -> (u, b) ∈ d -> dict_get u d = Some b.
Proof.
  unfold dict_wf, dict_keys. induction d as [|[k v] d IH]; simpl.
  - intros _ Hin. by apply elem_of_nil in Hin.
  - intros Hnd Hin. apply NoDup_cons in Hnd as [Hk Hnd].
    apply elem_of_cons in Hin as [Heq|Hin].
    + simplify_eq. by rewrite decide_True.
    + rewrite decide_False; [by apply IH|].
      intros Heq. apply Hk. apply list_elem_of_fmap. exists (u, b). by subst.
Qed.

(** A URL is reported failed exactly when its entry is [False]. *)
Lemma elem_of_check_failed u d :
  dict_wf d -> u ∈ check_failed d <-> dict_get u d = Some false.
Proof.
  intros Hwf. rewrite elem_of_check_failed_pair. split.
  - by apply dict_wf_get_pair.
  - apply dict_get_elem_of.
Qed.

Lemma NoDup_check_failed d : dict_wf d -> NoDup (check_failed d).
Proof.
  unfold dict_wf, dict_keys, check_failed. induction d as [|[k v] d IH]; simpl.
  - constructor.
  - intros Hnd. apply NoDup_cons in Hnd as [Hk Hnd].
    destruct v; simpl; [by apply IH|]. constructor; [|by apply IH].
    rewrite list_elem_of_fmap. intros [[k' b] [-> Hin]].
    apply elem_of_filter_bool in Hin as [Hin _]. apply Hk.
    apply list_elem_of_fmap. by exists (k', b).
Qed.

Lemma check_failed_length_le d : length (check_failed d) <= length (dict_keys d).
Proof.
  unfold check_failed, dict_keys. rewrite !length_map.
  apply filter_bool_length_le.
Qed.

(** [check_failed] is empty exactly when every entry is [True]. *)
Lemma check_failed_nil_iff d :
  check_failed d = [] <-> forall u b, (u, b) ∈ d -> b = true.
Proof.
  unfold check_failed.
  transitivity (List.filter (fun '(_, ok) => negb ok) d = []).
  { split; [apply map_eq_nil | by intros ->]. }
  rewrite filter_bool_nil_iff, Forall_forall. split.
  - intros H u b Hin. specialize (H (u, b) Hin). by destruct b.
  - intros H [u b] Hin. simpl. rewrite (H u b Hin). done.
Qed.

(** On a table without repeated keys, the comprehension over the items
    is the comprehension over the keys that looks each one up. *)
Lemma check_failed_by_keys d :
  dict_wf d -> check_failed d = List.filter (fun u => negb (is_up d u)) (dict_keys d).
Proof.
  unfold dict_wf, dict_keys, check_failed, is_up.
  induction d as [|[k v] d IH]; simpl; [done|].
  intros Hnd. apply NoDup_cons in Hnd as [Hk Hnd].
  rewrite decide_True by done.
  assert (Hrest : List.filter (fun u => negb match (if decide (u = k) then Some v else dict_get u d)
                    with Some ok => ok | None => false end) (map fst d) =
                  List.filter (fun u => negb match dict_get u d with Some ok => ok | None => false end)
                    (map fst d)).
  { apply filter_ext_in. intros u Hu%list_elem_of_In. rewrite decide_False; [done|].
    intros ->. by apply Hk. }
  rewrite Hrest, <- IH by done. by destruct v.
Qed.

(** ** The initial table *)

Lemma init_url_up_wf urls : dict_wf (init_url_up urls).
Proof. apply dict_from_keys_wf. Qed.

Lemma init_url_up_get urls u :
  dict_get u (init_url_up urls) = if decide (u ∈ urls) then Some false else None.
Proof. apply dict_from_keys_get. Qed.

Lemma init_url_up_keys urls u : u ∈ dict_keys (init_url_up urls) <-> u ∈ urls.
Proof. apply dict_from_keys_keys. Qed.

(** ** Pending URLs *)

Lemma elem_of_pending_urls urls d u :
  u ∈ pending_urls urls d <-> u ∈ urls /\ is_up d u = false.
Proof.
  unfold pending_urls. rewrite elem_of_filter_bool.
  by rewrite negb_true_iff.
Qed.

Lemma pending_urls_cons u us d :
  pending_urls (u :: us) d = if is_up d u then pending_urls us d else u :: pending_urls us d.
Proof. unfold pending_urls. simpl. by destruct (is_up d u). Qed.

Lemma is_up_true d u : is_up d u = true <-> dict_get u d = Some true.
Proof. unfold is_up. destruct (dict_get u d) as [[]|]; naive_solver. Qed.

#[export] Instance table_le_preorder : PreOrder table_le.
Proof.
  split.
  - intros d. by split.
  - intros d1 d2 d3 [Hk12 H12] [Hk23 H23]. split; [congruence|auto].
Qed.

(** Setting an existing URL to [True] only adds to the table. *)
Lemma table_le_set_true d u :
  u ∈ dict_keys d -> table_le d (dict_set u true d).
Proof.
  intros Hin. split; [by apply dict_keys_set_present|].
  intros v Hv. rewrite dict_get_set. by case_decide.
Qed.

(** ** Properties *)

(** On a table without repeated keys, [check_failed] lists each URL
    whose entry is [False] exactly once, and nothing else; it is never
    longer than the table. *)
Theorem check_failed_exact d :
  dict_wf d ->
  NoDup (check_failed d) /\
  (forall u, u ∈ check_failed d <-> dict_get u d = Some false) /\
  length (check_failed d) <= length (dict_keys d).
Proof.
  intros Hwf. split_and!.
  - by apply NoDup_check_failed.
  - intros u. by apply elem_of_check_failed.
  - apply check_failed_length_le.
Qed.

(** C14: The comprehension of lines 107-111 and [check_failed] agree:
    on a table whose keys are the URLs in first-occurrence order, the
    URLs a round submits are, once repetitions are removed, exactly the
    URLs [check_failed] reports, in the same order. *)
Theorem pending_urls_check_failed urls d :
  dict_wf d -> dict_keys d = rev (remove_dups (rev urls)) ->
  rev (remove_dups (rev (pending_urls urls d))) = check_failed d.
Proof.
  intros Hwf Hk. unfold pending_urls.
  by rewrite first_occurrences_filter_bool, <- Hk, check_failed_by_keys.
Qed.

(** The table of the docstring of [check_failed] (lines 70-75). *)
Definition doctest_table : url_table :=
  [("https://www.google.com", true);
   ("http://archive.raspberrypi.org/debian", false);
   ("http://raspbian.raspberrypi.org/raspbian", false)].

Lemma check_failed_exact_witness :
  dict_wf doctest_table /\ length (check_failed doctest_table) = 2.
Proof.
  assert (Hwf : dict_wf doctest_table).
  { unfold dict_wf. apply NoDup_by_decide. vm_compute. reflexivity. }
  split; [exact Hwf|].
  destruct (check_failed_exact doctest_table Hwf) as (_ & _ & _).
  vm_compute. reflexivity.
Defined.

Lemma pending_urls_check_failed_witness :
  let d : url_table := [("A", false); ("B", true)] in
  dict_wf d /\ dict_keys d = rev (remove_dups (rev ["A"; "B"; "A"])) /\
  pending_urls ["A"; "B"; "A"] d = ["A"; "A"] /\
  rev (remove_dups (rev (pending_urls ["A"; "B"; "A"] d))) = check_failed d.
Proof.
  intros d.
  assert (Hwf : dict_wf d) by (apply NoDup_by_decide; vm_compute; reflexivity).
  assert (Hk : dict_keys d = rev (remove_dups (rev ["A"; "B"; "A"]))) by (vm_compute; reflexivity).
  split; [exact Hwf|]. split; [exact Hk|]. split; [vm_compute; reflexivity|].
  exact (pending_urls_check_failed ["A"; "B"; "A"] d Hwf Hk).
Defined.

End UrlState.

#[export] Hint Resolve UrlState.init_url_up_wf UrlState.table_le_set_true : wfc.
