(* ===== verification/ReturnCode.v ===== *)
(** The status the session returns and the process exit status.

    [fail_code] is line 142 of src/wait_for_connection.py,
    [len(failed) if len(failed) < 126 else -1]; -2 and -3 are the returns of
    the [ValueError] and [Exception] handlers (lines 135 and 138).  Line 187
    passes the returned integer to [sys.exit], whose exit status on POSIX is
    the low byte of the integer ([exit_status]).  [docstring_code] is
    the count as the module docstring (lines 24-26) describes it: -1 only
    when more than 126 URLs failed; it differs from [fail_code] at
    exactly 126.  [outcome] is the classification of the specification's
    section 6 (all reached, N unreachable, too many, invalid input,
    unexpected error) with its encoding [outcome_code] and the decoding
    [decode_code]; they are the specification's reading of the codes,
    which [Spec] uses, not code of the program. *)

From stdpp Require Import base list.
From Stdlib Require Import ZArith Lia.
From S2P Require Import Prelude.

Module ReturnCode.
Local Open Scope Z_scope.

(** The count above which the code saturates. *)
Definition FAIL_CAP : Z := 126.

(** [len(failed) if len(failed) < 126 else -1] *)
Definition fail_code {A} (failed : list A) : Z :=
  let n := Z.of_nat (length failed) in
  if n <? FAIL_CAP then n else -1.

(** [return -2] and [return -3]. *)
Definition INVALID_URL_CODE : Z := -2.
Definition UNEXPECTED_CODE : Z := -3.

(** [sys.exit(n)]: the exit status is [n & 0xFF]. *)
Definition exit_status (n : Z) : Z := Z.land n 255.

(** An exit status read back as a signed byte, as the caller would decode
    the session's return code. *)
Definition signed_byte (s : Z) : Z := if s <? 128 then s else s - 256.

Inductive outcome :=
| AllReached
| Unreached (n : nat)
| TooManyUnreached
| InvalidInput
| UnexpectedError.

Definition outcome_code (o : outcome) : Z :=
  match o with
  | AllReached => 0
  | Unreached n => Z.of_nat n
  | TooManyUnreached => -1
  | InvalidInput => INVALID_URL_CODE
  | UnexpectedError => UNEXPECTED_CODE
  end.

(** The outcomes a code can stand for; [Unreached n] is meant for
    [1 <= n <= 125]. *)
Definition outcome_wf (o : outcome) : Prop :=
  match o with Unreached n => (1 <= n <= 125)%nat | _ => True end.

Definition decode_code (c : Z) : option outcome :=
  if c =? 0 then Some AllReached
  else if (1 <=? c) && (c <? FAIL_CAP) then Some (Unreached (Z.to_nat c))
  else if c =? -1 then Some TooManyUnreached
  else if c =? -2 then Some InvalidInput
  else if c =? -3 then Some UnexpectedError
  else None.

(** The outcome [n] URLs left unreached stand for. *)
Definition count_outcome (n : nat) : outcome :=
  match n with
  | O => AllReached
  | S _ => if (n <? 126)%nat then Unreached n else TooManyUnreached
  end.

(** The outcome a list of failed URLs stands for. *)
Definition failed_outcome {A} (failed : list A) : outcome := count_outcome (length failed).

(** The code the module docstring (lines 23-27) describes for [n] failed
    URLs: "the number of failed urls in the returncode. -1 is returned if
    the failed urls are greater than 126". *)
Definition docstring_code (n : nat) : Z := if (126 <? n)%nat then -1 else Z.of_nat n.

(** ** Lemmas *)

Lemma fail_code_cases {A} (failed : list A) :
  (Z.of_nat (length failed) < FAIL_CAP /\ fail_code failed = Z.of_nat (length failed))
  \/ (FAIL_CAP <= Z.of_nat (length failed) /\ fail_code failed = -1).
Proof.
  unfold fail_code. destruct (Z.ltb_spec (Z.of_nat (length failed)) FAIL_CAP); lia.
Qed.

Lemma fail_code_zero {A} (failed : list A) : fail_code failed = 0 <-> failed = [].
Proof.
  pose proof (fail_code_cases failed) as Hc. unfold FAIL_CAP in Hc.
  destruct Hc as [[Hl ->]|[Hl ->]].
  - split; [|by intros ->]. destruct failed; simpl in *; [done|lia].
  - split; [lia|]. intros ->. simpl in Hl. lia.
Qed.

Lemma fail_code_range {A} (failed : list A) :
  -1 <= fail_code failed <= Z.min (Z.of_nat (length failed)) 125.
Proof. pose proof (fail_code_cases failed) as Hc. unfold FAIL_CAP in Hc. lia. Qed.

Lemma exit_status_mod n : exit_status n = n mod 256.
Proof. unfold exit_status. change 255 with (Z.ones 8). by rewrite Z.land_ones by lia. Qed.

Lemma exit_status_range n : 0 <= exit_status n < 256.
Proof. rewrite exit_status_mod. apply Z.mod_pos_bound. lia. Qed.

(** The failure count decodes to the outcome of the failed URLs. *)
Lemma decode_fail_code {A} (failed : list A) :
  decode_code (fail_code failed) = Some (failed_outcome failed) /\ outcome_wf (failed_outcome failed).
Proof.
  unfold decode_code, fail_code, failed_outcome, count_outcome, FAIL_CAP.
  destruct failed as [|x l]; [done|]. cbn [length].
  destruct (Nat.ltb_spec (S (length l)) 126).
  - rewrite (proj2 (Z.ltb_lt _ _)) by lia.
    rewrite (proj2 (Z.eqb_neq _ _)) by lia.
    rewrite (proj2 (Z.leb_le _ _)), (proj2 (Z.ltb_lt _ _)) by lia. simpl.
    rewrite Nat2Z.id. split; [done|]. simpl. lia.
  - rewrite (proj2 (Z.ltb_ge _ _)) by lia. done.
Qed.

(** Line 142 and the docstring agree on every count but 126. *)
Lemma fail_code_docstring {A} (failed : list A) :
  fail_code failed = docstring_code (length failed) <-> length failed <> 126%nat.
Proof.
  unfold fail_code, docstring_code, FAIL_CAP.
  destruct (Nat.ltb_spec 126 (length failed)), (Z.ltb_spec (Z.of_nat (length failed)) 126); lia.
Qed.

(** ** Facts about the codes *)

(** The failure count saturates from 126 on: [fail_code] is -1 exactly
    when 126 or more URLs failed, and the count itself below that. *)
Lemma fail_code_saturation {A} (failed : list A) :
  (fail_code failed = -1 <-> (126 <= length failed)%nat) /\
  ((length failed < 126)%nat -> fail_code failed = Z.of_nat (length failed)).
Proof.
  pose proof (fail_code_cases failed) as Hc. unfold FAIL_CAP in Hc. split; [split|]; lia.
Qed.

(** [sys.exit] keeps the low byte of the code, and reading the exit
    status as a signed byte gives every code between -128 and 127 back:
    the session's codes -3 to 125 survive the exit, as 253 to 255 for the
    negative ones. *)
Lemma exit_status_roundtrip c :
  -128 <= c <= 127 -> signed_byte (exit_status c) = c.
Proof.
  intros Hc. unfold signed_byte. rewrite exit_status_mod.
  destruct (Z.leb_spec 0 c).
  - rewrite Z.mod_small by lia. destruct (Z.ltb_spec c 128); lia.
  - rewrite <- (Z.mod_add c 1 256) by lia. rewrite Z.mod_small by lia.
    destruct (Z.ltb_spec (c + 1 * 256) 128); lia.
Qed.


(** The codes are unambiguous: [decode_code c] gives [o] exactly when
    [o] is an outcome the code can stand for and [c] is its code. *)
Theorem decode_code_iff c o :
  decode_code c = Some o <-> outcome_wf o /\ outcome_code o = c.
Proof.
  unfold decode_code, FAIL_CAP. split.
  - destruct (Z.eqb_spec c 0); [intros [= <-]; simpl; lia|].
    destruct (Z.leb_spec 1 c), (Z.ltb_spec c 126); simpl;
      try (intros [= <-]; simpl; lia).
    all: destruct (Z.eqb_spec c (-1)); [intros [= <-]; simpl; lia|].
    all: destruct (Z.eqb_spec c (-2)); [intros [= <-]; simpl; unfold INVALID_URL_CODE; lia|].
    all: destruct (Z.eqb_spec c (-3)); [intros [= <-]; simpl; unfold UNEXPECTED_CODE; lia|].
    all: discriminate.
  - intros [Hwf <-]. destruct o as [| n | | |]; simpl in *; try reflexivity.
    destruct (Z.eqb_spec (Z.of_nat n) 0); [lia|].
    destruct (Z.leb_spec 1 (Z.of_nat n)), (Z.ltb_spec (Z.of_nat n) 126); simpl; try lia.
    by rewrite Nat2Z.id.
Qed.

End ReturnCode.
