(* ===== verification/Round.v ===== *)
(** One round of the polling loop (src/wait_for_connection.py, lines
    106-123): submit a future per URL still down, then drain
    [as_completed].

    The store of a round is the [url_up] table with the trace of the
    round's observable events: the [exe.submit] calls (line 108) and the
    OK and RETRY log lines (lines 120 and 122).  The network is an input:
    a round is run against the list of futures that complete before the
    round's deadline, in completion order, each with the outcome of its
    [urlopen] call. *)

From stdpp Require Import base list sets strings.
From Stdlib Require Import ZArith Lia.
From S2P Require Import Prelude PyExc PyDict UrlState.
Import PyExc PyDict UrlState.
Local Open Scope wfc_scope.

Module Round.

(** What [urllib.request.urlopen(url, timeout=timeout)] did: returned a
    response, or raised an exception of the given class. *)
Inductive urlopen_outcome :=
| Opened
| Failed (e : pyclass).

(** The trace of a session: its submissions and the records it logs, in
    order.  The log records keep the data of the message, not its text. *)
Inductive event :=
| EvSubmit (u : url)   (** [exe.submit(check_url, url, timeout=timeout)] *)
| EvOk (u : url)       (** [logger.info(f"OK:{url}")] *)
| EvRetry (u : url)    (** [logger.debug(f"RETRY:{url}:{e}")] *)
| EvThreads (n : Z)    (** [logger.debug(f"Using {threads} threads.")] *)
| EvTimeLeft (t : Z)   (** [logger.debug(f"{time_left:.2f} seconds left before timeout")] *)
| EvTimeout            (** [logger.debug(f"TIMEOUT:time_left < 0.0")] *)
| EvAllOk              (** [logger.info(f"OK:All Urls.")] *)
| EvExecTimeout (e : pyclass)  (** [logger.debug(f"TIMEOUT:executor:{e}")] *)
| EvInvalid (e : pyclass)      (** [logger.error(f"{e}", exc_info=verbose)] *)
| EvUnexpected (e : pyclass)   (** [logger.error(f"Unexpected Error: {e}", exc_info=True)] *)
| EvFail (failed : list url).  (** [logger.error(f"FAIL:{failed}")] *)

#[export] Instance event_eq_dec : EqDecision event.
Proof. solve_decision. Defined.

(** The records that are neither a submission nor a probe's result. *)
Definition quiet (ev : event) : bool :=
  match ev with EvSubmit _ | EvOk _ | EvRetry _ => false | _ => true end.

Record store := mk_store { url_up : url_table; events : list event }.

Definition log (ev : event) : PyM store unit :=
  modify (fun s => mk_store (url_up s) (events s ++ [ev])).

(** [url_up[url] = b] *)
Definition set_up (u : url) (b : bool) : PyM store unit :=
  modify (fun s => mk_store (dict_set u b (url_up s)) (events s)).

(** [check_url] (lines 55-65): [True] once [urlopen] returns, its exception
    otherwise; [future.result()] returns or re-raises it. *)
Definition check_url (o : urlopen_outcome) : PyM store bool :=
  match o with
  | Opened => ret true
  | Failed e => raise e
  end.

(** The comprehension of lines 107-111, URL by URL: [url_up[url]] (a
    [KeyError] when [url] is not a key) and, when it is [False], a
    submission.  The result lists the submitted URLs in submission order:
    future [i] probes the [i]-th. *)
Fixpoint submit_each (urls : list url) : PyM store (list url) :=
  match urls with
  | [] => ret []
  | u :: us =>
      s <- get ;;
      match dict_get u (url_up s) with
      | None => raise KeyError
      | Some true => submit_each us
      | Some false => log (EvSubmit u) ;; fs <- submit_each us ;; ret (u :: fs)
      end
  end.

(** [except (URLError, HTTPError) as e: logger.debug(...); continue] *)
Definition retry_handler (u : url) (e : pyclass) : option (PyM store unit) :=
  if matches e [URLError; HTTPError] then Some (log (EvRetry u)) else None.

(** The body of the [for future in as_completed(...)] loop (lines 117-123)
    for the future of index [i] that completed with outcome [o]. *)
Definition on_completed (futs : list url) (c : nat * urlopen_outcome) : PyM store unit :=
  let '(i, o) := c in
  match futs !! i with
  | None => raise KeyError
  | Some u =>
      try_except (b <- check_url o ;; set_up u b ;; log (EvOk u)) (retry_handler u)
  end.

(** Every future of [futs] is among the completions. *)
Definition all_completed (futs : list url) (done : list (nat * urlopen_outcome)) : bool :=
  forallb (fun i => bool_decide (i ∈ map fst done)) (seq 0 (length futs)).

(** [as_completed(fs, timeout=time_left)] yields the futures of [done] in
    order, and raises [concurrent.futures.TimeoutError] after them when a
    future of [fs] has not completed by the deadline. *)
Definition as_completed_loop (py311 : bool) (futs : list url)
    (done : list (nat * urlopen_outcome)) : PyM store unit :=
  py_for done (on_completed futs) ;;
  if all_completed futs done then ret tt else raise (futures_TimeoutError py311).

(** The round: submission, then the drain.  The futures that complete,
    and how, depend on what was submitted: [done_of futs]. *)
Definition round (py311 : bool) (urls : list url)
    (done_of : list url -> list (nat * urlopen_outcome)) : PyM store unit :=
  futs <- submit_each urls ;; as_completed_loop py311 futs (done_of futs).

(** The completions [as_completed] can yield for [n] futures: each future
    at most once, and only futures that exist. *)
Definition completions_ok (n : nat) (done : list (nat * urlopen_outcome)) : bool :=
  bool_decide (NoDup (map fst done)) && forallb (fun c => Nat.ltb c.1 n) done.


(** ** The trace properties *)

(** A URL is logged OK exactly when its entry is [True]. *)
Definition ok_logged (s : store) : Prop :=
  forall u, EvOk u ∈ events s <-> dict_get u (url_up s) = Some true.

(** A property of every position of a trace: [P pre e post] for every
    split [pre ++ e :: post]. *)
Definition trace_prop (P : list event -> event -> list event -> Prop)
    (evs : list event) : Prop :=
  forall pre e post, evs = pre ++ e :: post -> P pre e post.

(** No URL is submitted after it was logged OK. *)
Definition no_resubmit : list event -> Prop :=
  trace_prop (fun _ e post => forall u, e = EvOk u -> EvSubmit u ∉ post).

(** A URL is logged OK or RETRY only after a submission of it. *)
Definition probed_before : list event -> Prop :=
  trace_prop (fun pre e _ => forall u, e = EvOk u \/ e = EvRetry u -> EvSubmit u ∈ pre).

(** The invariant of the store over a session whose table has the keys
    [keys0]. *)
Record store_inv (keys0 : list url) (s : store) : Prop := {
  inv_keys : dict_keys (url_up s) = keys0;
  inv_nodup : NoDup keys0;
  inv_ok_logged : ok_logged s;
  inv_no_resubmit : no_resubmit (events s);
  inv_probed : probed_before (events s)
}.

(** ** Functional behaviour of the pieces *)

Lemma submit_each_spec urls s :
  (forall u, u ∈ urls -> u ∈ dict_keys (url_up s)) ->
  submit_each urls s =
    (Ok (pending_urls urls (url_up s)),
     mk_store (url_up s) (events s ++ map EvSubmit (pending_urls urls (url_up s)))).
Proof.
  revert s. induction urls as [|u us IH]; intros s Hkeys.
  - cbn. by rewrite app_nil_r; destruct s.
  - rewrite pending_urls_cons. cbn [submit_each]. unfold bind at 1, get.
    destruct (dict_get u (url_up s)) as [b|] eqn:Hget.
    2:{ exfalso. apply dict_get_None in Hget. apply Hget, Hkeys, list_elem_of_here. }
    assert (Hup : is_up (url_up s) u = b) by (unfold is_up; by rewrite Hget).
    assert (Hk : forall v, v ∈ us -> v ∈ dict_keys (url_up s)).
    { intros v Hv. apply Hkeys. by apply list_elem_of_further. }
    rewrite Hup. destruct b.
    + by apply IH.
    + unfold bind, log, modify. cbn -[submit_each].
      rewrite (IH (mk_store (url_up s) (events s ++ [EvSubmit u]))) by done.
      cbn. by rewrite <- app_assoc.
Qed.

Lemma on_completed_spec futs i o u s :
  futs !! i = Some u ->
  on_completed futs (i, o) s =
    match o with
    | Opened => (Ok tt, mk_store (dict_set u true (url_up s)) (events s ++ [EvOk u]))
    | Failed e =>
        if matches e [URLError; HTTPError]
        then (Ok tt, mk_store (url_up s) (events s ++ [EvRetry u]))
        else (Raise e, s)
    end.
Proof.
  intros Hi. unfold on_completed. rewrite Hi.
  destruct o as [|e]; [reflexivity|].
  unfold try_except, retry_handler, matches. simpl.
  by destruct (issubclass e URLError || (issubclass e HTTPError || false)).
Qed.

(** ** The invariant *)

(** Appending one event keeps a trace property when the property survives
    the extension of every suffix and holds at the new position. *)
Lemma trace_prop_snoc P evs x :
  trace_prop P evs ->
  (forall pre e post, evs = pre ++ e :: post -> P pre e post -> P pre e (post ++ [x])) ->
  P evs x [] ->
  trace_prop P (evs ++ [x]).
Proof.
  intros Hold Hext Hnew pre e post Heq.
  apply snoc_split in Heq as [(-> & -> & ->) | (post' & -> & Hevs)]; [done|].
  apply Hext; [done|]. by apply Hold.
Qed.

Lemma elem_of_split_point (evs pre post : list event) e :
  evs = pre ++ e :: post -> e ∈ evs.
Proof. intros ->. apply elem_of_app. right. apply list_elem_of_here. Qed.

Section Preservation.
Context (keys0 : list url).

Lemma inv_log_submit s u :
  store_inv keys0 s -> dict_get u (url_up s) = Some false ->
  store_inv keys0 (mk_store (url_up s) (events s ++ [EvSubmit u])).
Proof.
  intros [Hk Hnd Hok Hnr Hpr] Hget. split; simpl; [done|done| | |].
  - unfold ok_logged in *; cbn. intros v. rewrite elem_of_app, list_elem_of_singleton, <- Hok. naive_solver.
  - apply trace_prop_snoc; [done| |by intros v ?].
    intros pre e post Hsplit Hp v -> Hin.
    apply elem_of_app in Hin as [Hin|Hin]; [by eapply Hp|].
    apply list_elem_of_singleton in Hin. simplify_eq.
    apply elem_of_split_point, Hok in Hsplit. congruence.
  - apply trace_prop_snoc; [done|done|]. by intros v [? | ?].
Qed.

Lemma inv_log_submits s l :
  store_inv keys0 s -> (forall u, u ∈ l -> dict_get u (url_up s) = Some false) ->
  store_inv keys0 (mk_store (url_up s) (events s ++ map EvSubmit l)).
Proof.
  revert s. induction l as [|u l IH]; intros s Hinv Hl.
  - by rewrite app_nil_r; destruct s.
  - simpl. replace (events s ++ EvSubmit u :: map EvSubmit l)
      with ((events s ++ [EvSubmit u]) ++ map EvSubmit l) by (by rewrite <- app_assoc).
    apply (IH (mk_store (url_up s) (events s ++ [EvSubmit u]))).
    + apply inv_log_submit; [done|]. apply Hl, list_elem_of_here.
    + intros v Hv. apply Hl. by apply list_elem_of_further.
Qed.

Lemma inv_log_retry s u :
  store_inv keys0 s -> EvSubmit u ∈ events s ->
  store_inv keys0 (mk_store (url_up s) (events s ++ [EvRetry u])).
Proof.
  intros [Hk Hnd Hok Hnr Hpr] Hsub. split; simpl; [done|done| | |].
  - unfold ok_logged in *; cbn. intros v. rewrite elem_of_app, list_elem_of_singleton, <- Hok. naive_solver.
  - apply trace_prop_snoc; [done| |by intros v ?].
    intros pre e post _ Hp v -> Hin.
    apply elem_of_app in Hin as [Hin|Hin]; [by eapply Hp|].
    by apply list_elem_of_singleton in Hin.
  - apply trace_prop_snoc; [done|done|]. intros v [? | ?]; by simplify_eq.
Qed.

Lemma inv_log_quiet s ev :
  quiet ev = true -> store_inv keys0 s ->
  store_inv keys0 (mk_store (url_up s) (events s ++ [ev])).
Proof.
  intros Hq [Hk Hnd Hok Hnr Hpr]. split; simpl; [done|done| | |].
  - unfold ok_logged in *; cbn. intros v. rewrite elem_of_app, list_elem_of_singleton, <- Hok.
    split; [intros [H | H]; [done | by subst] | by left].
  - apply trace_prop_snoc; [done| |by intros v ->].
    intros pre e post _ Hp v -> Hin.
    apply elem_of_app in Hin as [Hin|Hin]; [by eapply Hp|].
    apply list_elem_of_singleton in Hin. by subst.
  - apply trace_prop_snoc; [done|done|]. intros v [-> | ->]; discriminate.
Qed.

Lemma inv_log_quiets s l :
  Forall (fun ev => quiet ev = true) l -> store_inv keys0 s ->
  store_inv keys0 (mk_store (url_up s) (events s ++ l)).
Proof.
  induction l as [|ev l IH] using rev_ind; intros Hq Hinv.
  - by rewrite app_nil_r; destruct s.
  - apply Forall_app in Hq as [Hq Hev]. apply Forall_inv in Hev.
    rewrite app_assoc. apply (inv_log_quiet (mk_store (url_up s) (events s ++ l))); [done|].
    by apply IH.
Qed.

Lemma inv_mark_ok s u :
  store_inv keys0 s -> u ∈ keys0 -> EvSubmit u ∈ events s ->
  store_inv keys0 (mk_store (dict_set u true (url_up s)) (events s ++ [EvOk u])).
Proof.
  intros [Hk Hnd Hok Hnr Hpr] Hu Hsub. split; simpl; [| done | | |].
  - rewrite dict_keys_set_present; [done|]. by rewrite Hk.
  - unfold ok_logged in *; cbn. intros v. rewrite elem_of_app, list_elem_of_singleton, dict_get_set.
    case_decide; [subst; naive_solver|]. rewrite <- Hok. naive_solver.
  - apply trace_prop_snoc; [done| |intros v ? Hin; by apply elem_of_nil in Hin].
    intros pre e post _ Hp v -> Hin.
    apply elem_of_app in Hin as [Hin|Hin]; [by eapply Hp|].
    by apply list_elem_of_singleton in Hin.
  - apply trace_prop_snoc; [done|done|]. intros v [? | ?]; by simplify_eq.
Qed.

(** What a round keeps true of the store [s] while it drains: the
    invariant, the futures' submissions logged, the trace of [s0]
    extended. *)
Definition drain_inv (futs : list url) (s0 s : store) : Prop :=
  store_inv keys0 s /\ (forall u, u ∈ futs -> EvSubmit u ∈ events s) /\
  events s0 `prefix_of` events s.

Lemma on_completed_inv futs s0 c s :
  (forall u, u ∈ futs -> u ∈ keys0) ->
  drain_inv futs s0 s -> drain_inv futs s0 (snd (on_completed futs c s)).
Proof.
  intros Hfk (Hinv & Hsub & Hpre). destruct c as [i o].
  destruct (futs !! i) as [u|] eqn:Hi; [|unfold on_completed; rewrite Hi; by split].
  assert (Hu : u ∈ futs) by (by eapply list_elem_of_lookup_2).
  rewrite (on_completed_spec _ _ _ u) by done.
  destruct o as [|e]; [|destruct (matches e _)]; simpl; [| |by split].
  - split_and!; [by apply inv_mark_ok; auto| |by apply prefix_app_r].
    intros v Hv. apply elem_of_app. left. by apply Hsub.
  - split_and!; [by apply inv_log_retry; auto| |by apply prefix_app_r].
    intros v Hv. apply elem_of_app. left. by apply Hsub.
Qed.

Lemma pending_get_false urls d u :
  u ∈ pending_urls urls d -> u ∈ dict_keys d -> dict_get u d = Some false.
Proof.
  intros Hp Hk. apply elem_of_pending_urls in Hp as [_ Hup].
  apply dict_get_is_Some in Hk as [b Hb]. unfold is_up in Hup. rewrite Hb in Hup |- *. by subst.
Qed.

(** The round keeps the invariant and extends the trace, whatever it
    returns. *)
Lemma round_inv py311 urls done_of s :
  store_inv keys0 s -> (forall u, u ∈ urls -> u ∈ keys0) ->
  store_inv keys0 (snd (round py311 urls done_of s)) /\
  events s `prefix_of` events (snd (round py311 urls done_of s)).
Proof.
  intros Hinv Hurls. pose proof (inv_keys _ _ Hinv) as Hk.
  unfold round, bind. rewrite submit_each_spec by (rewrite Hk; auto).
  set (futs := pending_urls urls (url_up s)).
  set (s1 := mk_store (url_up s) (events s ++ map EvSubmit futs)).
  assert (Hfk : forall u, u ∈ futs -> u ∈ keys0).
  { intros u Hu. apply Hurls. by apply elem_of_pending_urls in Hu as [? _]. }
  assert (Hd : drain_inv futs s s1).
  { split_and!.
    - apply inv_log_submits; [done|]. intros u Hu.
      apply (pending_get_false urls); [done|]. rewrite Hk. auto.
    - intros u Hu. apply elem_of_app. right. by apply list_elem_of_fmap_2.
    - by apply prefix_app_r. }
  unfold as_completed_loop, bind.
  pose proof (py_for_preserves (drain_inv futs s) (done_of futs) (on_completed futs) s1) as Hp.
  destruct (py_for (done_of futs) (on_completed futs) s1) as [r s2] eqn:Hfor.
  simpl in Hp. destruct (Hp (fun c t _ => on_completed_inv futs s c t Hfk) Hd)
    as (Hinv2 & _ & Hpre2).
  destruct r as [[]|e]; [|done].
  by destruct (all_completed futs (done_of futs)).
Qed.
End Preservation.

(** ** Outcomes of a round *)

Lemma completions_ok_spec n done :
  completions_ok n done = true <->
  NoDup (map fst done) /\ forall c, c ∈ done -> c.1 < n.
Proof.
  unfold completions_ok. rewrite andb_true_iff, bool_decide_eq_true, forallb_forall.
  setoid_rewrite Nat.ltb_lt. setoid_rewrite <- list_elem_of_In. done.
Qed.

Lemma all_completed_spec futs done :
  all_completed futs done = true <->
  forall j, j < length futs -> j ∈ map fst done.
Proof.
  unfold all_completed. rewrite forallb_forall.
  setoid_rewrite bool_decide_eq_true. setoid_rewrite in_seq. split.
  - intros H j Hj. apply H. lia.
  - intros H j Hj. apply H. lia.
Qed.

(** C19: The exception that ends a round is the deadline of
    [as_completed] or an exception of a probe that the [URLError]/[HTTPError]
    clause does not catch: the round itself raises nothing else, no
    [KeyError] from [url_up[url]] or [future_to_url[future]] included. *)
Theorem round_raise py311 urls done_of s e s' :
  (forall u, u ∈ urls -> u ∈ dict_keys (url_up s)) ->
  let futs := pending_urls urls (url_up s) in
  completions_ok (length futs) (done_of futs) = true ->
  round py311 urls done_of s = (Raise e, s') ->
  e = futures_TimeoutError py311 \/
  exists i, (i, Failed e) ∈ done_of futs /\ matches e [URLError; HTTPError] = false.
Proof.
  intros Hk futs Hok. apply completions_ok_spec in Hok as [_ Hlt].
  unfold round, bind. rewrite submit_each_spec by done. fold futs.
  unfold as_completed_loop, bind.
  destruct (py_for (done_of futs) (on_completed futs) _) as [[[]|e'] s2] eqn:Hfor.
  - destruct (all_completed futs (done_of futs)); [discriminate|]. intros [= <- _]. by left.
  - intros [= -> _]. right.
    apply py_for_raise in Hfor as ([i o] & t & Hin & Hc).
    destruct (lookup_lt_is_Some_2 futs i (Hlt _ Hin)) as [u Hu].
    rewrite (on_completed_spec _ _ _ u) in Hc by done.
    destruct o as [|e0]; [discriminate|].
    destruct (matches e0 _) eqn:Hm; [discriminate|]. simplify_eq. by exists i.
Qed.

(** A drain in which every completed probe opened its URL returns normally
    and leaves up every URL that was up and every URL of a completed
    future. *)
Lemma drain_all_opened futs done s :
  (forall c, c ∈ done -> c.2 = Opened /\ c.1 < length futs) ->
  exists s', py_for done (on_completed futs) s = (Ok tt, s') /\
    (forall u, dict_get u (url_up s) = Some true -> dict_get u (url_up s') = Some true) /\
    (forall i u, i ∈ map fst done -> futs !! i = Some u -> dict_get u (url_up s') = Some true).
Proof.
  revert s. induction done as [|[i o] done IH]; intros s Hdone.
  - exists s. split_and!; [done|done|]. intros i u Hi. by apply elem_of_nil in Hi.
  - destruct (Hdone (i, o) (list_elem_of_here _ _)) as [Ho Hi]. simpl in Ho, Hi. subst o.
    destruct (lookup_lt_is_Some_2 futs i Hi) as [u Hu].
    set (s1 := mk_store (dict_set u true (url_up s)) (events s ++ [EvOk u])).
    destruct (IH s1) as (s' & Hrun & Hmono & Hup).
    { intros c Hc. apply Hdone. by apply list_elem_of_further. }
    exists s'. split_and!.
    + cbn [py_for]. unfold bind at 1. rewrite (on_completed_spec _ _ _ u) by done.
      exact Hrun.
    + intros v Hv. apply Hmono. simpl. rewrite dict_get_set. by case_decide.
    + intros j v Hj Hv. simpl in Hj. apply elem_of_cons in Hj as [->|Hj]; [|by apply (Hup j)].
      simplify_eq. apply Hmono. simpl. apply dict_get_set_eq.
Qed.

(** Outcomes that the [for] body handles without raising. *)
Definition handled (o : urlopen_outcome) : bool :=
  match o with
  | Opened => true
  | Failed e => matches e [URLError; HTTPError]
  end.

(** A drain over completions that all exist and are all handled returns
    normally. *)
Lemma drain_handled futs done s :
  (forall c, c ∈ done -> handled c.2 = true /\ c.1 < length futs) ->
  exists s', py_for done (on_completed futs) s = (Ok tt, s').
Proof.
  revert s. induction done as [|[i o] done IH] using rev_ind; intros s Hdone.
  - by exists s.
  - destruct (Hdone (i, o)) as [Hh Hi]; [apply elem_of_app; right; apply list_elem_of_here|].
    destruct (IH s) as [s1 Hrun].
    { intros c Hc. apply Hdone, elem_of_app. by left. }
    rewrite py_for_app. unfold bind at 1. rewrite Hrun. cbn -[on_completed]. unfold bind.
    destruct (lookup_lt_is_Some_2 futs i Hi) as [u Hu].
    rewrite (on_completed_spec _ _ _ u) by done. simpl in Hh.
    destruct o as [|e]; [by eexists|].
    change (matches e [URLError; HTTPError] = true) in Hh. rewrite Hh. by eexists.
Qed.

(** A round whose completions start with handled outcomes and then an
    unhandled exception raises that exception. *)
Lemma round_first_unhandled py311 urls done_of s pre i ex post :
  (forall u, u ∈ urls -> u ∈ dict_keys (url_up s)) ->
  let futs := pending_urls urls (url_up s) in
  completions_ok (length futs) (done_of futs) = true ->
  done_of futs = pre ++ (i, Failed ex) :: post ->
  (forall c, c ∈ pre -> handled c.2 = true) ->
  handled (Failed ex) = false ->
  exists s', round py311 urls done_of s = (Raise ex, s').
Proof.
  intros Hk futs Hok Hdone Hpre Hex. apply completions_ok_spec in Hok as [_ Hlt].
  unfold round, bind. rewrite submit_each_spec by done. fold futs.
  unfold as_completed_loop, bind. rewrite Hdone, py_for_app.
  set (s1 := mk_store (url_up s) (events s ++ map EvSubmit futs)).
  destruct (drain_handled futs pre s1) as [s2 Hrun].
  { intros c Hc. split; [by apply Hpre|]. apply Hlt. rewrite Hdone.
    apply elem_of_app. by left. }
  unfold bind at 1. rewrite Hrun. cbn -[on_completed]. unfold bind.
  assert (Hi : i < length futs).
  { apply (Hlt (i, Failed ex)). rewrite Hdone. apply elem_of_app. right. apply list_elem_of_here. }
  destruct (lookup_lt_is_Some_2 futs i Hi) as [u Hu].
  rewrite (on_completed_spec _ _ _ u) by done. simpl in Hex.
  change (matches ex [URLError; HTTPError] = false) in Hex. rewrite Hex. by exists s2.
Qed.

(** A round in which every submitted future completes and is retried
    leaves the table as it was. *)
Lemma round_all_retry py311 urls done_of s :
  (forall u, u ∈ urls -> u ∈ dict_keys (url_up s)) ->
  let futs := pending_urls urls (url_up s) in
  completions_ok (length futs) (done_of futs) = true ->
  all_completed futs (done_of futs) = true ->
  (forall c, c ∈ done_of futs -> exists e, c.2 = Failed e /\ handled c.2 = true) ->
  exists s', round py311 urls done_of s = (Ok tt, s') /\ url_up s' = url_up s.
Proof.
  intros Hk futs Hok Hall Hretry. apply completions_ok_spec in Hok as [_ Hlt].
  unfold round, bind. rewrite submit_each_spec by done. fold futs.
  set (s1 := mk_store (url_up s) (events s ++ map EvSubmit futs)).
  destruct (drain_handled futs (done_of futs) s1) as [s2 Hrun].
  { intros c Hc. destruct (Hretry c Hc) as (e & _ & Hh). auto. }
  pose proof (py_for_preserves (fun t => url_up t = url_up s) (done_of futs) (on_completed futs) s1)
    as Hp.
  rewrite Hrun in Hp. simpl in Hp.
  unfold as_completed_loop, bind. rewrite Hrun, Hall. exists s2. split; [done|].
  apply Hp; [|done]. intros [i o] t Hc Ht.
  destruct (lookup_lt_is_Some_2 futs i (Hlt _ Hc)) as [u Hu].
  rewrite (on_completed_spec _ _ _ u) by done.
  destruct (Hretry _ Hc) as (e & He & Hh). simpl in He, Hh. subst o.
  change (matches e [URLError; HTTPError] = true) in Hh. by rewrite Hh.
Qed.

(** A round in which every submitted future completes and opens its URL
    returns normally with every URL of [urls] up. *)
Lemma round_all_opened py311 urls done_of s :
  (forall u, u ∈ urls -> u ∈ dict_keys (url_up s)) ->
  let futs := pending_urls urls (url_up s) in
  completions_ok (length futs) (done_of futs) = true ->
  all_completed futs (done_of futs) = true ->
  (forall c, c ∈ done_of futs -> c.2 = Opened) ->
  exists s', round py311 urls done_of s = (Ok tt, s') /\
    forall u, u ∈ urls -> dict_get u (url_up s') = Some true.
Proof.
  intros Hk futs Hok Hall Hopen. apply completions_ok_spec in Hok as [_ Hlt].
  unfold round, bind. rewrite submit_each_spec by done. fold futs.
  destruct (drain_all_opened futs (done_of futs) (mk_store (url_up s) (events s ++ map EvSubmit futs)))
    as (s' & Hrun & Hmono & Hup); [intros c Hc; split; auto|].
  exists s'. unfold as_completed_loop, bind. rewrite Hrun, Hall. split; [done|].
  intros u Hu. destruct (is_up (url_up s) u) eqn:Hupu.
  - apply Hmono. by apply is_up_true.
  - assert (Hf : u ∈ futs) by (by apply elem_of_pending_urls).
    apply list_elem_of_lookup_1 in Hf as [j Hj].
    apply (Hup j); [|done]. apply (proj1 (all_completed_spec futs (done_of futs)) Hall).
    by eapply lookup_lt_Some.
Qed.

(** A URL whose future the drain has not handled keeps its entry: the
    body only writes the URL of the future it handles, and distinct
    futures of a round whose URLs are distinct name distinct URLs. *)
Lemma drain_keeps_down futs done s i u :
  NoDup futs -> futs !! i = Some u -> i ∉ map fst done ->
  dict_get u (url_up s) = Some false ->
  dict_get u (url_up (py_for done (on_completed futs) s).2) = Some false.
Proof.
  intros Hnd Hi. revert s. induction done as [|[j o] done IH]; intros s Hnot Hu; [done|].
  cbn [map fst] in Hnot. apply not_elem_of_cons in Hnot as [Hij Hnot].
  cbn [py_for]. unfold bind at 1.
  destruct (futs !! j) as [v|] eqn:Hj; [|unfold on_completed; by rewrite Hj].
  assert (Hvu : v <> u) by (intros ->; apply Hij; by eapply NoDup_lookup).
  rewrite (on_completed_spec _ _ _ v) by done.
  destruct o as [|e]; [|destruct (matches e _)]; [| |done]; apply IH; try done.
  simpl. rewrite dict_get_set. by case_decide.
Qed.

Lemma all_completed_false futs done :
  all_completed futs done = false -> exists j, j < length futs /\ j ∉ map fst done.
Proof.
  intros Hall. destruct (decide (Forall (fun j => j ∈ map fst done) (seq 0 (length futs)))) as [HF|HF].
  - exfalso. rewrite <- not_true_iff_false in Hall. apply Hall, all_completed_spec.
    intros j Hj. rewrite Forall_forall in HF. apply HF, elem_of_seq. lia.
  - apply not_Forall_Exists, Exists_exists in HF as (j & Hj & Hn); [|apply _].
    apply elem_of_seq in Hj. exists j. split; [lia|done].
Qed.

(** A round that raises leaves a URL it submitted down, when the URLs
    are distinct: the future the deadline left unfinished, or the one
    whose probe raised. *)
Lemma round_raise_down py311 urls done_of s ex s' :
  NoDup urls -> (forall u, u ∈ urls -> u ∈ dict_keys (url_up s)) ->
  let futs := pending_urls urls (url_up s) in
  completions_ok (length futs) (done_of futs) = true ->
  round py311 urls done_of s = (Raise ex, s') ->
  exists u, u ∈ futs /\ dict_get u (url_up s') = Some false.
Proof.
  intros Hnd Hk futs Hok. apply completions_ok_spec in Hok as [Hndc Hlt].
  assert (Hnf : NoDup futs)
    by (unfold futs, pending_urls; by apply NoDup_ListNoDup, List.NoDup_filter, NoDup_ListNoDup).
  assert (Hdown : forall j u, futs !! j = Some u -> dict_get u (url_up s) = Some false).
  { intros j u Hj. apply (pending_get_false urls); [by eapply list_elem_of_lookup_2|].
    apply Hk. apply (elem_of_pending_urls urls (url_up s) u). by eapply list_elem_of_lookup_2. }
  unfold round, bind. rewrite submit_each_spec by done. fold futs.
  set (s1 := mk_store (url_up s) (events s ++ map EvSubmit futs)).
  unfold as_completed_loop, bind.
  destruct (py_for (done_of futs) (on_completed futs) s1) as [[[]|e'] s2] eqn:Hfor.
  - destruct (all_completed futs (done_of futs)) eqn:Hall; [discriminate|]. intros [= _ <-].
    destruct (all_completed_false _ _ Hall) as (j & Hj & Hnot).
    destruct (lookup_lt_is_Some_2 futs j Hj) as [u Hu].
    exists u. split; [by eapply list_elem_of_lookup_2|].
    pose proof (drain_keeps_down futs (done_of futs) s1 j u Hnf Hu Hnot (Hdown j u Hu)) as Hd.
    by rewrite Hfor in Hd.
  - intros [= -> <-].
    destruct (py_for_raise_split _ _ _ _ _ Hfor) as (pre & [i o] & post & t & Hsplit & Hpre & Hc).
    assert (Hi : i < length futs) by (apply (Hlt (i, o)); rewrite Hsplit; set_solver).
    destruct (lookup_lt_is_Some_2 futs i Hi) as [u Hu].
    exists u. split; [by eapply list_elem_of_lookup_2|].
    rewrite (on_completed_spec _ _ _ u) in Hc by done.
    assert (Ht : s2 = t) by (destruct o as [|e0]; [|destruct (matches e0 _)]; congruence).
    subst s2.
    assert (Hnot : i ∉ map fst pre).
    { rewrite Hsplit, map_app in Hndc. cbn [map fst] in Hndc.
      intros Hin. apply NoDup_app in Hndc as (_ & Hdis & _). apply (Hdis i Hin), list_elem_of_here. }
    pose proof (drain_keeps_down futs pre s1 i u Hnf Hu Hnot (Hdown i u Hu)) as Hd.
    by rewrite Hpre in Hd.
Qed.

(** ** Properties *)

(** C23: The submission comprehension iterates over [urls], not over the
    table: a URL that is down gets one future per occurrence in [urls], so
    a URL listed twice is probed twice in the same round. *)
Theorem submit_each_occurrences urls s u :
  (forall v, v ∈ urls -> v ∈ dict_keys (url_up s)) ->
  dict_get u (url_up s) = Some false ->
  exists futs, fst (submit_each urls s) = Ok futs /\
    length (List.filter (fun v => bool_decide (v = u)) futs) =
    length (List.filter (fun v => bool_decide (v = u)) urls).
Proof.
  intros Hk Hu. rewrite submit_each_spec by done. eexists. split; [done|].
  assert (Hdown : is_up (url_up s) u = false) by (unfold is_up; by rewrite Hu).
  clear Hk. induction urls as [|v vs IH]; [done|].
  rewrite pending_urls_cons. simpl.
  destruct (bool_decide (v = u)) eqn:Hvu.
  - apply bool_decide_eq_true in Hvu. subst v. rewrite Hdown. simpl.
    rewrite bool_decide_eq_true_2 by done. simpl. by rewrite IH.
  - destruct (is_up (url_up s) v); simpl; [done|]. by rewrite Hvu.
Qed.

Lemma round_raise_witness :
  round true ["A"] (fun _ => [(0%nat, Failed RemoteDisconnected)])
    (mk_store (dict_from_keys ["A"] false) []) =
    (Raise RemoteDisconnected, mk_store [("A", false)] [EvSubmit "A"]) /\
  (RemoteDisconnected = futures_TimeoutError true \/
   exists i, (i, Failed RemoteDisconnected) ∈ [(0%nat, Failed RemoteDisconnected)] /\
             matches RemoteDisconnected [URLError; HTTPError] = false).
Proof.
  assert (Hr : round true ["A"] (fun _ => [(0%nat, Failed RemoteDisconnected)])
    (mk_store (dict_from_keys ["A"] false) []) =
    (Raise RemoteDisconnected, mk_store [("A", false)] [EvSubmit "A"])) by (vm_compute; reflexivity).
  split; [exact Hr|].
  apply (round_raise true ["A"] (fun _ => [(0%nat, Failed RemoteDisconnected)])
    (mk_store (dict_from_keys ["A"] false) []) RemoteDisconnected
    (mk_store [("A", false)] [EvSubmit "A"])).
  - intros v Hv. by apply dict_from_keys_keys.
  - vm_compute. reflexivity.
  - exact Hr.
Defined.

Lemma submit_each_occurrences_witness :
  (forall v, v ∈ ["A"; "A"] -> v ∈ dict_keys (url_up (mk_store (dict_from_keys ["A"; "A"] false) []))) /\
  dict_get "A" (url_up (mk_store (dict_from_keys ["A"; "A"] false) [])) = Some false /\
  fst (submit_each ["A"; "A"] (mk_store (dict_from_keys ["A"; "A"] false) [])) = Ok ["A"; "A"].
Proof.
  assert (Hk : forall v, v ∈ ["A"; "A"] ->
    v ∈ dict_keys (url_up (mk_store (dict_from_keys ["A"; "A"] false) []))).
  { intros v Hv. by apply dict_from_keys_keys. }
  assert (Hg : dict_get "A" (url_up (mk_store (dict_from_keys ["A"; "A"] false) [])) = Some false)
    by (vm_compute; reflexivity).
  split; [exact Hk|]. split; [exact Hg|].
  destruct (submit_each_occurrences _ _ "A" Hk Hg) as (futs & Hf & _).
  vm_compute. reflexivity.
Defined.

End Round.
