(* ===== verification/Poller.v ===== *)
(** The polling session [i_can_has_threaded_connection]
    (src/wait_for_connection.py, lines 80-142).

    [loop_body_at] is one pass of the [while True] body (lines 99-128) at a
    given clock reading; [run_loop] iterates it on fuel; [finish] is what
    follows the loop: the three [except] clauses of lines 130-138 and the
    failure count of lines 140-142; [i_can_has_threaded_connection] adds
    the pool-size default of lines 86-88 and the [ThreadPoolExecutor]
    check.  [loop_step] is the same loop as a step relation over all clock
    readings and all completion orders; its reachable configurations carry
    the invariants. *)

From stdpp Require Import base list sets strings relations.
From Stdlib Require Import ZArith Lia.
From S2P Require Import Prelude PyExc PyDict UrlState ReturnCode Round.
Import PyExc PyDict UrlState ReturnCode Round.
Local Open Scope wfc_scope.

Module Poller.

(** The environment of a session: the readings of [time.time()] (reading
    0 is [start], reading [k + 1] the one at the top of iteration [k]) and,
    for iteration [k], the futures that complete given the submitted URLs. *)
Record env := mk_env {
  clock : nat -> Z;
  completions : nat -> list url -> list (nat * urlopen_outcome)
}.

(** [as_completed] only yields submitted futures, each once. *)
Definition env_wf (e : env) : Prop :=
  forall k futs, completions_ok (length futs) (completions e k futs) = true.

(** How the loop is left without an exception: [return 0] or [break]. *)
Inductive loop_exit := Return0 | Break.

#[export] Instance loop_exit_eq_dec : EqDecision loop_exit.
Proof. solve_decision. Defined.

(** [time_left = timeout - (time.time() - start)] *)
Definition time_left (timeout start now : Z) : Z := timeout - (now - start).

(** A record appended to the trace. *)
Abbreviation add_event s ev := (mk_store (url_up s) (events s ++ [ev])).

Section Session.
Context (py311 : bool) (urls : list url) (timeout : Z).

(** One iteration (lines 100-128): the clock reading and its debug line,
    the clock check, the round, the [check_failed] test.  [None]
    continues the loop. *)
Definition loop_body_at (start now : Z)
    (done_of : list url -> list (nat * urlopen_outcome)) : PyM store (option loop_exit) :=
  log (EvTimeLeft (time_left timeout start now)) ;;
  if (time_left timeout start now <? 0)%Z then log EvTimeout ;; ret (Some Break)
  else
    round py311 urls done_of ;;
    s <- get ;;
    match check_failed (url_up s) with
    | [] => log EvAllOk ;; ret (Some Return0)
    | _ :: _ => ret None
    end.

Definition loop_body (e : env) (k : nat) : PyM store (option loop_exit) :=
  loop_body_at (clock e 0) (clock e (S k)) (completions e k).

(** The [while True] loop, one unit of fuel per iteration; [None] when the
    fuel runs out. *)
Fixpoint run_loop (e : env) (fuel k : nat) (s : store) : option (result loop_exit * store) :=
  match fuel with
  | O => None
  | S fuel' =>
      match loop_body e k s with
      | (Ok None, s') => run_loop e fuel' (S k) s'
      | (Ok (Some x), s') => Some (Ok x, s')
      | (Raise ex, s') => Some (Raise ex, s')
      end
  end.

(** Lines 140-142: [failed = check_failed(url_up)], its error line, and
    the count. *)
Definition fail_count : PyM store Z :=
  s <- get ;;
  log (EvFail (check_failed (url_up s))) ;;
  ret (fail_code (check_failed (url_up s))).

(** After the loop: the handlers of lines 130-138 in their order, each
    with its log line, and lines 140-142. *)
Definition finish (r : result loop_exit) : PyM store Z :=
  match r with
  | Ok Return0 => ret 0%Z
  | Ok Break => fail_count
  | Raise ex =>
      if issubclass ex (futures_TimeoutError py311) then log (EvExecTimeout ex) ;; fail_count
      else if issubclass ex ValueError then log (EvInvalid ex) ;; ret INVALID_URL_CODE
      else if issubclass ex Exception then log (EvUnexpected ex) ;; ret UNEXPECTED_CODE
      else raise ex
  end.

(** Lines 86-88: [if not threads: threads = len(urls)] and its debug
    line; [None] and [0] are falsy.  The pool size and the records
    logged. *)
Definition default_threads (threads : option Z) : Z * list event :=
  match threads with
  | Some t => if (t =? 0)%Z then (Z.of_nat (length urls), [EvThreads (Z.of_nat (length urls))])
              else (t, [])
  | None => (Z.of_nat (length urls), [EvThreads (Z.of_nat (length urls))])
  end.

Definition pool_size (threads : option Z) : Z := fst (default_threads threads).

(** The store before the loop: [url_up = {u: False for u in urls}]
    (line 94) and the trace of lines 86-88. *)
Definition init_store (threads : option Z) : store :=
  mk_store (init_url_up urls) (snd (default_threads threads)).

(** The session.  [ThreadPoolExecutor(max_workers=threads)] raises
    [ValueError] for [threads <= 0], outside the [try] (line 96). *)
Definition i_can_has_threaded_connection (e : env) (fuel : nat) (threads : option Z)
    : option (result Z * store) :=
  if (pool_size threads <=? 0)%Z then Some (Raise ValueError, init_store threads)
  else match run_loop e fuel 0 (init_store threads) with
       | None => None
       | Some (r, s) => Some (finish r s)
       end.

(** ** The loop as a step relation *)

Inductive conf :=
| Running (k : nat) (s : store)
| Exited (r : result loop_exit) (s : store).

Definition conf_store (c : conf) : store :=
  match c with Running _ s | Exited _ s => s end.

Definition after (k : nat) (res : result (option loop_exit) * store) : conf :=
  match res with
  | (Ok None, s') => Running (S k) s'
  | (Ok (Some x), s') => Exited (Ok x) s'
  | (Raise ex, s') => Exited (Raise ex) s'
  end.

(** An iteration at any clock reading with any completions that
    [as_completed] can yield for the submitted futures. *)
Inductive loop_step (start : Z) : conf -> conf -> Prop :=
| loop_step_intro k s now done_of :
    completions_ok (length (pending_urls urls (url_up s)))
                   (done_of (pending_urls urls (url_up s))) = true ->
    loop_step start (Running k s) (after k (loop_body_at start now done_of s)).

Definition reachable (start : Z) (threads : option Z) (c : conf) : Prop :=
  rtc (loop_step start) (Running 0 (init_store threads)) c.
End Session.

(** ** Networks in which every submitted future completes *)

(** The completions when the futures complete in submission order, the
    [j]-th and following ones with the outcome [f u] of their URL. *)
Fixpoint complete_from (j : nat) (f : url -> urlopen_outcome) (futs : list url)
    : list (nat * urlopen_outcome) :=
  match futs with
  | [] => []
  | u :: us => (j, f u) :: complete_from (S j) f us
  end.

Definition all_complete (f : nat -> url -> urlopen_outcome) (k : nat) (futs : list url)
    : list (nat * urlopen_outcome) :=
  complete_from 0 (f k) futs.

Lemma complete_from_fst j f futs : map fst (complete_from j f futs) = seq j (length futs).
Proof. revert j. induction futs as [|u us IH]; intros j; simpl; [done|]. by rewrite IH. Qed.

Lemma complete_from_elem j f futs c :
  c ∈ complete_from j f futs -> exists u, u ∈ futs /\ c.2 = f u.
Proof.
  revert j. induction futs as [|u us IH]; intros j; simpl.
  - intros Hc. by apply elem_of_nil in Hc.
  - intros [->|Hc]%elem_of_cons; [exists u; split; [apply list_elem_of_here|done]|].
    destruct (IH (S j) Hc) as (v & Hv & Ho). exists v. split; [by apply list_elem_of_further|done].
Qed.

Lemma all_complete_ok f k futs : completions_ok (length futs) (all_complete f k futs) = true.
Proof.
  apply completions_ok_spec. unfold all_complete. rewrite complete_from_fst.
  split; [apply NoDup_seq|]. intros c Hc.
  assert (Hin : c.1 ∈ map fst (complete_from 0 (f k) futs)).
  { apply list_elem_of_fmap_2 with (f := fst) in Hc. done. }
  rewrite complete_from_fst, elem_of_seq in Hin. lia.
Qed.

Lemma all_complete_all f k futs : all_completed futs (all_complete f k futs) = true.
Proof.
  apply all_completed_spec. intros j Hj. unfold all_complete.
  rewrite complete_from_fst, elem_of_seq. lia.
Qed.

Lemma all_complete_wf clk f : env_wf (mk_env clk (all_complete f)).
Proof. intros k futs. apply all_complete_ok. Qed.

(** ** Invariants of the loop *)

Section LoopFacts.
Context (py311 : bool) (urls : list url) (timeout : Z).

Abbreviation keys0 := (dict_keys (init_url_up urls)).

Lemma urls_in_keys u : u ∈ urls -> u ∈ keys0.
Proof. by rewrite init_url_up_keys. Qed.

(** A table just built, with a trace of records that are neither
    submissions nor results. *)
Lemma quiet_store_inv evs :
  Forall (fun ev => quiet ev = true) evs -> store_inv keys0 (mk_store (init_url_up urls) evs).
Proof.
  intros Hq. apply (inv_log_quiets keys0 (mk_store (init_url_up urls) [])); [done|].
  split; cbn [url_up events]; [done|apply init_url_up_wf| | |].
  - intros u. cbn [url_up events]. rewrite init_url_up_get.
    split; [by intros Hin; apply elem_of_nil in Hin|]. by case_decide.
  - intros pre e post Heq. by destruct pre.
  - intros pre e post Heq. by destruct pre.
Qed.

Lemma init_store_inv threads : store_inv keys0 (init_store urls threads).
Proof.
  apply quiet_store_inv. unfold default_threads.
  destruct threads as [t|]; [destruct (t =? 0)%Z|]; repeat constructor.
Qed.

(** The iteration, unfolded: the clock's debug line, the clock check,
    then the round's result and store, with the [check_failed] test on
    that store. *)
Lemma loop_body_at_spec start now done_of s :
  loop_body_at py311 urls timeout start now done_of s =
  if (time_left timeout start now <? 0)%Z
  then (Ok (Some Break), add_event (add_event s (EvTimeLeft (time_left timeout start now))) EvTimeout)
  else match round py311 urls done_of (add_event s (EvTimeLeft (time_left timeout start now))) with
       | (Ok _, s1) =>
           match check_failed (url_up s1) with
           | [] => (Ok (Some Return0), add_event s1 EvAllOk)
           | _ :: _ => (Ok None, s1)
           end
       | (Raise ex, s1) => (Raise ex, s1)
       end.
Proof.
  unfold loop_body_at, bind at 1. cbn [log modify]. destruct (_ <? 0)%Z; [done|].
  unfold bind, get, ret. destruct (round _ _ _ _) as [[[]|ex] s1]; [|done].
  by destruct (check_failed (url_up s1)).
Qed.

Lemma loop_body_at_inv start now done_of s :
  store_inv keys0 s ->
  store_inv keys0 (snd (loop_body_at py311 urls timeout start now done_of s)).
Proof.
  intros Hinv. rewrite loop_body_at_spec.
  pose proof (inv_log_quiet keys0 s (EvTimeLeft (time_left timeout start now)) eq_refl Hinv) as Hinv0.
  destruct (_ <? 0)%Z; [by apply inv_log_quiet|].
  destruct (round_inv keys0 py311 urls done_of _ Hinv0 urls_in_keys) as [Hinv' _].
  destruct (round _ _ _ _) as [[[]|ex] s1]; [|done].
  destruct (check_failed (url_up s1)); [by apply inv_log_quiet|done].
Qed.

(** C3: Every configuration the loop reaches, at any clock readings and
    in any completion order, satisfies the store invariant: the table's
    keys are the distinct URLs, a URL is [True] exactly when it was
    logged OK, no URL is submitted after its OK, and every OK or RETRY
    follows a submission of its URL. *)
Theorem reachable_store_inv start threads c :
  reachable py311 urls timeout start threads c -> store_inv keys0 (conf_store c).
Proof.
  unfold reachable. revert c.
  apply (rtc_ind_r (fun c => store_inv keys0 (conf_store c))).
  - apply init_store_inv.
  - intros y z _ Hstep IH. inversion Hstep as [k s now done_of Hok]; subst.
    pose proof (loop_body_at_inv start now done_of s IH) as Hinv.
    destruct (loop_body_at _ _ _ _ _ _ s) as [[[x'|]|ex] s'] eqn:E; simpl in *; done.
Qed.

(** The executable loop refines the step relation: run against a
    well-formed environment, each of its runs is a path of [loop_step]
    from its starting configuration to its exit. *)
Lemma run_loop_steps e fuel k s r s' :
  env_wf e ->
  run_loop py311 urls timeout e fuel k s = Some (r, s') ->
  rtc (loop_step py311 urls timeout (clock e 0)) (Running k s) (Exited r s').
Proof.
  intros Hwf. revert k s. induction fuel as [|fuel IH]; intros k s; simpl; [discriminate|].
  assert (Hstep : loop_step py311 urls timeout (clock e 0) (Running k s)
                    (after k (loop_body py311 urls timeout e k s))) by (constructor; apply Hwf).
  unfold loop_body in *.
  destruct (loop_body_at _ _ _ _ _ _ s) as [[[x|]|ex] s1] eqn:E; simpl in Hstep.
  - intros [= <- <-]. by apply rtc_once.
  - intros Hrun. eapply rtc_l; [exact Hstep|]. by apply IH.
  - intros [= <- <-]. by apply rtc_once.
Qed.

(** The executable loop keeps the invariant, and leaves through
    [return 0] only with every entry of [url_up] [True]. *)
Lemma run_loop_exit e fuel k s r s' :
  store_inv keys0 s ->
  run_loop py311 urls timeout e fuel k s = Some (r, s') ->
  store_inv keys0 s' /\ (r = Ok Return0 -> check_failed (url_up s') = []).
Proof.
  revert k s. induction fuel as [|fuel IH]; intros k s Hinv; simpl; [discriminate|].
  unfold loop_body. pose proof (loop_body_at_inv (clock e 0) (clock e (S k)) (completions e k) s Hinv) as Hinv'.
  rewrite loop_body_at_spec in Hinv' |- *. destruct (_ <? 0)%Z.
  - intros [= <- <-]. split; [done|discriminate].
  - destruct (round _ _ _ _) as [[[]|ex] s1]; simpl in Hinv'.
    + destruct (check_failed (url_up s1)) eqn:Hcf; [intros [= <- <-]; done|].
      apply IH, Hinv'.
    + intros [= <- <-]. split; [done|discriminate].
Qed.
End LoopFacts.

(** ** The session *)

Section SessionFacts.
Context (py311 : bool) (urls : list url) (timeout : Z).

Abbreviation keys0 := (dict_keys (init_url_up urls)).

(** Under the invariant, [check_failed] lists exactly the URLs never
    logged OK. *)
Lemma check_failed_inv s u :
  store_inv keys0 s ->
  u ∈ check_failed (url_up s) <-> u ∈ urls /\ EvOk u ∉ events s.
Proof.
  intros [Hk Hnd Hok _ _].
  rewrite elem_of_check_failed by (unfold dict_wf; by rewrite Hk).
  rewrite (Hok u), <- init_url_up_keys, <- Hk, <- dict_get_is_Some.
  destruct (dict_get u (url_up s)) as [[]|]; naive_solver.
Qed.

Lemma keys0_length : length keys0 <= length urls.
Proof.
  apply NoDup_incl_length_le; [apply init_url_up_wf|].
  intros u. apply init_url_up_keys.
Qed.

(** The handlers only log: they keep the table and add records that are
    neither submissions nor results. *)
Lemma finish_frame r s :
  url_up (finish py311 r s).2 = url_up s /\
  exists l, events (finish py311 r s).2 = events s ++ l /\ Forall (fun ev => quiet ev = true) l.
Proof.
  unfold finish, fail_count, bind, get, log, modify, ret, raise.
  destruct r as [[]|ex]; cbn [fst snd url_up events].
  - split; [done|]. exists []. by rewrite app_nil_r.
  - split; [done|]. eexists. split; [reflexivity|]. by repeat constructor.
  - destruct (issubclass ex _); cbn [fst snd url_up events].
    { split; [done|]. eexists. rewrite <- app_assoc. split; [reflexivity|]. by repeat constructor. }
    destruct (issubclass ex ValueError); cbn [fst snd url_up events].
    { split; [done|]. eexists. split; [reflexivity|]. by repeat constructor. }
    destruct (issubclass ex Exception); cbn [fst snd url_up events].
    { split; [done|]. eexists. split; [reflexivity|]. by repeat constructor. }
    split; [done|]. exists []. by rewrite app_nil_r.
Qed.

Lemma finish_inv r s : store_inv keys0 s -> store_inv keys0 (finish py311 r s).2.
Proof.
  intros Hinv. destruct (finish_frame r s) as (Hup & l & Hev & Hq).
  destruct (finish py311 r s) as [res s']. simpl in *.
  replace s' with (mk_store (url_up s) (events s ++ l)) by (destruct s'; simpl in *; by subst).
  by apply inv_log_quiets.
Qed.

(** A session ends either in the pool-size check or in the handlers
    after an exit of the loop. *)
Lemma session_exit e fuel threads res s :
  i_can_has_threaded_connection py311 urls timeout e fuel threads = Some (res, s) ->
  ((pool_size urls threads <= 0)%Z /\ res = Raise ValueError /\ s = init_store urls threads) \/
  exists r s1, run_loop py311 urls timeout e fuel 0 (init_store urls threads) = Some (r, s1) /\
               finish py311 r s1 = (res, s).
Proof.
  unfold i_can_has_threaded_connection.
  destruct (pool_size urls threads <=? 0)%Z eqn:Hp.
  - intros [= <- <-]. left. apply Z.leb_le in Hp. auto.
  - destruct (run_loop _ _ _ e fuel 0 _) as [[r s']|] eqn:Hrun; [|discriminate].
    intros [= Hf]. right. by exists r, s'.
Qed.

Lemma session_store_inv e fuel threads res s :
  i_can_has_threaded_connection py311 urls timeout e fuel threads = Some (res, s) -> store_inv keys0 s.
Proof.
  intros Hs. destruct (session_exit e fuel threads res s Hs)
    as [(_ & _ & ->)|(r & s1 & Hrun & Hfin)]; [apply init_store_inv|].
  pose proof (finish_inv r s1) as Hinv. rewrite Hfin in Hinv. apply Hinv.
  exact (proj1 (run_loop_exit py311 urls timeout e fuel 0 _ r s1 (init_store_inv _ _) Hrun)).
Qed.

(** What a session returns normally: one of the two error codes, or the
    failure count of its final table. *)
Lemma session_ok_cases e fuel threads c s :
  i_can_has_threaded_connection py311 urls timeout e fuel threads = Some (Ok c, s) ->
  c = INVALID_URL_CODE \/ c = UNEXPECTED_CODE \/ c = fail_code (check_failed (url_up s)).
Proof.
  intros Hs. destruct (session_exit e fuel threads _ s Hs) as [(_ & ? & _)|(r & s1 & Hrun & Hfin)];
    [discriminate|].
  destruct (run_loop_exit py311 urls timeout e fuel 0 _ r s1 (init_store_inv _ _) Hrun) as [_ H0].
  pose proof (proj1 (finish_frame r s1)) as Hup. rewrite Hfin in Hup. simpl in Hup. rewrite Hup.
  revert Hfin. unfold finish, fail_count, bind, get, log, modify, ret, raise.
  destruct r as [[]|ex]; cbn [fst snd url_up events].
  - intros [= <- _]. right; right. by rewrite (H0 eq_refl).
  - intros [= <- _]. auto.
  - destruct (issubclass ex _); cbn [fst snd]; [intros [= <- _]; auto|].
    destruct (issubclass ex ValueError); cbn [fst snd]; [intros [= <- _]; auto|].
    destruct (issubclass ex Exception); cbn [fst snd]; [intros [= <- _]; auto|discriminate].
Qed.

Lemma all_up_check_failed_nil s :
  store_inv keys0 s -> (forall u, u ∈ urls -> dict_get u (url_up s) = Some true) ->
  check_failed (url_up s) = [].
Proof.
  intros Hinv Hup. apply check_failed_nil_iff. intros u b Hin.
  assert (Hwf : dict_wf (url_up s)) by (unfold dict_wf; rewrite (inv_keys _ _ Hinv); apply init_url_up_wf).
  assert (Hu : u ∈ urls).
  { apply init_url_up_keys. rewrite <- (inv_keys _ _ Hinv).
    apply list_elem_of_fmap. by exists (u, b). }
  pose proof (dict_wf_get_pair _ u b Hwf Hin) as Hb. rewrite (Hup u Hu) in Hb. congruence.
Qed.

(** The session's first iteration when the pool is valid and the first
    clock check passes. *)
Lemma session_first_round e fuel threads :
  (0 < pool_size urls threads)%Z ->
  (0 <= time_left timeout (clock e 0) (clock e 1))%Z ->
  i_can_has_threaded_connection py311 urls timeout e (S fuel) threads =
    match round py311 urls (completions e 0)
            (add_event (init_store urls threads) (EvTimeLeft (time_left timeout (clock e 0) (clock e 1)))) with
    | (Ok _, s1) =>
        match check_failed (url_up s1) with
        | [] => Some (finish py311 (Ok Return0) (add_event s1 EvAllOk))
        | _ :: _ =>
            match run_loop py311 urls timeout e fuel 1 s1 with
            | None => None
            | Some (r, s) => Some (finish py311 r s)
            end
        end
    | (Raise ex, s1) => Some (finish py311 (Raise ex) s1)
    end.
Proof.
  intros Hp Ht. unfold i_can_has_threaded_connection.
  replace (pool_size urls threads <=? 0)%Z with false by (symmetry; apply Z.leb_gt; lia).
  simpl. unfold loop_body. rewrite loop_body_at_spec.
  replace (time_left timeout (clock e 0) (clock e 1) <? 0)%Z with false
    by (symmetry; apply Z.ltb_ge; lia).
  destruct (round _ _ _ _) as [[[]|ex] s1]; [|done].
  by destruct (check_failed (url_up s1)).
Qed.

Lemma first_store_inv e threads :
  store_inv keys0 (add_event (init_store urls threads) (EvTimeLeft (time_left timeout (clock e 0) (clock e 1)))).
Proof. apply inv_log_quiet; [done|apply init_store_inv]. Qed.

Lemma run_loop_fuel_mono e fuel k s r m :
  run_loop py311 urls timeout e fuel k s = Some r ->
  run_loop py311 urls timeout e (fuel + m) k s = Some r.
Proof.
  revert k s. induction fuel as [|fuel IH]; intros k s; simpl; [discriminate|].
  destruct (loop_body _ _ _ e k s) as [[[x|]|ex] s1]; [done| |done]. apply IH.
Qed.

(** A clock that advances at every reading advances by at least one tick
    per reading. *)
Lemma clock_lower (clk : nat -> Z) :
  (forall j, (clk j < clk (S j))%Z) -> forall j, (clk O + Z.of_nat j <= clk j)%Z.
Proof.
  intros Hclk j. induction j as [|j IH]; [simpl; lia|].
  specialize (Hclk j). lia.
Qed.

(** With such a clock the loop exits by iteration [Z.to_nat timeout]. *)
Lemma run_loop_some e fuel k s :
  (forall j, (clock e j < clock e (S j))%Z) ->
  (k <= Z.to_nat timeout)%nat -> (Z.to_nat timeout < k + fuel)%nat ->
  is_Some (run_loop py311 urls timeout e fuel k s).
Proof.
  intros Hclk. revert k s. induction fuel as [|fuel IH]; intros k s Hk Hf; [lia|].
  simpl. unfold loop_body. rewrite loop_body_at_spec.
  destruct (time_left timeout (clock e 0) (clock e (S k)) <? 0)%Z eqn:Ht; [by eexists|].
  apply Z.ltb_ge in Ht. unfold time_left in Ht.
  pose proof (clock_lower (clock e) Hclk (S k)) as Hlow.
  destruct (round py311 urls _ _) as [[[]|ex] s1]; [|by eexists].
  destruct (check_failed (url_up s1)); [by eexists|]. apply IH; lia.
Qed.
(** With URLs, the first table has every URL down. *)
Lemma init_check_failed_ne : urls <> [] -> check_failed (init_url_up urls) <> [].
Proof.
  destruct urls as [|u us]; [done|]. intros _ Hnil.
  assert (Hu : u ∈ check_failed (init_url_up (u :: us))).
  { apply elem_of_check_failed; [apply init_url_up_wf|].
    rewrite init_url_up_get. case_decide as Hin; [done|]. destruct Hin. apply list_elem_of_here. }
  rewrite Hnil in Hu. by apply elem_of_nil in Hu.
Qed.

Lemma store_dict_wf s : store_inv keys0 s -> dict_wf (url_up s).
Proof. intros Hinv. unfold dict_wf. rewrite (inv_keys _ _ Hinv). apply (inv_nodup _ _ Hinv). Qed.

(** With distinct URLs, the loop leaves other than by [return 0] only
    with a URL down: [break] changes no entry, and a round that raises
    leaves one of its URLs down ([round_raise_down]). *)
Lemma run_loop_down e fuel k s r s' :
  NoDup urls -> env_wf e -> store_inv keys0 s -> check_failed (url_up s) <> [] ->
  run_loop py311 urls timeout e fuel k s = Some (r, s') -> r <> Ok Return0 ->
  check_failed (url_up s') <> [].
Proof.
  intros Hnd Hwf. revert k s. induction fuel as [|fuel IH]; intros k s Hinv Hne; simpl; [discriminate|].
  unfold loop_body. rewrite loop_body_at_spec. destruct (_ <? 0)%Z; [by intros [= <- <-]|].
  set (s0 := add_event s (EvTimeLeft (time_left timeout (clock e 0) (clock e (S k))))).
  assert (Hinv0 : store_inv keys0 s0) by (by apply inv_log_quiet).
  destruct (round_inv keys0 py311 urls (completions e k) s0 Hinv0 (urls_in_keys urls)) as [Hinv1 _].
  destruct (round py311 urls (completions e k) s0) as [[[]|ex] s1] eqn:Hr; simpl in Hinv1.
  - destruct (check_failed (url_up s1)) eqn:Hcf; [intros [= <- <-] Hr0; by destruct Hr0|].
    intros Hrun. apply (IH (S k) s1 Hinv1); [by rewrite Hcf|exact Hrun].
  - intros [= <- <-] _.
    assert (Hk : forall u, u ∈ urls -> u ∈ dict_keys (url_up s0))
      by (intros u Hu; rewrite (inv_keys _ _ Hinv0); by apply (urls_in_keys urls)).
    destruct (round_raise_down py311 urls (completions e k) s0 ex s1 Hnd Hk (Hwf k _) Hr) as (u & _ & Hu).
    apply (elem_of_check_failed u _ (store_dict_wf _ Hinv1)) in Hu.
    intros Hnil. rewrite Hnil in Hu. by apply elem_of_nil in Hu.
Qed.
End SessionFacts.

(** ** Properties of the session *)

Section Properties.
Context (py311 : bool) (urls : list url) (timeout : Z).


(** C1: Success is sound: when the session returns 0, every URL was
    logged OK after a successful probe and is up in [url_up]. *)
Theorem session_success_sound e fuel threads s :
  i_can_has_threaded_connection py311 urls timeout e fuel threads = Some (Ok 0%Z, s) ->
  forall u, u ∈ urls -> EvOk u ∈ events s /\ dict_get u (url_up s) = Some true.
Proof.
  intros Hs u Hu.
  pose proof (session_store_inv py311 urls timeout e fuel threads _ s Hs) as Hinv.
  assert (Hcf : check_failed (url_up s) = []).
  { destruct (session_ok_cases py311 urls timeout e fuel threads _ s Hs) as [Hc|[Hc|Hc]];
      [unfold INVALID_URL_CODE in Hc; lia|unfold UNEXPECTED_CODE in Hc; lia|].
    symmetry in Hc. by apply fail_code_zero in Hc. }
  assert (Hok : EvOk u ∈ events s).
  { destruct (decide (EvOk u ∈ events s)) as [|Hn]; [done|].
    assert (Hin : u ∈ check_failed (url_up s)) by (by apply (check_failed_inv urls)).
    rewrite Hcf in Hin. by apply elem_of_nil in Hin. }
  split; [done|]. by apply (inv_ok_logged _ _ Hinv).
Qed.

(** C2: The session's return value: -2, -3, or the failure count of
    line 142, computed from a list that holds exactly the URLs never
    logged OK. *)
Theorem session_result e fuel threads c s :
  i_can_has_threaded_connection py311 urls timeout e fuel threads = Some (Ok c, s) ->
  c = INVALID_URL_CODE \/ c = UNEXPECTED_CODE \/
  (c = fail_code (check_failed (url_up s)) /\
   forall u, u ∈ check_failed (url_up s) <-> u ∈ urls /\ EvOk u ∉ events s).
Proof.
  intros Hs. pose proof (session_store_inv py311 urls timeout e fuel threads _ s Hs) as Hinv.
  destruct (session_ok_cases py311 urls timeout e fuel threads c s Hs) as [?|[?|Hc]]; auto.
  right; right. split; [done|]. intros u. by apply check_failed_inv.
Qed.

(** C6: The saturation of line 142 against the module docstring: when
    the session returns the failure count (any code but -2 and -3), the
    code is the number of URLs left down below 126 and -1 from 126 on,
    so it lies in the range 1-125 or is -1, as section 6 of the
    specification lists the codes.  The module docstring (lines 23-27)
    promises -1 only above 126: the code and the docstring differ
    exactly when 126 URLs are left down, where the code returns -1 and
    the docstring 126. *)
Theorem session_count_vs_docstring e fuel threads c s :
  i_can_has_threaded_connection py311 urls timeout e fuel threads = Some (Ok c, s) ->
  c <> INVALID_URL_CODE -> c <> UNEXPECTED_CODE ->
  c = fail_code (check_failed (url_up s)) /\ (c = -1 \/ 0 <= c <= 125)%Z /\
  (c = docstring_code (length (check_failed (url_up s))) <-> length (check_failed (url_up s)) <> 126%nat).
Proof.
  intros Hs Hinv Hunexp.
  destruct (session_ok_cases py311 urls timeout e fuel threads c s Hs) as [H2 | [H3 | ->]]; [done|done|].
  split; [done|]. split; [|apply fail_code_docstring].
  pose proof (fail_code_cases (check_failed (url_up s))) as Hc. unfold FAIL_CAP in Hc. lia.
Qed.

(** C4: No URL is probed again after it was reached: in the final trace
    no submission of a URL follows its OK line. *)
Theorem session_no_resubmit e fuel threads res s :
  i_can_has_threaded_connection py311 urls timeout e fuel threads = Some (res, s) ->
  forall pre u post, events s = pre ++ EvOk u :: post -> EvSubmit u ∉ post.
Proof.
  intros Hs pre u post Heq.
  pose proof (session_store_inv py311 urls timeout e fuel threads _ s Hs) as Hinv.
  exact (inv_no_resubmit _ _ Hinv pre (EvOk u) post Heq u eq_refl).
Qed.

(** C20: The session raises instead of returning only when the pool size
    is not positive ([ThreadPoolExecutor] raises [ValueError] outside
    the [try]) or when a probe raised an exception that is not an
    [Exception], such as [KeyboardInterrupt]. *)
Theorem session_raise e fuel threads ex s :
  i_can_has_threaded_connection py311 urls timeout e fuel threads = Some (Raise ex, s) ->
  ((pool_size urls threads <= 0)%Z /\ ex = ValueError) \/ issubclass ex Exception = false.
Proof.
  intros Hs. destruct (session_exit py311 urls timeout e fuel threads _ s Hs)
    as [(Hp & Heq & _)|(r & s1 & _ & Hfin)]; [injection Heq as ->; by left|right].
  revert Hfin. unfold finish, fail_count, bind, get, log, modify, ret, raise.
  destruct r as [[]|ex']; cbn [fst snd]; [discriminate|discriminate|].
  destruct (issubclass ex' _); [discriminate|].
  destruct (issubclass ex' ValueError); [discriminate|].
  destruct (issubclass ex' Exception) eqn:He; [discriminate|]. by intros [= -> _].
Qed.

(** C5: The session returns when the clock advances at every reading:
    [Z.to_nat timeout + 1] iterations of fuel are enough. *)
Theorem session_terminates e threads :
  (forall j, (clock e j < clock e (S j))%Z) ->
  is_Some (i_can_has_threaded_connection py311 urls timeout e (S (Z.to_nat timeout)) threads).
Proof.
  intros Hclk. unfold i_can_has_threaded_connection.
  destruct (pool_size urls threads <=? 0)%Z; [by eexists|].
  destruct (run_loop_some py311 urls timeout e (S (Z.to_nat timeout)) 0 (init_store urls threads) Hclk)
    as [[r s] Hrun]; [lia|lia|].
  rewrite Hrun. by eexists.
Qed.

(** More fuel does not change a session's result: once the model
    returns, it returns the same result for any larger fuel. *)
Theorem session_fuel_mono e fuel fuel' threads r :
  (fuel <= fuel')%nat -> i_can_has_threaded_connection py311 urls timeout e fuel threads = Some r -> i_can_has_threaded_connection py311 urls timeout e fuel' threads = Some r.
Proof.
  intros Hle. unfold i_can_has_threaded_connection.
  destruct (pool_size urls threads <=? 0)%Z; [done|].
  destruct (run_loop _ _ _ e fuel 0 _) as [[r' s']|] eqn:Hrun; [|discriminate].
  replace fuel' with (fuel + (fuel' - fuel))%nat by lia.
  by rewrite (run_loop_fuel_mono py311 urls timeout e fuel 0 _ _ (fuel' - fuel) Hrun).
Qed.

(** C8: When every URL answers in the first round and the deadline has
    not passed at the first check, the session returns 0. *)
Theorem session_all_reachable e fuel threads :
  (0 < pool_size urls threads)%Z ->
  (0 <= time_left timeout (clock e 0) (clock e 1))%Z ->
  let futs := pending_urls urls (init_url_up urls) in
  completions_ok (length futs) (completions e 0 futs) = true ->
  all_completed futs (completions e 0 futs) = true ->
  (forall c, c ∈ completions e 0 futs -> c.2 = Opened) ->
  exists s, i_can_has_threaded_connection py311 urls timeout e (S fuel) threads = Some (Ok 0%Z, s).
Proof.
  intros Hp Ht futs Hok Hall Hopen.
  rewrite (session_first_round py311 urls timeout e fuel threads Hp Ht).
  assert (Hk : forall u, u ∈ urls -> u ∈ dict_keys (url_up (add_event (init_store urls threads) (EvTimeLeft (time_left timeout (clock e 0) (clock e 1)))))) by apply urls_in_keys.
  destruct (round_all_opened py311 urls (completions e 0) (add_event (init_store urls threads) (EvTimeLeft (time_left timeout (clock e 0) (clock e 1)))) Hk Hok Hall Hopen)
    as (s1 & Hround & Hup).
  pose proof (round_inv _ py311 urls (completions e 0) (add_event (init_store urls threads) (EvTimeLeft (time_left timeout (clock e 0) (clock e 1)))) (first_store_inv urls timeout e threads)
    (urls_in_keys urls)) as [Hinv _].
  rewrite Hround in Hinv |- *. simpl in Hinv.
  rewrite (all_up_check_failed_nil urls s1 Hinv Hup). by eexists.
Qed.

(** C18: A malformed URL: when the first probe of the first round that the
    retry clause does not handle raised a [ValueError] (such as
    [unknown url type] for "potato"), the session returns -2, whatever
    the other URLs do. *)
Theorem session_invalid_url e fuel threads pre i ex post :
  (0 < pool_size urls threads)%Z ->
  (0 <= time_left timeout (clock e 0) (clock e 1))%Z ->
  let futs := pending_urls urls (init_url_up urls) in
  completions_ok (length futs) (completions e 0 futs) = true ->
  completions e 0 futs = pre ++ (i, Failed ex) :: post ->
  (forall c, c ∈ pre -> handled c.2 = true) ->
  issubclass ex ValueError = true ->
  exists s, i_can_has_threaded_connection py311 urls timeout e (S fuel) threads = Some (Ok INVALID_URL_CODE, s).
Proof.
  intros Hp Ht futs Hok Hdone Hpre Hval.
  destruct (issubclass_ValueError_not_other py311 ex Hval) as [Hto Hretry].
  destruct (round_first_unhandled py311 urls (completions e 0) (add_event (init_store urls threads) (EvTimeLeft (time_left timeout (clock e 0) (clock e 1)))) pre i ex post
    (urls_in_keys urls) Hok Hdone Hpre Hretry) as [s1 Hround].
  rewrite (session_first_round py311 urls timeout e fuel threads Hp Ht), Hround.
  unfold finish, bind, log, modify, ret. rewrite Hto, Hval. by eexists.
Qed.

(** C21: A probe that raises the builtin [TimeoutError] (a read timeout of
    [urlopen]) is not retried.  From Python 3.11 on it is the class of
    [concurrent.futures.TimeoutError], so the handler meant for the
    session deadline catches it and the session ends at once with the
    failure count; before 3.11 it ends with -3. *)
Theorem session_probe_timeout e fuel threads pre i post :
  (0 < pool_size urls threads)%Z ->
  (0 <= time_left timeout (clock e 0) (clock e 1))%Z ->
  let futs := pending_urls urls (init_url_up urls) in
  completions_ok (length futs) (completions e 0 futs) = true ->
  completions e 0 futs = pre ++ (i, Failed TimeoutError) :: post ->
  (forall c, c ∈ pre -> handled c.2 = true) ->
  exists s, i_can_has_threaded_connection py311 urls timeout e (S fuel) threads =
    Some (if py311 then Ok (fail_code (check_failed (url_up s))) else Ok UNEXPECTED_CODE, s).
Proof.
  intros Hp Ht futs Hok Hdone Hpre.
  destruct (round_first_unhandled py311 urls (completions e 0) (add_event (init_store urls threads) (EvTimeLeft (time_left timeout (clock e 0) (clock e 1)))) pre i
    TimeoutError post (urls_in_keys urls) Hok Hdone Hpre eq_refl) as [s1 Hround].
  rewrite (session_first_round py311 urls timeout e fuel threads Hp Ht), Hround.
  exists (finish py311 (Raise TimeoutError) s1).2. by destruct py311.
Qed.

(** C22: A probe exception that is an [Exception] but neither a
    [ValueError], nor the futures timeout, nor a [URLError] ends the
    session with -3.  This covers [http.client.InvalidURL], which
    [urlopen] raises for a URL with a non-numeric port. *)
Theorem session_unexpected_error e fuel threads pre i ex post :
  (0 < pool_size urls threads)%Z ->
  (0 <= time_left timeout (clock e 0) (clock e 1))%Z ->
  let futs := pending_urls urls (init_url_up urls) in
  completions_ok (length futs) (completions e 0 futs) = true ->
  completions e 0 futs = pre ++ (i, Failed ex) :: post ->
  (forall c, c ∈ pre -> handled c.2 = true) ->
  handled (Failed ex) = false ->
  issubclass ex (futures_TimeoutError py311) = false ->
  issubclass ex ValueError = false ->
  issubclass ex Exception = true ->
  exists s, i_can_has_threaded_connection py311 urls timeout e (S fuel) threads = Some (Ok UNEXPECTED_CODE, s).
Proof.
  intros Hp Ht futs Hok Hdone Hpre Hh Hto Hval Hexc.
  destruct (round_first_unhandled py311 urls (completions e 0) (add_event (init_store urls threads) (EvTimeLeft (time_left timeout (clock e 0) (clock e 1)))) pre i ex post
    (urls_in_keys urls) Hok Hdone Hpre Hh) as [s1 Hround].
  rewrite (session_first_round py311 urls timeout e fuel threads Hp Ht), Hround.
  unfold finish, bind, log, modify, ret. rewrite Hto, Hval, Hexc. by eexists.
Qed.

(** C25: The deadline is measured with [time.time()], a wall clock.  If
    its readings never pass [start + timeout] (a clock that stands still
    or is set back), a URL that keeps failing with [URLError] keeps the
    loop running: no amount of fuel makes it return. *)
Theorem stalled_clock_no_exit clk fuel threads :
  urls <> [] ->
  (forall j, (0 <= time_left timeout (clk O) (clk (S j)))%Z) ->
  run_loop py311 urls timeout (mk_env clk (all_complete (fun _ _ => Failed URLError)))
    fuel 0 (init_store urls threads) = None.
Proof.
  intros Hne Hclk.
  assert (Hcf : check_failed (init_url_up urls) <> []).
  { destruct urls as [|u us]; [done|]. intros Hnil.
    assert (Hu : u ∈ check_failed (init_url_up (u :: us))).
    { apply elem_of_check_failed; [apply init_url_up_wf|].
      rewrite init_url_up_get. case_decide as Hin; [done|]. destruct Hin. apply list_elem_of_here. }
    rewrite Hnil in Hu. by apply elem_of_nil in Hu. }
  set (f := fun (_ : nat) (_ : url) => Failed URLError).
  assert (Hgen : forall n k s, url_up s = init_url_up urls ->
    run_loop py311 urls timeout (mk_env clk (all_complete f)) n k s = None).
  { intros n. induction n as [|n IH]; intros k s Hs; [done|].
    simpl. unfold loop_body. rewrite loop_body_at_spec. simpl.
    replace (time_left timeout (clk O) (clk (S k)) <? 0)%Z with false
      by (symmetry; apply Z.ltb_ge; apply Hclk).
    destruct (round_all_retry py311 urls (all_complete f k)
      (add_event s (EvTimeLeft (time_left timeout (clk O) (clk (S k)))))) as (s1 & Hround & Hup1).
    { simpl. rewrite Hs. apply urls_in_keys. }
    { apply all_complete_ok. }
    { apply all_complete_all. }
    { intros c Hc. apply complete_from_elem in Hc as (u & _ & ->). by exists URLError. }
    rewrite Hround, Hup1. cbn [url_up]. rewrite Hs.
    destruct (check_failed (init_url_up urls)) eqn:E; [done|].
    apply IH. rewrite Hup1. exact Hs. }
  by apply Hgen.
Qed.
End Properties.

(** C26: With no URLs, the session crashes with the [ValueError] of
    [ThreadPoolExecutor(max_workers=0)] when no positive pool size is
    given ([--urls] with no value and no [--threads]), and returns 0 with
    a positive one. *)
Theorem session_empty_urls py311 timeout e fuel threads :
  completions_ok 0 (completions e 0 []) = true -> (0 < fuel)%nat ->
  option_map fst (i_can_has_threaded_connection py311 [] timeout e fuel threads) =
    Some (if (pool_size [] threads <=? 0)%Z then Raise ValueError else Ok 0%Z).
Proof.
  intros Hok Hf. unfold i_can_has_threaded_connection.
  destruct (pool_size [] threads <=? 0)%Z; [done|].
  destruct fuel as [|fuel]; [lia|]. simpl. unfold loop_body. rewrite loop_body_at_spec.
  destruct (time_left timeout (clock e 0) (clock e 1) <? 0)%Z; [reflexivity|].
  apply completions_ok_spec in Hok as [_ Hlt].
  destruct (completions e 0 []) as [|c cs] eqn:Hc.
  - unfold round, bind. simpl. rewrite Hc. reflexivity.
  - exfalso. specialize (Hlt c (list_elem_of_here _ _)). lia.
Qed.

(** ** Scenarios *)

(** One tick per clock reading. *)
Definition tick (j : nat) : Z := Z.of_nat j.

(** A network in which every submitted future completes, in submission
    order, with the outcome [f u] for its URL [u], in every round. *)
Definition env_of (f : url -> urlopen_outcome) : env :=
  mk_env tick (all_complete (fun _ => f)).

(** [good] answers, every other URL fails with [bad]. *)
Definition only_up (good : url) (bad : urlopen_outcome) (u : url) : urlopen_outcome :=
  if decide (u = good) then Opened else bad.

Definition all_up : url -> urlopen_outcome := fun _ => Opened.

(** The scenario of the specification: "A" answers, "B" always fails
    with [URLError]; with a timeout of 5 ticks the session returns 1,
    having probed "A" once and retried "B" until the deadline. *)
Example scenario_one_unreachable :
  option_map fst (i_can_has_threaded_connection true ["A"; "B"] 5
                    (env_of (only_up "A" (Failed URLError))) 10 None) = Some (Ok 1%Z) /\
  option_map (fun r => length (List.filter (fun ev => bool_decide (ev = EvSubmit "A")) (events r.2)))
    (i_can_has_threaded_connection true ["A"; "B"] 5
       (env_of (only_up "A" (Failed URLError))) 10 None) = Some 1%nat.
Proof. split; vm_compute; reflexivity. Qed.

(** C27: The first clock check comes before any probe: when the deadline
    has passed at the first check (a negative [--timeout], as section 4.1
    allows), the session submits nothing and returns the failure count of
    every distinct URL it was given, so a malformed URL is counted as
    unreachable and never reported with -2. *)
Theorem session_deadline_first_check py311 urls timeout e fuel threads :
  (0 < pool_size urls threads)%Z ->
  (time_left timeout (clock e 0) (clock e 1) < 0)%Z ->
  exists s, i_can_has_threaded_connection py311 urls timeout e (S fuel) threads =
              Some (Ok (fail_code (check_failed (init_url_up urls))), s) /\
    (forall u, u ∈ check_failed (url_up s) <-> u ∈ urls) /\
    (forall u, EvSubmit u ∉ events s).
Proof.
  intros Hp Ht. unfold i_can_has_threaded_connection.
  replace (pool_size urls threads <=? 0)%Z with false by (symmetry; apply Z.leb_gt; lia).
  simpl. unfold loop_body. rewrite loop_body_at_spec.
  replace (time_left timeout (clock e 0) (clock e 1) <? 0)%Z with true by (symmetry; by apply Z.ltb_lt).
  unfold finish, fail_count, bind, get, log, modify, ret. cbn [fst snd url_up events].
  eexists. split; [reflexivity|]. cbn [url_up events]. split.
  - intros u. unfold init_store. cbn [url_up]. rewrite elem_of_check_failed, init_url_up_get by apply init_url_up_wf.
    case_decide; naive_solver.
  - intros u Hin. unfold init_store, default_threads in Hin. cbn [events] in Hin.
    destruct threads as [t|]; [destruct (t =? 0)%Z|]; simpl in Hin; elem_cases Hin.
Qed.

(** ** Witnesses *)

Lemma env_of_wf f : env_wf (env_of f).
Proof. apply all_complete_wf. Qed.

Lemma reachable_store_inv_witness :
  reachable true ["A"] 5 0 None
    (after 0 (loop_body_at true ["A"] 5 0 1 (all_complete (fun _ => all_up) 0) (init_store ["A"] None))) /\
  store_inv (dict_keys (init_url_up ["A"]))
    (conf_store (after 0 (loop_body_at true ["A"] 5 0 1 (all_complete (fun _ => all_up) 0)
                                       (init_store ["A"] None)))).
Proof.
  assert (Hr : reachable true ["A"] 5 0 None
    (after 0 (loop_body_at true ["A"] 5 0 1 (all_complete (fun _ => all_up) 0) (init_store ["A"] None)))).
  { apply rtc_once. constructor. vm_compute. reflexivity. }
  split; [exact Hr|]. exact (reachable_store_inv true ["A"] 5 0 None _ Hr).
Defined.

(** The final store of a session that returns. *)
Definition final_store (r : option (result Z * store)) : store :=
  match r with Some (_, st) => st | None => mk_store [] [] end.

Definition ab_env : env := env_of (only_up "A" (Failed URLError)).
Definition ab_final : store :=
  final_store (i_can_has_threaded_connection true ["A"; "B"] 5 ab_env 10 None).
Definition up_final : store :=
  final_store (i_can_has_threaded_connection true ["A"; "B"] 5 (env_of all_up) 3 None).

Lemma session_success_sound_witness :
  i_can_has_threaded_connection true ["A"; "B"] 5 (env_of all_up) 3 None = Some (Ok 0%Z, up_final) /\
  EvOk "B" ∈ events up_final /\ dict_get "B" (url_up up_final) = Some true.
Proof.
  assert (Hs : i_can_has_threaded_connection true ["A"; "B"] 5 (env_of all_up) 3 None =
    Some (Ok 0%Z, up_final)) by (vm_compute; reflexivity).
  split; [exact Hs|]. apply (session_success_sound true ["A"; "B"] 5 _ _ _ _ Hs).
  by apply list_elem_of_further, list_elem_of_here.
Defined.

Lemma session_result_witness :
  i_can_has_threaded_connection true ["A"; "B"] 5 ab_env 10 None = Some (Ok 1%Z, ab_final) /\
  (1%Z = INVALID_URL_CODE \/ 1%Z = UNEXPECTED_CODE \/
   (1%Z = fail_code (check_failed (url_up ab_final)) /\
    forall u, u ∈ check_failed (url_up ab_final) <-> u ∈ ["A"; "B"] /\ EvOk u ∉ events ab_final)).
Proof.
  assert (Hs : i_can_has_threaded_connection true ["A"; "B"] 5 ab_env 10 None =
    Some (Ok 1%Z, ab_final)) by (vm_compute; reflexivity).
  split; [exact Hs|]. exact (session_result true ["A"; "B"] 5 _ _ _ _ _ Hs).
Defined.

(** 126 distinct URLs that never answer: the session returns -1 where
    the module docstring says 126. *)
Definition urls126 : list url :=
  map (fun n => String.String (Ascii.ascii_of_nat n) String.EmptyString) (seq 0 126).

Definition down126_final : store :=
  final_store (i_can_has_threaded_connection true urls126 1 (env_of (fun _ => Failed URLError)) 5 None).

Lemma session_count_vs_docstring_witness :
  i_can_has_threaded_connection true urls126 1 (env_of (fun _ => Failed URLError)) 5 None =
    Some (Ok (-1)%Z, down126_final) /\
  length (check_failed (url_up down126_final)) = 126%nat /\
  (-1)%Z <> docstring_code (length (check_failed (url_up down126_final))).
Proof.
  assert (Hs : i_can_has_threaded_connection true urls126 1 (env_of (fun _ => Failed URLError)) 5 None =
    Some (Ok (-1)%Z, down126_final)) by (vm_compute; reflexivity).
  assert (Hl : length (check_failed (url_up down126_final)) = 126%nat) by (vm_compute; reflexivity).
  split; [exact Hs|]. split; [exact Hl|]. intros Heq.
  destruct (session_count_vs_docstring true urls126 1 _ _ _ _ _ Hs ltac:(discriminate) ltac:(discriminate))
    as (_ & _ & Hiff).
  by apply (proj1 Hiff).
Defined.

Lemma session_no_resubmit_witness :
  i_can_has_threaded_connection true ["A"; "B"] 5 ab_env 10 None = Some (Ok 1%Z, ab_final) /\
  events ab_final = take 4 (events ab_final) ++ EvOk "A" :: drop 5 (events ab_final) /\
  EvSubmit "A" ∉ drop 5 (events ab_final).
Proof.
  assert (Hs : i_can_has_threaded_connection true ["A"; "B"] 5 ab_env 10 None =
    Some (Ok 1%Z, ab_final)) by (vm_compute; reflexivity).
  assert (He : events ab_final = take 4 (events ab_final) ++ EvOk "A" :: drop 5 (events ab_final))
    by (vm_compute; reflexivity).
  split; [exact Hs|]. split; [exact He|].
  exact (session_no_resubmit true ["A"; "B"] 5 _ _ _ _ _ Hs _ _ _ He).
Defined.

Lemma session_raise_witness :
  i_can_has_threaded_connection true [] 5 (env_of all_up) 3 None =
    Some (Raise ValueError, init_store [] None) /\
  (((pool_size [] None <= 0)%Z /\ ValueError = ValueError) \/
   issubclass ValueError Exception = false).
Proof.
  assert (Hs : i_can_has_threaded_connection true [] 5 (env_of all_up) 3 None =
    Some (Raise ValueError, init_store [] None)) by (vm_compute; reflexivity).
  split; [exact Hs|]. exact (session_raise true [] 5 _ _ _ _ _ Hs).
Defined.

Lemma session_terminates_witness :
  (forall j, (clock ab_env j < clock ab_env (S j))%Z) /\
  is_Some (i_can_has_threaded_connection true ["A"; "B"] 5 ab_env (S (Z.to_nat 5)) None).
Proof.
  assert (Hclk : forall j, (clock ab_env j < clock ab_env (S j))%Z)
    by (intros j; simpl; unfold tick; lia).
  split; [exact Hclk|]. exact (session_terminates true ["A"; "B"] 5 ab_env None Hclk).
Defined.

Lemma session_fuel_mono_witness :
  (6 <= 20)%nat /\
  i_can_has_threaded_connection true ["A"; "B"] 5 ab_env 6 None = Some (Ok 1%Z, ab_final) /\
  i_can_has_threaded_connection true ["A"; "B"] 5 ab_env 20 None = Some (Ok 1%Z, ab_final).
Proof.
  assert (Hs : i_can_has_threaded_connection true ["A"; "B"] 5 ab_env 6 None =
    Some (Ok 1%Z, ab_final)) by (vm_compute; reflexivity).
  split; [lia|]. split; [exact Hs|].
  exact (session_fuel_mono true ["A"; "B"] 5 ab_env 6 20 None _ ltac:(lia) Hs).
Defined.

Lemma session_all_reachable_witness :
  (0 < pool_size ["A"; "B"] None)%Z /\
  exists s, i_can_has_threaded_connection true ["A"; "B"] 5 (env_of all_up) 1 None = Some (Ok 0%Z, s).
Proof.
  split; [vm_compute; reflexivity|].
  apply (session_all_reachable true ["A"; "B"] 5 (env_of all_up) 0 None).
  - vm_compute. reflexivity.
  - simpl. unfold time_left, tick. lia.
  - vm_compute. reflexivity.
  - vm_compute. reflexivity.
  - intros c Hc. apply complete_from_elem in Hc as (u & _ & ->). reflexivity.
Defined.

Lemma session_invalid_url_witness :
  completions (env_of (only_up "A" (Failed ValueError))) 0
    (pending_urls ["A"; "potato"] (init_url_up ["A"; "potato"])) =
    [(0%nat, Opened)] ++ (1%nat, Failed ValueError) :: [] /\
  exists s, i_can_has_threaded_connection true ["A"; "potato"] 5
              (env_of (only_up "A" (Failed ValueError))) 1 None = Some (Ok INVALID_URL_CODE, s).
Proof.
  assert (Hd : completions (env_of (only_up "A" (Failed ValueError))) 0
    (pending_urls ["A"; "potato"] (init_url_up ["A"; "potato"])) =
    [(0%nat, Opened)] ++ (1%nat, Failed ValueError) :: []) by (vm_compute; reflexivity).
  split; [exact Hd|].
  apply (session_invalid_url true ["A"; "potato"] 5 _ 0 None [(0%nat, Opened)] 1 ValueError []).
  - vm_compute. reflexivity.
  - simpl. unfold time_left, tick. lia.
  - vm_compute. reflexivity.
  - exact Hd.
  - intros c Hc. apply list_elem_of_singleton in Hc as ->. reflexivity.
  - vm_compute. reflexivity.
Defined.

Lemma session_probe_timeout_witness :
  exists s, i_can_has_threaded_connection true ["A"] 5 (env_of (fun _ => Failed TimeoutError)) 1 None =
    Some (Ok (fail_code (check_failed (url_up s))), s).
Proof.
  apply (session_probe_timeout true ["A"] 5 _ 0 None [] 0 []).
  - vm_compute. reflexivity.
  - simpl. unfold time_left, tick. lia.
  - vm_compute. reflexivity.
  - vm_compute. reflexivity.
  - intros c Hc. by apply elem_of_nil in Hc.
Defined.

Lemma session_unexpected_error_witness :
  exists s, i_can_has_threaded_connection true ["http://example.com:port/"] 5
              (env_of (fun _ => Failed InvalidURL)) 1 None = Some (Ok UNEXPECTED_CODE, s).
Proof.
  apply (session_unexpected_error true ["http://example.com:port/"] 5 _ 0 None [] 0 InvalidURL []).
  - vm_compute. reflexivity.
  - simpl. unfold time_left, tick. lia.
  - vm_compute. reflexivity.
  - vm_compute. reflexivity.
  - intros c Hc. by apply elem_of_nil in Hc.
  - vm_compute. reflexivity.
  - vm_compute. reflexivity.
  - vm_compute. reflexivity.
  - vm_compute. reflexivity.
Defined.

Lemma stalled_clock_no_exit_witness :
  ["A"] <> [] /\
  run_loop true ["A"] 0 (mk_env (fun _ => 0%Z) (all_complete (fun _ _ => Failed URLError)))
    50 0 (init_store ["A"] None) = None.
Proof.
  split; [discriminate|].
  apply (stalled_clock_no_exit true ["A"] 0 (fun _ => 0%Z) 50 None); [discriminate|].
  intros j. unfold time_left. lia.
Defined.

Lemma session_empty_urls_witness :
  completions_ok 0 (completions (env_of all_up) 0 []) = true /\
  option_map fst (i_can_has_threaded_connection true [] 5 (env_of all_up) 1 None) = Some (Raise ValueError) /\
  option_map fst (i_can_has_threaded_connection true [] 5 (env_of all_up) 1 (Some 1%Z)) = Some (Ok 0%Z).
Proof.
  assert (Hok : completions_ok 0 (completions (env_of all_up) 0 []) = true) by reflexivity.
  split; [exact Hok|]. split.
  - exact (session_empty_urls true 5 (env_of all_up) 1 None Hok ltac:(lia)).
  - exact (session_empty_urls true 5 (env_of all_up) 1 (Some 1%Z) Hok ltac:(lia)).
Defined.

(** "potato" with a negative timeout: counted, not reported as -2. *)
Lemma session_deadline_first_check_witness :
  (0 < pool_size ["potato"] None)%Z /\
  (time_left (-1) (clock (env_of (fun _ => Failed ValueError)) 0)
              (clock (env_of (fun _ => Failed ValueError)) 1) < 0)%Z /\
  exists s, i_can_has_threaded_connection true ["potato"] (-1) (env_of (fun _ => Failed ValueError)) 1 None =
              Some (Ok 1%Z, s).
Proof.
  split; [vm_compute; reflexivity|]. split; [vm_compute; reflexivity|].
  destruct (session_deadline_first_check true ["potato"] (-1) (env_of (fun _ => Failed ValueError)) 0 None
    ltac:(vm_compute; reflexivity) ltac:(vm_compute; reflexivity)) as (s & Hs & _).
  exists s. exact Hs.
Defined.

End Poller.
