(* ===== verification/Spec.v ===== *)
(** The contract of the specification's Connectivity Poller (spec.md,
    sections 3, 4.1, 6 and 7) as an abstract state machine on the set of
    endpoints reached, and the refinement theorem: every configuration
    the [while] loop of [i_can_has_threaded_connection] reaches is
    abstracted to a state the abstract machine reaches.

    The abstract session is polling with a set [R] of reached endpoints,
    or ended with [R] and an outcome.  A round only adds endpoints of the
    session to [R]; success needs every endpoint reached; a timeout
    reports the count of the endpoints not in [R], saturated as section
    6 lists the codes; an invalid input or an unexpected error ends the
    session at any time.  [SCrashed] is an exception that is not an
    [Exception] (an interrupt), which section 7 does not count as an
    error and no handler catches; [SUnlisted] is a return code outside
    section 6's table, which no abstract step reaches.  The abstraction
    reads [R] off the [url_up] table, and an exited loop's outcome off
    the code [finish] returns. *)

From stdpp Require Import base list sets gmap strings relations.
From Stdlib Require Import ZArith Lia.
From S2P Require Import Prelude PyExc PyDict UrlState ReturnCode Round Poller.
Import PyExc PyDict UrlState ReturnCode Round Poller.

Module Spec.

Inductive spec_state :=
| SActive (reached : gset url)
| SDone (reached : gset url) (o : outcome)
| SCrashed (reached : gset url) (ex : pyclass)
| SUnlisted (c : Z).

Section SpecMachine.
Context (E : gset url).

Inductive spec_step : spec_state -> spec_state -> Prop :=
| spec_round R R' : R ⊆ R' -> R' ⊆ E -> spec_step (SActive R) (SActive R')
| spec_success : spec_step (SActive E) (SDone E AllReached)
| spec_timeout R : R ⊆ E -> spec_step (SActive R) (SDone R (count_outcome (size (E ∖ R))))
| spec_invalid R : spec_step (SActive R) (SDone R InvalidInput)
| spec_unexpected R : spec_step (SActive R) (SDone R UnexpectedError)
| spec_crash R ex : issubclass ex Exception = false -> spec_step (SActive R) (SCrashed R ex).
End SpecMachine.

(** The endpoints whose entry in the table is [True]. *)
Definition reached (d : url_table) : gset url := list_to_set (map fst (List.filter snd d)).

Definition abs_exit (py311 : bool) (r : result loop_exit) (s : store) : spec_state :=
  match (finish py311 r s).1 with
  | Ok c => match decode_code c with
            | Some o => SDone (reached (url_up s)) o
            | None => SUnlisted c
            end
  | Raise ex => SCrashed (reached (url_up s)) ex
  end.

Definition abs_conf (py311 : bool) (c : conf) : spec_state :=
  match c with
  | Running _ s => SActive (reached (url_up s))
  | Exited r s => abs_exit py311 r s
  end.

(** ** The abstraction of the table *)

Lemma elem_of_reached d u : dict_wf d -> u ∈ reached d <-> dict_get u d = Some true.
Proof.
  intros Hwf. unfold reached. rewrite elem_of_list_to_set, list_elem_of_fmap. split.
  - intros [[u' b] [-> Hin]]. apply elem_of_filter_bool in Hin as [Hin Hb].
    simpl in Hb. subst b. by apply dict_wf_get_pair.
  - intros Hget. exists (u, true). split; [done|].
    apply elem_of_filter_bool. split; [by apply dict_get_elem_of|done].
Qed.

Section Abstraction.
Context (py311 : bool) (urls : list url).

Lemma store_keys s u :
  store_inv (dict_keys (init_url_up urls)) s -> u ∈ dict_keys (url_up s) <-> u ∈ urls.
Proof. intros Hinv. by rewrite (inv_keys _ _ Hinv), init_url_up_keys. Qed.

Lemma store_wf s : store_inv (dict_keys (init_url_up urls)) s -> dict_wf (url_up s).
Proof. intros Hinv. unfold dict_wf. rewrite (inv_keys _ _ Hinv). apply (inv_nodup _ _ Hinv). Qed.

Lemma reached_init : reached (init_url_up urls) = ∅.
Proof.
  apply set_eq. intros u. rewrite elem_of_reached by apply init_url_up_wf.
  rewrite init_url_up_get. split; [case_decide; discriminate|set_solver].
Qed.

Lemma reached_sub s :
  store_inv (dict_keys (init_url_up urls)) s -> reached (url_up s) ⊆ list_to_set urls.
Proof.
  intros Hinv u Hu. apply elem_of_reached in Hu; [|by apply store_wf].
  apply elem_of_list_to_set, (store_keys s); [done|].
  apply dict_get_is_Some. by eexists.
Qed.

(** A longer trace can only have more OK lines, hence more endpoints up. *)
Lemma reached_mono s s' :
  store_inv (dict_keys (init_url_up urls)) s -> store_inv (dict_keys (init_url_up urls)) s' ->
  events s `prefix_of` events s' -> reached (url_up s) ⊆ reached (url_up s').
Proof.
  intros Hinv Hinv' [post Hpost] u Hu.
  apply elem_of_reached in Hu; [|by apply store_wf]. apply elem_of_reached; [by apply store_wf|].
  apply (inv_ok_logged _ _ Hinv'). apply (inv_ok_logged _ _ Hinv) in Hu.
  rewrite Hpost. apply elem_of_app. by left.
Qed.

(** The endpoints not reached are those [check_failed] lists. *)
Lemma unreached_check_failed s :
  store_inv (dict_keys (init_url_up urls)) s ->
  list_to_set urls ∖ reached (url_up s) = list_to_set (C:=gset url) (check_failed (url_up s)).
Proof.
  intros Hinv. pose proof (store_wf s Hinv) as Hwf. apply set_eq. intros u.
  rewrite elem_of_difference, !elem_of_list_to_set, elem_of_reached, elem_of_check_failed by done.
  rewrite <- (store_keys s u Hinv), <- dict_get_is_Some. split.
  - intros [[b Hb] Hnt]. rewrite Hb in Hnt |- *. destruct b; congruence.
  - intros Hf. rewrite Hf. split; [by eexists|congruence].
Qed.

Lemma size_unreached s :
  store_inv (dict_keys (init_url_up urls)) s ->
  size (list_to_set (C:=gset url) urls ∖ reached (url_up s)) = length (check_failed (url_up s)).
Proof.
  intros Hinv. rewrite unreached_check_failed by done.
  apply size_list_to_set, NoDup_check_failed, store_wf, Hinv.
Qed.

Lemma reached_all s :
  store_inv (dict_keys (init_url_up urls)) s -> check_failed (url_up s) = [] ->
  reached (url_up s) = list_to_set urls.
Proof.
  intros Hinv Hnil. pose proof (size_unreached s Hinv) as Hsz. rewrite Hnil in Hsz.
  apply size_empty_inv in Hsz. pose proof (reached_sub s Hinv).
  apply set_eq. intros u. split; [set_solver|]. intros Hu.
  destruct (decide (u ∈ reached (url_up s))); [done|].
  assert (u ∈ list_to_set (C:=gset url) urls ∖ reached (url_up s)) by set_solver.
  set_solver.
Qed.

(** The timeout path: the code [fail_code] of the unreached endpoints
    decodes to the count of the endpoints not in [R]. *)
Lemma abs_timeout s :
  store_inv (dict_keys (init_url_up urls)) s ->
  (match decode_code (fail_code (check_failed (url_up s))) with
   | Some o => SDone (reached (url_up s)) o | None => SUnlisted (fail_code (check_failed (url_up s))) end) =
  SDone (reached (url_up s)) (count_outcome (size (list_to_set (C:=gset url) urls ∖ reached (url_up s)))).
Proof.
  intros Hinv. rewrite (proj1 (decode_fail_code _)), size_unreached by done. reflexivity.
Qed.

(** Leaving the loop other than by [return 0] is one abstract step. *)
Lemma abs_exit_step r s :
  store_inv (dict_keys (init_url_up urls)) s -> r <> Ok Return0 ->
  spec_step (list_to_set urls) (SActive (reached (url_up s))) (abs_exit py311 r s).
Proof.
  intros Hinv Hr. pose proof (reached_sub s Hinv) as Hsub.
  unfold abs_exit, finish, fail_count, bind, get, log, modify, ret, raise.
  destruct r as [[]|ex]; cbn [fst snd url_up]; [done| |].
  - rewrite abs_timeout by done. by constructor.
  - destruct (issubclass ex (futures_TimeoutError py311)); cbn [fst snd url_up].
    { rewrite abs_timeout by done. by constructor. }
    destruct (issubclass ex ValueError); [constructor|].
    destruct (issubclass ex Exception) eqn:Hex; by constructor.
Qed.

(** One iteration of the loop is a path of the abstract machine: a round,
    then possibly the exit. *)
Lemma loop_step_sim start timeout k s c' :
  store_inv (dict_keys (init_url_up urls)) s ->
  loop_step py311 urls timeout start (Running k s) c' ->
  rtc (spec_step (list_to_set urls)) (SActive (reached (url_up s))) (abs_conf py311 c').
Proof.
  intros Hinv Hstep. inversion Hstep as [k' s' now done_of Hok]; subst.
  rewrite loop_body_at_spec.
  set (s0 := add_event s (EvTimeLeft (time_left timeout start now))).
  assert (Hinv0 : store_inv (dict_keys (init_url_up urls)) s0) by (by apply inv_log_quiet).
  destruct (_ <? 0)%Z.
  { apply rtc_once. apply (abs_exit_step (Ok Break) (add_event s0 EvTimeout)); [|discriminate].
    by apply inv_log_quiet. }
  destruct (round_inv (dict_keys (init_url_up urls)) py311 urls done_of s0 Hinv0 (urls_in_keys urls))
    as [Hinv1 Hpre].
  destruct (round py311 urls done_of s0) as [res s1]. simpl in Hinv1, Hpre.
  assert (Hr : spec_step (list_to_set urls) (SActive (reached (url_up s0))) (SActive (reached (url_up s1))))
    by (constructor; [by apply reached_mono|by apply reached_sub]).
  eapply rtc_l; [exact Hr|].
  destruct res as [x|ex]; simpl.
  - destruct (check_failed (url_up s1)) eqn:Hcf; simpl; [|done].
    apply rtc_once. unfold abs_exit, finish, ret. cbn [fst]. simpl.
    rewrite (reached_all s1 Hinv1 Hcf). constructor.
  - apply rtc_once. by apply abs_exit_step.
Qed.

End Abstraction.

(** ** Properties *)


(** A session over ["A"] whose probe answers: the loop returns 0 after one
    round, and the abstract poller reaches [SDone AllReached]. *)
Definition one_round_done : list (nat * urlopen_outcome) := [(0%nat, Opened)].


End Spec.
