(* ===== verification/Logging.v ===== *)
(** The session's log levels: the level of each record of the trace
    (src/wait_for_connection.py, lines 88, 101, 103, 120, 122, 127, 131,
    134, 137, 141) and the level [cli_main] configures (line 181).  A
    submission is not a log record.  [TimedSession] uses these levels
    for the whole log, the workers' records included, to say what a
    handler shows.

    The theorem: a session that returns 0 without logging
    [OK:All Urls.] was given a URL twice (or none); a duplicated URL can
    make the session return 0 after logging the error [FAIL:[]]. *)

From stdpp Require Import base list strings.
From Stdlib Require Import ZArith Lia.
From S2P Require Import Prelude PyExc PyDict UrlState ReturnCode Round Poller.
Import PyExc PyDict UrlState ReturnCode Round Poller.

Module Logging.

(** The levels of the [logging] module. *)
Definition DEBUG : Z := 10.
Definition INFO : Z := 20.
Definition ERROR : Z := 40.

(** The level of each record; [None] for a submission. *)
Definition level_of (ev : event) : option Z :=
  match ev with
  | EvSubmit _ => None
  | EvOk _ => Some INFO
  | EvRetry _ => Some DEBUG
  | EvThreads _ => Some DEBUG
  | EvTimeLeft _ => Some DEBUG
  | EvTimeout => Some DEBUG
  | EvAllOk => Some INFO
  | EvExecTimeout _ => Some DEBUG
  | EvInvalid _ => Some ERROR
  | EvUnexpected _ => Some ERROR
  | EvFail _ => Some ERROR
  end.

(** [logging.basicConfig(level=logging.DEBUG if args.verbose else
    logging.INFO)] *)
Definition basic_config (verbose : bool) : Z := if verbose then DEBUG else INFO.

Section LoopLog.
Context (py311 : bool) (urls : list url) (timeout : Z).

(** The loop leaves through [return 0] right after [OK:All Urls.]. *)
Lemma run_loop_return0_last e fuel k s s' :
  run_loop py311 urls timeout e fuel k s = Some (Ok Return0, s') ->
  exists evs, events s' = evs ++ [EvAllOk].
Proof.
  revert k s. induction fuel as [|fuel IH]; intros k s; simpl; [discriminate|].
  unfold loop_body. rewrite loop_body_at_spec. destruct (_ <? 0)%Z; [discriminate|].
  destruct (round _ _ _ _) as [[[]|ex] s1]; [|discriminate].
  destruct (check_failed (url_up s1)); [intros [= <-]; by eexists|]. apply IH.
Qed.
End LoopLog.

(** ** Properties *)

(** C24: A session that returns 0 without logging [OK:All Urls.] has a
    URL listed twice (or no URL at all).  With distinct URLs, a [break]
    or a raised round leaves a URL down, so the failure count is not 0;
    a duplicated URL gets two futures in a round, and when the first
    answers and the second is still running at the deadline, the
    session returns 0 through the failure count and logs the error
    [FAIL:[]] instead of [OK:All Urls.]. *)
Theorem zero_without_all_ok_needs_duplicate py311 urls timeout e fuel threads s :
  env_wf e ->
  i_can_has_threaded_connection py311 urls timeout e fuel threads = Some (Ok 0%Z, s) ->
  EvAllOk ∉ events s ->
  ~ NoDup urls \/ urls = [].
Proof.
  intros Hwf Hs Hnok. destruct (decide (NoDup urls)) as [Hnd|]; [|by left]. right.
  destruct (decide (urls = [])) as [|Hne]; [done|exfalso].
  destruct (session_exit py311 urls timeout e fuel threads _ s Hs)
    as [(_ & ? & _)|(r & s1 & Hrun & Hfin)]; [discriminate|].
  destruct (session_ok_cases py311 urls timeout e fuel threads _ s Hs) as [Hc|[Hc|Hc]];
    [unfold INVALID_URL_CODE in Hc; lia|unfold UNEXPECTED_CODE in Hc; lia|].
  symmetry in Hc. apply fail_code_zero in Hc.
  pose proof (proj1 (finish_frame py311 r s1)) as Hup. rewrite Hfin in Hup. simpl in Hup.
  rewrite Hup in Hc.
  destruct (decide (r = Ok Return0)) as [->|Hr].
  - revert Hfin. unfold finish, ret. intros [= <-].
    destruct (run_loop_return0_last py311 urls timeout e fuel 0 _ s1 Hrun) as [evs Hevs].
    apply Hnok. rewrite Hevs. apply elem_of_app. right. apply list_elem_of_here.
  - exact (run_loop_down py311 urls timeout e fuel 0 _ r s1 Hnd Hwf (init_store_inv urls threads)
             (init_check_failed_ne urls Hne) Hrun Hr Hc).
Qed.

(** The network of the scenario: in the first round only the first
    future completes, and it answers. *)
Definition first_only_env : env :=
  mk_env tick (fun _ futs => match futs with [] => [] | _ :: _ => [(0%nat, Opened)] end).

Lemma first_only_env_wf : env_wf first_only_env.
Proof. intros k [|u futs]; reflexivity. Qed.

Definition dup_final : store :=
  final_store (i_can_has_threaded_connection true ["A"; "A"] 5 first_only_env 3 None).

(** "A" listed twice: the session returns 0, its log ends with the
    error [FAIL:[]], and [OK:All Urls.] is missing. *)
Lemma zero_without_all_ok_needs_duplicate_witness :
  i_can_has_threaded_connection true ["A"; "A"] 5 first_only_env 3 None = Some (Ok 0%Z, dup_final) /\
  last (events dup_final) = Some (EvFail []) /\
  EvAllOk ∉ events dup_final /\ ~ NoDup ["A"; "A"].
Proof.
  assert (Hs : i_can_has_threaded_connection true ["A"; "A"] 5 first_only_env 3 None =
    Some (Ok 0%Z, dup_final)) by (vm_compute; reflexivity).
  assert (Hn : EvAllOk ∉ events dup_final).
  { assert (He : bool_decide (EvAllOk ∈ events dup_final) = false) by (vm_compute; reflexivity).
    by apply bool_decide_eq_false in He. }
  split; [exact Hs|]. split; [vm_compute; reflexivity|]. split; [exact Hn|].
  destruct (zero_without_all_ok_needs_duplicate true ["A"; "A"] 5 _ _ _ _ first_only_env_wf Hs Hn)
    as [Hd|Hd]; [exact Hd|discriminate].
Defined.

End Logging.
