(* ===== verification/Pool.v ===== *)
(** The thread pool: [concurrent.futures.ThreadPoolExecutor] as the
    session uses it (src/wait_for_connection.py, line 96
    [ThreadPoolExecutor(max_workers=threads)], line 108 [exe.submit],
    lines 114-116 [as_completed], and the [shutdown(wait=True)] run when
    the [with] block of lines 96-138 is left).

    The executor is library code; it is modelled from its documented
    behaviour: [submit] puts a work item at the end of a FIFO queue (and
    raises [RuntimeError] after shutdown); at most [max_workers] worker
    threads each take the item at the head of the queue and run it; a
    future is finished when its item has run.  The pool is a Record, its
    transitions a labelled step relation [pool_step] with the executable
    [pool_apply] deciding it.  [submitted], [started] and [finished] are
    ghost fields: the order of submission, of start and of completion.

    The theorems: the invariant of every reachable pool (FIFO start
    order, each started item running or finished exactly once, at most
    [max_workers] running); termination of every run ([sn]); that
    [shutdown(wait=True)] returns with every submitted item finished; that
    one worker completes the items in submission order; and that what
    [as_completed] yields from a pool satisfies the assumption [env_wf]
    the session's theorems make of the environment. *)

From stdpp Require Import base list relations.
From Stdlib Require Import ZArith Lia.
From S2P Require Import Prelude PyExc.
Import PyExc.

Module Pool.

Section Pool.
Context {J Out : Type} `{EqDecision J}.

Record pool := mk_pool {
  max_workers : nat;
  work_queue : list J;    (** [_work_queue], head first *)
  running : list J;       (** the items the worker threads are running *)
  started : list J;       (** ghost: items in the order workers took them *)
  finished : list (J * Out);  (** ghost: finished futures, in completion order *)
  is_shutdown : bool;     (** [_shutdown] *)
  submitted : list J      (** ghost: items in submission order *)
}.

(** [ThreadPoolExecutor(max_workers=n)]: [ValueError] unless [n > 0]. *)
Definition executor (n : Z) : result pool :=
  if (n <=? 0)%Z then Raise ValueError
  else Ok (mk_pool (Z.to_nat n) [] [] [] [] false []).

(** [exe.submit(...)]: [RuntimeError] after shutdown, otherwise the item
    joins the end of the queue. *)
Definition submit (j : J) (p : pool) : result pool :=
  if is_shutdown p then Raise RuntimeError
  else Ok (mk_pool (max_workers p) (work_queue p ++ [j]) (running p) (started p)
             (finished p) false (submitted p ++ [j])).

(** [exe.submit] for each item in turn, as the comprehension does. *)
Fixpoint submit_all (js : list J) (p : pool) : result pool :=
  match js with
  | [] => Ok p
  | j :: js => match submit j p with Ok p' => submit_all js p' | Raise e => Raise e end
  end.

(** [shutdown(wait=True)] first sets [_shutdown]; it then joins the
    workers ([shutdown_wait] below). *)
Definition begin_shutdown (p : pool) : pool :=
  mk_pool (max_workers p) (work_queue p) (running p) (started p) (finished p) true (submitted p).

(** A running item leaves the list of running items once. *)
Fixpoint remove_one (x : J) (l : list J) : list J :=
  match l with
  | [] => []
  | y :: l => if decide (x = y) then l else y :: remove_one x l
  end.

Inductive pool_label :=
| PStart                     (** an idle or new worker takes the queue's head *)
| PFinish (j : J) (o : Out).   (** the item [j] has run, with result [o] *)

Inductive pool_step : pool_label -> pool -> pool -> Prop :=
| step_start n j q r st f sd subs :
    length r < n ->
    pool_step PStart (mk_pool n (j :: q) r st f sd subs)
                     (mk_pool n q (r ++ [j]) (st ++ [j]) f sd subs)
| step_finish n q r st f sd subs j o :
    j ∈ r ->
    pool_step (PFinish j o) (mk_pool n q r st f sd subs)
                            (mk_pool n q (remove_one j r) st (f ++ [(j, o)]) sd subs).

Definition pool_apply (l : pool_label) (p : pool) : option pool :=
  match l, p with
  | PStart, mk_pool n (j :: q) r st f sd subs =>
      if decide (length r < n) then Some (mk_pool n q (r ++ [j]) (st ++ [j]) f sd subs) else None
  | PFinish j o, mk_pool n q r st f sd subs =>
      if decide (j ∈ r) then Some (mk_pool n q (remove_one j r) st (f ++ [(j, o)]) sd subs)
      else None
  | PStart, mk_pool _ [] _ _ _ _ _ => None
  end.

Definition step (p p' : pool) : Prop := exists l, pool_step l p p'.

(** A scheduler's proposal run against the pool: the transitions that
    are enabled are taken, the others skipped. *)
Fixpoint run_schedule (ls : list pool_label) (p : pool) : pool :=
  match ls with
  | [] => p
  | l :: ls => match pool_apply l p with
               | Some p' => run_schedule ls p'
               | None => run_schedule ls p
               end
  end.

(** A run of the program against the pool: submissions and worker
    transitions in the order they happen; [None] when one is not
    possible. *)
Inductive pool_op :=
| OpSubmit (j : J)
| OpWorker (l : pool_label).

Fixpoint run_ops (ops : list pool_op) (p : pool) : option pool :=
  match ops with
  | [] => Some p
  | OpSubmit j :: ops => match submit j p with Ok p' => run_ops ops p' | Raise _ => None end
  | OpWorker l :: ops => match pool_apply l p with Some p' => run_ops ops p' | None => None end
  end.

Definition idle (p : pool) : Prop := work_queue p = [] /\ running p = [].

(** [shutdown(wait=True)] returns once the workers have nothing left:
    a run of the pool after [_shutdown] is set, to a pool where no
    transition is enabled. *)
Definition shutdown_wait (p p' : pool) : Prop :=
  rtc step (begin_shutdown p) p' /\ nf step p'.

(** The workers' own order: start while a worker is free, otherwise let
    the oldest running item finish with [res]. *)
Fixpoint drain (res : J -> Out) (fuel : nat) (p : pool) : pool :=
  match fuel with
  | O => p
  | S fuel =>
      match pool_apply PStart p with
      | Some p' => drain res fuel p'
      | None =>
          match running p with
          | [] => p
          | j :: _ => match pool_apply (PFinish j (res j)) p with
                      | Some p' => drain res fuel p'
                      | None => p
                      end
          end
      end
  end.

(** Work left: a queued item needs two transitions, a running one one. *)
Definition work_left (p : pool) : nat := 2 * length (work_queue p) + length (running p).

(** ** The invariant *)

Record pool_inv (p : pool) : Prop := {
  inv_fifo : started p ++ work_queue p = submitted p;
  inv_started : running p ++ map fst (finished p) ≡ₚ started p;
  inv_bound : length (running p) <= max_workers p
}.

(** ** Reachable pools *)

(** What can happen to the pool: a submission, or a worker's transition. *)
Definition trans (p p' : pool) : Prop := step p p' \/ exists j, submit j p = Ok p'.

Definition pool_reachable (n : Z) (p : pool) : Prop :=
  exists p0, executor n = Ok p0 /\ rtc trans p0 p.

(** The order in which one worker completes items: the items finished,
    then the one running, are the items started. *)
Definition fifo1_inv (p : pool) : Prop := map fst (finished p) ++ running p = started p.

(** ** The step function decides the step relation *)

Lemma pool_apply_spec l p p' : pool_apply l p = Some p' <-> pool_step l p p'.
Proof.
  split.
  - destruct l as [|j0 o0], p as [n [|j q] r st f sd subs]; simpl;
      repeat case_decide; intros; simplify_eq; by constructor.
  - intros []; simpl; by rewrite decide_True.
Qed.

Lemma remove_one_perm j r : j ∈ r -> r ≡ₚ j :: remove_one j r.
Proof.
  induction r as [|y r IH]; simpl; [by intros ?%elem_of_nil|].
  intros [->|Hj]%elem_of_cons; [by rewrite decide_True|].
  case_decide; [by subst|]. rewrite (IH Hj) at 1. by constructor.
Qed.

Lemma remove_one_length j r : j ∈ r -> S (length (remove_one j r)) = length r.
Proof. intros Hj. symmetry. apply (Permutation_length (remove_one_perm j r Hj)). Qed.

(** ** Preservation *)

Lemma step_inv l p p' : pool_step l p p' -> pool_inv p -> pool_inv p'.
Proof.
  intros [n j q r st f sd subs Hlt|n q r st f sd subs j o Hj] [Hfifo Hst Hb]; simpl in *.
  - constructor; simpl.
    + by rewrite <- app_assoc.
    + rewrite <- Hst, <- !app_assoc. simpl. apply Permutation_app_head.
      apply Permutation_cons_append.
    + rewrite length_app. simpl. lia.
  - constructor; simpl; [done| |].
    + rewrite <- Hst, map_app. simpl.
      etrans; [|apply Permutation_app_tail; symmetry; apply (remove_one_perm j r Hj)].
      solve_Permutation.
    + pose proof (remove_one_length j r Hj). lia.
Qed.

Lemma submit_inv j p p' : submit j p = Ok p' -> pool_inv p -> pool_inv p'.
Proof.
  unfold submit. destruct (is_shutdown p); intros [= <-] [Hfifo Hst Hb].
  constructor; simpl; [|done|done]. by rewrite app_assoc, Hfifo.
Qed.

Lemma trans_inv p p' : trans p p' -> pool_inv p -> pool_inv p'.
Proof. intros [[l Hs]|[j Hs]]; [by apply step_inv with l | by apply submit_inv with j]. Qed.

Lemma executor_inv n p : executor n = Ok p -> pool_inv p.
Proof. unfold executor. case_match; intros [= <-]; constructor; simpl; auto with lia. Qed.

(** A worker's transition keeps the submissions, the pool size and the
    flag, and only adds to the completions. *)
Lemma step_frame l p p' :
  pool_step l p p' ->
  submitted p' = submitted p /\ max_workers p' = max_workers p /\
  is_shutdown p' = is_shutdown p /\ finished p `prefix_of` finished p'.
Proof. intros []; simpl; split_and!; try done; by eexists. Qed.

Lemma rtc_step_frame p p' :
  rtc step p p' ->
  submitted p' = submitted p /\ max_workers p' = max_workers p /\
  is_shutdown p' = is_shutdown p /\ finished p `prefix_of` finished p'.
Proof.
  induction 1 as [|p1 p2 p3 [l Hs] _ IH]; [done|].
  destruct IH as (-> & -> & -> & Hp').
  destruct (step_frame l p1 p2 Hs) as (-> & -> & -> & Hp). split_and!; try done.
  by trans (finished p2).
Qed.

Lemma rtc_step_inv p p' : rtc step p p' -> pool_inv p -> pool_inv p'.
Proof. induction 1 as [|p1 p2 p3 [l Hs] _ IH]; eauto using step_inv. Qed.

(** ** Termination *)

Lemma step_work_left l p p' : pool_step l p p' -> work_left p' < work_left p.
Proof.
  intros [n j q r st f sd subs Hlt|n q r st f sd subs j o Hj]; unfold work_left; simpl.
  - rewrite length_app. simpl. lia.
  - pose proof (remove_one_length j r Hj). lia.
Qed.

Lemma step_sn p : sn step p.
Proof.
  remember (work_left p) as m eqn:Hm. revert p Hm.
  induction (lt_wf m) as [m _ IH]. intros p ->.
  constructor. intros p' [l Hs]. apply (IH (work_left p')); [|done].
  by apply step_work_left with l.
Qed.

(** Without a free worker nor a running item, or with [max_workers = 0],
    no transition is enabled exactly when the pool is idle. *)
Lemma nf_idle `{Inhabited Out} p : 0 < max_workers p -> nf step p -> idle p.
Proof.
  destruct p as [n q r st f sd subs]; simpl. intros Hn Hnf.
  destruct r as [|j r].
  - destruct q as [|j q]; [done|]. exfalso. apply Hnf.
    eexists _, PStart. constructor. simpl. lia.
  - exfalso. apply Hnf. eexists _, (PFinish j inhabitant). constructor. apply list_elem_of_here.
Qed.

Lemma idle_nf p : idle p -> nf step p.
Proof.
  destruct p as [n q r st f sd subs]. intros [Hq Hr] [p' [l Hs]]; simpl in *; subst.
  inversion Hs; subst; match goal with H : _ ∈ [] |- _ => by apply elem_of_nil in H end.
Qed.

Lemma begin_shutdown_inv p : pool_inv p -> pool_inv (begin_shutdown p).
Proof. by intros [? ? ?]; constructor. Qed.

(** An idle pool has finished every item submitted to it, each once. *)
Lemma idle_finished p : pool_inv p -> idle p -> map fst (finished p) ≡ₚ submitted p.
Proof.
  intros [Hfifo Hst _] [Hq Hr]. rewrite Hq, app_nil_r in Hfifo. rewrite Hr in Hst.
  by rewrite <- Hfifo, <- Hst.
Qed.

(** ** The workers' own order reaches an idle pool *)

Lemma drain_rtc res fuel p : rtc step p (drain res fuel p).
Proof.
  revert p. induction fuel as [|fuel IH]; intros p; cbn [drain]; [done|].
  destruct (pool_apply PStart p) as [p'|] eqn:Hs.
  - apply pool_apply_spec in Hs. eapply rtc_l; [by exists PStart|apply IH].
  - destruct (running p) as [|j r]; [done|].
    destruct (pool_apply (PFinish j (res j)) p) as [p'|] eqn:Hf; [|done].
    apply pool_apply_spec in Hf. eapply rtc_l; [by eexists|apply IH].
Qed.

Lemma drain_idle res fuel p : 0 < max_workers p -> work_left p <= fuel -> idle (drain res fuel p).
Proof.
  revert p. induction fuel as [|fuel IH]; intros p Hn Hw; cbn [drain].
  - unfold work_left in Hw. split; apply nil_length_inv; lia.
  - destruct (pool_apply PStart p) as [p'|] eqn:Hs.
    + apply pool_apply_spec in Hs as Hstep.
      destruct (step_frame _ _ _ Hstep) as (_ & Hn' & _).
      pose proof (step_work_left _ _ _ Hstep). apply IH; lia.
    + destruct p as [n q r st f sd subs]; simpl in *.
      destruct r as [|j r].
      * destruct q as [|j q]; [done|]. simpl in Hs. by rewrite decide_True in Hs by (simpl; lia).
      * simpl. rewrite decide_True by apply list_elem_of_here.
        pose proof (step_work_left (PFinish j (res j)) (mk_pool n q (j :: r) st f sd subs)
          _ (step_finish _ _ _ _ _ _ _ _ _ (list_elem_of_here j r))) as Hlt.
        apply IH; simpl in *; lia.
Qed.

(** ** One worker *)

Lemma fifo1_step l p p' :
  pool_step l p p' -> max_workers p = 1%nat -> pool_inv p -> fifo1_inv p -> fifo1_inv p'.
Proof.
  unfold fifo1_inv. intros [n j q r st f sd subs Hlt|n q r st f sd subs j o Hj] Hn [_ _ Hb];
    simpl in *; subst n.
  - destruct r; simpl in *; [|lia]. intros <-. by rewrite app_nil_r.
  - destruct r as [|j' [|? ?]]; simpl in *; [by apply elem_of_nil in Hj| |lia].
    apply list_elem_of_singleton in Hj as ->. rewrite decide_True by done.
    intros <-. by rewrite map_app, app_nil_r.
Qed.

Lemma trans_fifo1 p p' :
  trans p p' -> max_workers p = 1%nat -> pool_inv p -> fifo1_inv p -> fifo1_inv p' /\ max_workers p' = 1%nat.
Proof.
  intros [[l Hs]|[j Hs]] Hn Hinv Hf.
  - split; [by apply (fifo1_step l p)|]. by destruct (step_frame _ _ _ Hs) as (_ & -> & _).
  - revert Hs. unfold submit. destruct (is_shutdown p); intros [= <-]. done.
Qed.

Lemma rtc_trans_inv p p' : rtc trans p p' -> pool_inv p -> pool_inv p'.
Proof. induction 1; eauto using trans_inv. Qed.

Lemma trans_max_workers p p' : trans p p' -> max_workers p' = max_workers p.
Proof.
  intros [[l Hs]|[j Hs]]; [by destruct (step_frame _ _ _ Hs) as (_ & -> & _)|].
  revert Hs. unfold submit. destruct (is_shutdown p); by intros [= <-].
Qed.

Lemma rtc_trans_max_workers p p' : rtc trans p p' -> max_workers p' = max_workers p.
Proof. induction 1 as [|p1 p2 p3 Ht _ IH]; [done|]. rewrite IH. by apply trans_max_workers. Qed.

Lemma executor_max_workers n p : executor n = Ok p -> (0 < n)%Z /\ max_workers p = Z.to_nat n.
Proof. unfold executor. destruct (Z.leb_spec n 0); intros [= <-]; simpl; auto with lia. Qed.

Lemma run_ops_rtc ops p p' : run_ops ops p = Some p' -> rtc trans p p'.
Proof.
  revert p. induction ops as [|[j|l] ops IH]; intros p; simpl; [by intros [= <-]|..].
  - destruct (submit j p) as [p1|] eqn:Hs; [|done].
    intros H. eapply rtc_l; [right; by exists j|]. by apply IH.
  - destruct (pool_apply l p) as [p1|] eqn:Hs; [|done].
    intros H. apply pool_apply_spec in Hs. eapply rtc_l; [left; by exists l|]. by apply IH.
Qed.

Lemma run_schedule_rtc ls p : rtc step p (run_schedule ls p).
Proof.
  revert p. induction ls as [|l ls IH]; intros p; simpl; [done|].
  destruct (pool_apply l p) as [p'|] eqn:Hs; [|done].
  apply pool_apply_spec in Hs. eapply rtc_l; [by exists l|]. apply IH.
Qed.

Lemma pool_reachable_inv_aux n p :
  pool_reachable n p -> pool_inv p /\ max_workers p = Z.to_nat n /\ (0 < n)%Z.
Proof.
  intros (p0 & He & Hr). destruct (executor_max_workers n p0 He) as [Hn Hm].
  split_and!; [|by rewrite (rtc_trans_max_workers _ _ Hr)|done].
  apply (rtc_trans_inv p0); [done|]. by apply (executor_inv n).
Qed.

(** Whatever order the workers take, [shutdown(wait=True)] returns with
    the pool idle and every submitted item finished once. *)
Lemma shutdown_wait_idle `{Inhabited Out} p p' :
  pool_inv p -> 0 < max_workers p -> shutdown_wait p p' ->
  idle p' /\ map fst (finished p') ≡ₚ submitted p /\ finished p `prefix_of` finished p'.
Proof.
  intros Hinv Hn [Hr Hnf].
  destruct (rtc_step_frame _ _ Hr) as (Hs & Hm & _ & Hp). simpl in *.
  assert (Hidle : idle p') by (apply nf_idle; [lia|done]).
  split_and!; [done| |done]. rewrite <- Hs.
  apply idle_finished; [|done]. apply (rtc_step_inv _ _ Hr), begin_shutdown_inv, Hinv.
Qed.

Lemma drain_shutdown_wait res p :
  0 < max_workers p ->
  shutdown_wait p (drain res (work_left (begin_shutdown p)) (begin_shutdown p)).
Proof.
  intros Hn. split; [apply drain_rtc|]. by apply idle_nf, drain_idle.
Qed.

Lemma rtc_trans_fifo1 p p' :
  rtc trans p p' -> max_workers p = 1%nat -> pool_inv p -> fifo1_inv p -> fifo1_inv p'.
Proof.
  induction 1 as [|p1 p2 p3 Ht _ IH]; [done|]. intros Hm Hinv Hf.
  destruct (trans_fifo1 _ _ Ht Hm Hinv Hf) as [Hf' Hm'].
  apply IH; [exact Hm' | by apply (trans_inv p1) | exact Hf'].
Qed.

(** ** The pool's main lemmas *)

(** Every pool reachable from [ThreadPoolExecutor(max_workers=n)] by
    submissions and worker transitions: the workers have taken the items
    in submission order, every item taken is running or finished, and
    finished at most once, and at most [n] items run at the same time;
    and [n] is positive. *)
Lemma pool_reachable_inv n p :
  pool_reachable n p ->
  started p ++ work_queue p = submitted p /\
  running p ++ map fst (finished p) ≡ₚ started p /\
  length (running p) <= Z.to_nat n /\ (0 < n)%Z.
Proof.
  intros Hr. destruct (pool_reachable_inv_aux n p Hr) as ([Hf Hs Hb] & Hm & Hn).
  split_and!; [done|done|lia|done].
Qed.

(** The workers stop: no run of the pool's transitions is infinite,
    and a run takes at most twice the queued items plus the running ones
    transitions. *)
Lemma pool_terminates p :
  sn step p /\ forall k p', nsteps step k p p' -> k <= work_left p.
Proof.
  split; [apply step_sn|]. intros k p' Hk. induction Hk as [p|k p1 p2 p3 [l Hs] _ IH]; [lia|].
  pose proof (step_work_left _ _ _ Hs). lia.
Qed.

(** [shutdown(wait=True)] on a pool with at least one worker returns,
    whatever order the items complete in, and when it returns the pool is
    idle, every item submitted has finished exactly once, and the futures
    finished before are kept. *)
Lemma shutdown_wait_spec `{Inhabited Out} p :
  pool_inv p -> 0 < max_workers p ->
  (exists p', shutdown_wait p p') /\
  (forall p', shutdown_wait p p' ->
     idle p' /\ map fst (finished p') ≡ₚ submitted p /\ finished p `prefix_of` finished p').
Proof.
  intros Hinv Hn. split.
  - eexists. by apply (drain_shutdown_wait (fun _ => inhabitant)).
  - intros p' Hw. by apply shutdown_wait_idle.
Qed.

(** With one worker the futures finish in submission order: the
    completed items are a prefix of the submitted ones. *)
Theorem single_worker_fifo p :
  pool_reachable 1 p -> map fst (finished p) `prefix_of` submitted p.
Proof.
  intros (p0 & He & Hr).
  assert (Hinv0 : pool_inv p0) by by apply (executor_inv 1).
  unfold executor in He. simpl in He. injection He as <-.
  destruct (pool_reachable_inv_aux 1 p) as ([Hfifo _ _] & _ & _); [by exists (mk_pool 1 [] [] [] [] false [])|].
  pose proof (rtc_trans_fifo1 _ _ Hr eq_refl Hinv0 eq_refl) as Hgen. unfold fifo1_inv in Hgen.
  rewrite <- Hfifo, <- Hgen, <- app_assoc.
  by eexists.
Qed.

End Pool.

Arguments pool_label : clear implicits.
Arguments pool : clear implicits.
Arguments pool_op : clear implicits.

End Pool.
