(* ===== verification/PoolEnv.v ===== *)
(** The thread pool under the session: the environment [Poller.env] built
    from [ThreadPoolExecutor] runs.

    In a round (src/wait_for_connection.py, lines 107-116) the
    comprehension submits futures 0 to n-1 to the executor of line 96 and
    [as_completed] yields the futures that finish before the deadline.  A
    round begins with an idle executor: the previous round's
    [as_completed] returned, so all its futures had finished, or the loop
    was left.  [round_pool] is that executor after the submissions;
    [pool_completions] is what [as_completed] yields when the workers
    make the transitions a scheduler proposes before the deadline; and
    [pool_env] is the session's environment whose completions are those.

    The theorems: such an environment satisfies [env_wf], the assumption
    of the session's refinement and invariant theorems; [as_completed]
    returns without its timeout exactly when the executor is idle; and
    after the timeout the [shutdown(wait=True)] of the [with] block still
    waits for every future that had not finished; and the records the
    workers log in [check_url] (lines 62, 64) match the futures started
    and answered. *)

From stdpp Require Import base list relations strings.
From Stdlib Require Import ZArith Lia.
From S2P Require Import Prelude PyExc UrlState Round Poller Pool.
Import PyExc UrlState Round Poller Pool.

Module PoolEnv.

Abbreviation upool := (pool nat urlopen_outcome).
Abbreviation ulabel := (pool_label nat urlopen_outcome).

#[export] Instance urlopen_outcome_inhabited : Inhabited urlopen_outcome := populate Opened.

(** [ThreadPoolExecutor(max_workers=w)] after [exe.submit] of futures
    [0 .. n-1]. *)
Definition round_pool (w : Z) (n : nat) : result upool :=
  match executor w with
  | Ok p => submit_all (seq 0 n) p
  | Raise e => Raise e
  end.

(** What [as_completed] yields: the futures finished when the transitions
    [sched] have been made, in completion order, with their results. *)
Definition pool_completions (w : Z) (sched : list ulabel) (n : nat)
    : list (nat * urlopen_outcome) :=
  match round_pool w n with
  | Ok p => finished (run_schedule sched p)
  | Raise _ => []
  end.

(** The session's environment when the network's behaviour is a schedule
    of the pool per round. *)
Definition pool_env (w : Z) (clk : nat -> Z) (sched : nat -> list url -> list ulabel) : env :=
  mk_env clk (fun k futs => pool_completions w (sched k futs) (length futs)).

(** ** The workers' log records (lines 62 and 64)

    [check_url] runs in the worker thread that takes the future's item:
    it logs [Trying to reach <url>] before [urlopen] and [Reached <url>]
    when [urlopen] returned; a failing [urlopen] logs nothing more.  A
    record names the future, whose URL its text prints. *)
Inductive wrecord := WTrying (j : nat) | WReached (j : nat).

(** The records of one transition of the workers. *)
Definition worker_records (l : ulabel) (p : upool) : list wrecord :=
  match l with
  | PStart => match work_queue p with j :: _ => [WTrying j] | [] => [] end
  | PFinish j Opened => [WReached j]
  | PFinish _ (Failed _) => []
  end.

(** [run_schedule] with the records the workers log, in order. *)
Fixpoint run_schedule_log (ls : list ulabel) (p : upool) : upool * list wrecord :=
  match ls with
  | [] => (p, [])
  | l :: ls =>
      match pool_apply l p with
      | Some p' => let '(q, rs) := run_schedule_log ls p' in (q, worker_records l p ++ rs)
      | None => run_schedule_log ls p
      end
  end.

Definition tried (rs : list wrecord) : list nat :=
  omap (fun r => match r with WTrying j => Some j | WReached _ => None end) rs.
Definition reached (rs : list wrecord) : list nat :=
  omap (fun r => match r with WReached j => Some j | WTrying _ => None end) rs.

(** The futures whose [urlopen] returned, in completion order. *)
Definition opened (done : list (nat * urlopen_outcome)) : list nat :=
  omap (fun c => match c.2 with Opened => Some c.1 | Failed _ => None end) done.

(** ** Lemmas *)

Lemma submit_all_ok (js : list nat) (p : upool) :
  is_shutdown p = false ->
  exists p', submit_all js p = Ok p' /\ rtc trans p p' /\ submitted p' = submitted p ++ js.
Proof.
  revert p. induction js as [|j js IH]; intros p Hsd; simpl.
  - exists p. by rewrite app_nil_r.
  - unfold submit at 1. rewrite Hsd.
    destruct (IH (mk_pool (max_workers p) (work_queue p ++ [j]) (running p) (started p)
                (finished p) false (submitted p ++ [j])) eq_refl) as (p' & Hs & Hr & Hsub).
    exists p'. split_and!; [done| |by rewrite Hsub; simpl; rewrite <- app_assoc].
    eapply rtc_l; [|exact Hr]. right. exists j. unfold submit. by rewrite Hsd.
Qed.

Lemma round_pool_reachable w n p :
  round_pool w n = Ok p -> pool_reachable w p /\ submitted p = seq 0 n.
Proof.
  unfold round_pool. destruct (executor w) as [p0|] eqn:He; [|done].
  assert (Hsd : is_shutdown p0 = false /\ submitted p0 = []).
  { revert He. unfold executor. case_match; by intros [= <-]. }
  destruct Hsd as [Hsd Hsub].
  destruct (submit_all_ok (seq 0 n) p0 Hsd) as (p' & Hs & Hr & Hsub'). rewrite Hs.
  intros [= <-]. split; [by exists p0|]. by rewrite Hsub', Hsub.
Qed.

(** The futures finished in a pool whose submissions are distinct are
    distinct and were submitted. *)
Lemma finished_submitted (p : upool) :
  pool_inv p -> NoDup (submitted p) ->
  NoDup (map fst (finished p)) /\ forall c, c ∈ finished p -> c.1 ∈ submitted p.
Proof.
  intros [Hfifo Hst _] Hnd. rewrite <- Hfifo in Hnd |- *.
  apply NoDup_app in Hnd as [Hnd _]. rewrite <- Hst in Hnd.
  apply NoDup_app in Hnd as (_ & _ & Hnd). split; [done|].
  intros c Hc. apply elem_of_app. left. rewrite <- Hst. apply elem_of_app. right.
  apply list_elem_of_fmap. by exists c.
Qed.

Lemma round_schedule_inv w n sched p :
  round_pool w n = Ok p ->
  pool_inv (run_schedule sched p) /\ submitted (run_schedule sched p) = seq 0 n /\
  0 < max_workers (run_schedule sched p).
Proof.
  intros Hp. destruct (round_pool_reachable w n p Hp) as [Hr Hsub].
  destruct (pool_reachable_inv_aux w p Hr) as (Hinv & Hm & Hw).
  destruct (rtc_step_frame _ _ (run_schedule_rtc sched p)) as (-> & -> & _).
  split_and!; [|done|lia]. apply (rtc_step_inv p); [apply run_schedule_rtc|done].
Qed.

Lemma all_completed_of_perm futs (done : list (nat * urlopen_outcome)) :
  map fst done ≡ₚ seq 0 (length futs) -> all_completed futs done = true.
Proof.
  intros Hp. apply all_completed_spec. intros j Hj. rewrite Hp. apply elem_of_seq. lia.
Qed.

(** When every future of the round has finished, no item is queued or
    running. *)
Lemma all_finished_idle (p : upool) n :
  pool_inv p -> submitted p = seq 0 n ->
  (forall j, j < n -> j ∈ map fst (finished p)) -> idle p.
Proof.
  intros Hinv Hsub Hall. destruct Hinv as [Hfifo Hst Hb].
  assert (Hle : n <= length (map fst (finished p))).
  { rewrite <- (length_seq n 0). apply NoDup_incl_length_le; [apply NoDup_seq|].
    intros j Hj%elem_of_seq. apply Hall. lia. }
  pose proof (f_equal length Hfifo) as Hl1. pose proof (Permutation_length Hst) as Hl2.
  rewrite Hsub, length_seq, length_app in Hl1. rewrite length_app in Hl2.
  split; apply nil_length_inv; lia.
Qed.

Lemma tried_app rs rs' : tried (rs ++ rs') = tried rs ++ tried rs'.
Proof. apply omap_app. Qed.

Lemma reached_app rs rs' : reached (rs ++ rs') = reached rs ++ reached rs'.
Proof. apply omap_app. Qed.

(** One transition: the records extend the start and completion orders. *)
Lemma worker_records_step l p p' :
  pool_step l p p' ->
  started p' = started p ++ tried (worker_records l p) /\
  opened (finished p') = opened (finished p) ++ reached (worker_records l p) /\
  (forall j, WReached j ∈ worker_records l p -> j ∈ running p).
Proof.
  intros []; simpl.
  - split_and!; [done|by rewrite app_nil_r|]. intros x Hx. elem_cases Hx.
  - unfold opened. rewrite omap_app. destruct o; simpl; rewrite ?app_nil_r; split_and!; try done;
      intros x Hx; elem_cases Hx; by simplify_eq.
Qed.

Lemma run_schedule_log_fst ls p : (run_schedule_log ls p).1 = run_schedule ls p.
Proof.
  revert p. induction ls as [|l ls IH]; intros p; simpl; [done|].
  destruct (pool_apply l p); [|apply IH]. rewrite <- IH. by destruct (run_schedule_log ls _).
Qed.

(** The records of a run: one [Trying] per item started, one [Reached]
    per item finished with [Opened], and a [Reached] only after the
    [Trying] of its future. *)
Lemma run_schedule_log_spec ls p :
  pool_inv p ->
  started (run_schedule ls p) = started p ++ tried (run_schedule_log ls p).2 /\
  opened (finished (run_schedule ls p)) = opened (finished p) ++ reached (run_schedule_log ls p).2 /\
  (forall pre j post, (run_schedule_log ls p).2 = pre ++ WReached j :: post ->
     j ∈ started p ++ tried pre).
Proof.
  revert p. induction ls as [|l ls IH]; intros p Hinv; simpl.
  { rewrite !app_nil_r. split_and!; [done..|]. intros pre j post Hl. by destruct pre. }
  destruct (pool_apply l p) as [p'|] eqn:Ha; [|by apply IH].
  apply pool_apply_spec in Ha. pose proof (step_inv l p p' Ha Hinv) as Hinv'.
  destruct (worker_records_step l p p' Ha) as (Hst & Hop & Hrun).
  destruct (IH p' Hinv') as (Hst' & Hop' & Hpre).
  destruct (run_schedule_log ls p') as [q rs] eqn:Hq. simpl in *.
  rewrite Hst', Hop', Hst, Hop, <- !app_assoc, tried_app, reached_app.
  split_and!; [done..|]. intros pre j post Hl.
  apply app_eq_app in Hl as (mid & [[Hw Hl] | [-> Hl]]).
  - destruct mid as [|r mid]; simpl in Hl.
    + pose proof (Hpre [] j post ltac:(by rewrite <- Hl)) as H.
      by rewrite app_nil_r, Hst, Hw, app_nil_r in H.
    + injection Hl as Hr _. subst r. apply elem_of_app. left. rewrite <- (inv_started _ Hinv).
      apply elem_of_app. left. apply Hrun. rewrite Hw. apply elem_of_app. right. apply list_elem_of_here.
  - rewrite tried_app, app_assoc, <- Hst. by apply (Hpre mid j post).
Qed.

(** The round's executor has started and finished nothing. *)
Lemma round_pool_fresh w n p : round_pool w n = Ok p -> started p = [] /\ finished p = [].
Proof.
  intros Hp. unfold round_pool, executor in Hp. destruct (w <=? 0)%Z; [discriminate|].
  revert Hp. generalize (seq 0 n).
  assert (Hgen : forall js (p0 : upool), started p0 = [] -> finished p0 = [] ->
            submit_all js p0 = Ok p -> started p = [] /\ finished p = []).
  { induction js as [|j js IH]; intros p0 Hs Hf; simpl; [by intros [= <-]|].
    unfold submit. destruct (is_shutdown p0); [done|]. by apply IH. }
  intros js. by apply Hgen.
Qed.

(** ** Properties *)

(** The pool implements the environment the session's theorems
    assume: whatever the pool size, clock and schedules, what
    [as_completed] yields in each round are submitted futures, each at
    most once, so [pool_env] satisfies [env_wf]. *)
Lemma pool_env_wf w clk sched : env_wf (pool_env w clk sched).
Proof.
  intros k futs. simpl. unfold pool_completions.
  destruct (round_pool w (length futs)) as [p|] eqn:Hp; [|reflexivity].
  destruct (round_schedule_inv w (length futs) (sched k futs) p Hp) as (Hinv & Hsub & _).
  apply completions_ok_spec.
  destruct (finished_submitted _ Hinv) as [Hnd Hin]; [rewrite Hsub; apply NoDup_seq|].
  split; [done|]. intros c Hc. specialize (Hin c Hc). rewrite Hsub in Hin.
  apply elem_of_seq in Hin. lia.
Qed.

(** [as_completed] returns without raising its timeout exactly when
    the executor of the round is idle: every future submitted has
    finished and no item is queued or running. *)
Lemma as_completed_returns_iff_idle w sched futs p :
  round_pool w (length futs) = Ok p ->
  all_completed futs (finished (run_schedule sched p)) = true <-> idle (run_schedule sched p).
Proof.
  intros Hp. destruct (round_schedule_inv w (length futs) sched p Hp) as (Hinv & Hsub & _).
  split.
  - intros Hall. apply (all_finished_idle _ (length futs) Hinv Hsub).
    by apply all_completed_spec.
  - intros Hidle. apply all_completed_of_perm. rewrite <- Hsub. by apply idle_finished.
Qed.

(** After [as_completed] raised its timeout, leaving the [with]
    block does not return at the deadline: every run of
    [shutdown(wait=True)] finishes at least one more probe, and it ends
    only when every future of the round has finished. *)
Lemma timeout_shutdown_waits w sched futs p p' :
  round_pool w (length futs) = Ok p ->
  all_completed futs (finished (run_schedule sched p)) = false ->
  shutdown_wait (run_schedule sched p) p' ->
  (length (finished (run_schedule sched p)) < length (finished p'))%nat /\
  map fst (finished p') ≡ₚ seq 0 (length futs).
Proof.
  intros Hp Hto Hw. destruct (round_schedule_inv w (length futs) sched p Hp) as (Hinv & Hsub & Hn).
  destruct (shutdown_wait_idle _ p' Hinv Hn Hw) as (_ & Hperm & Hpre). rewrite Hsub in Hperm.
  split; [|done].
  apply Nat.lt_nge. intros Hle. rewrite (prefix_length_eq _ _ Hpre ltac:(lia)) in Hto.
    by rewrite all_completed_of_perm in Hto.
Qed.

(** C15: The workers' log of a round ([check_url], lines 62 and 64): for
    the round's executor and any schedule of its workers, the [Trying to
    reach] records name the futures in the order the workers took them,
    each once; the [Reached] records name exactly the futures
    [as_completed] yields as answered, in completion order, so every
    [OK:<url>] the session logs for the round has the worker's
    [Reached <url>] record; and a future's [Reached] record comes after
    its [Trying to reach] record. *)
Theorem worker_log_spec w n sched p :
  round_pool w n = Ok p ->
  tried (run_schedule_log sched p).2 = started (run_schedule sched p) /\
  NoDup (tried (run_schedule_log sched p).2) /\
  reached (run_schedule_log sched p).2 = opened (pool_completions w sched n) /\
  (forall pre j post, (run_schedule_log sched p).2 = pre ++ WReached j :: post -> j ∈ tried pre).
Proof.
  intros Hp. destruct (round_pool_fresh w n p Hp) as [Hs0 Hf0].
  destruct (round_schedule_inv w n [] p Hp) as (Hinv & _ & _). simpl in Hinv.
  destruct (round_schedule_inv w n sched p Hp) as (Hinv' & Hsub & _).
  destruct (run_schedule_log_spec sched p Hinv) as (Hst & Hop & Hpre).
  rewrite Hs0 in Hst, Hpre. rewrite Hf0 in Hop. simpl in Hst, Hop, Hpre. unfold pool_completions. rewrite Hp.
  split_and!.
  - done.
  - rewrite <- Hst. pose proof (NoDup_seq 0 n) as Hnd. rewrite <- Hsub, <- (inv_fifo _ Hinv') in Hnd.
    by apply NoDup_app in Hnd as [? _].
  - done.
  - exact Hpre.
Qed.

(** ** A round with one worker and two URLs *)

Definition demo_round : upool := mk_pool 1 [0; 1] [] [] [] false [0; 1].

(** Both probes run: A answers, B fails with [URLError]. *)
Definition sched_all : list ulabel :=
  [PStart; PFinish 0 Opened; PStart; PFinish 1 (Failed URLError)].

Lemma worker_log_spec_witness :
  round_pool 1 (length ["A"; "B"]%string) = Ok demo_round /\
  (run_schedule_log sched_all demo_round).2 = [WTrying 0; WReached 0; WTrying 1] /\
  reached (run_schedule_log sched_all demo_round).2 =
    opened (pool_completions 1 sched_all (length ["A"; "B"]%string)).
Proof.
  assert (Hp : round_pool 1 (length ["A"; "B"]%string) = Ok demo_round) by reflexivity.
  split; [exact Hp|]. split; [vm_compute; reflexivity|].
  exact (proj1 (proj2 (proj2 (worker_log_spec 1 _ sched_all demo_round Hp)))).
Defined.

End PoolEnv.
