(* ===== verification/TimedPool.v ===== *)
(** The thread pool in time: how long the workers of a round take, and so
    how long the [shutdown(wait=True)] of the [with] block
    (src/wait_for_connection.py, line 96) can keep the session past its
    deadline after [as_completed] raised its timeout (lines 114-116).

    [Pool.pool_step] says which transitions the workers can make, not
    when.  Here each probe of the round, [check_url] on future [j]
    (lines 55-65), takes [dur j] ticks of wall time, and the workers
    behave as [ThreadPoolExecutor]'s do: a free worker takes the head of
    the work queue at once, and otherwise the running probe that returns
    first finishes.  [tstep] is one such event, [timed_run] the run of
    the round, each event stamped with the time it happens.

    The theorems: every timed run is a run of the untimed pool, in time
    order; [as_completed] yields the futures that return by the deadline,
    in the order they return, and raises its timeout exactly when the
    round's last probe returns after it; with [w] workers, [n] futures and probes of at most [D] ticks,
    every future of a round started at [t0] has returned by [t0 + D +
    (n - 1) * D / w]; and with one worker and probes of exactly [D] ticks
    the last one returns at [t0 + n * D], so the bound is reached.
    [urlopen(url, timeout=timeout)] bounds each blocking socket operation
    by [timeout], not the whole probe (name resolution is not bounded),
    so [D] is an assumption on the network. *)

From stdpp Require Import base list relations strings.
From Stdlib Require Import ZArith Lia Sorted.
From S2P Require Import Prelude PyExc UrlState Round Pool PoolEnv.
Import PyExc UrlState Round Pool PoolEnv.

Module TimedPool.

(** ** Sums of ticks *)

Definition zsum (l : list Z) : Z := foldr Z.add 0%Z l.

Lemma zsum_app l l' : zsum (l ++ l') = (zsum l + zsum l')%Z.
Proof. induction l as [|x l IH]; simpl; lia. Qed.

Lemma zsum_perm l l' : l ≡ₚ l' -> zsum l = zsum l'.
Proof. induction 1; simpl; lia. Qed.

Lemma zsum_nonneg l : Forall (fun x => 0 <= x)%Z l -> (0 <= zsum l)%Z.
Proof. induction 1; simpl; lia. Qed.

Lemma zsum_le_const l c : Forall (fun x => x <= c)%Z l -> (zsum l <= Z.of_nat (length l) * c)%Z.
Proof. induction 1; simpl; lia. Qed.

Lemma zsum_map_sub {A} (f : A -> Z) (c : Z) (l : list A) :
  zsum (map (fun x => f x - c)%Z l) = (zsum (map f l) - Z.of_nat (length l) * c)%Z.
Proof. induction l as [|x l IH]; simpl; lia. Qed.

(** The completions of a run of events, in the order they happen. *)
Definition finishes (evs : list (ulabel * Z)) : list (nat * urlopen_outcome) :=
  omap (fun e => match e.1 with PFinish j o => Some (j, o) | PStart => None end) evs.

(** What [as_completed(future_to_url, timeout=time_left)] (lines
    114-116) yields in a timed round: the futures whose probes have
    returned by the deadline, in the order they returned. *)
Definition timed_completions (evs : list (ulabel * Z)) (deadline : Z) : list (nat * urlopen_outcome) :=
  finishes (filter (fun e => bool_decide (e.2 <= deadline)%Z) evs).

Lemma finishes_app evs evs' : finishes (evs ++ evs') = finishes evs ++ finishes evs'.
Proof. apply omap_app. Qed.

(** Events all before, or all after, the deadline. *)
Lemma filter_deadline_all (evs : list (ulabel * Z)) d (b : bool) :
  (forall e, e ∈ evs -> bool_decide (e.2 <= d)%Z = b) ->
  filter (fun e => bool_decide (e.2 <= d)%Z) evs = if b then evs else [].
Proof.
  induction evs as [|e evs IH]; intros Hall; [by destruct b|].
  rewrite filter_cons. pose proof (Hall e ltac:(constructor)) as He.
  rewrite IH by (intros e' He'; apply Hall; by constructor).
  destruct b; case_bool_decide; done.
Qed.

(** In time order, the events up to a deadline are a prefix. *)
Lemma filter_sorted_prefix (t : Z) (evs : list (ulabel * Z)) d :
  Sorted Z.le (t :: map snd evs) ->
  filter (fun e => bool_decide (e.2 <= d)%Z) evs `prefix_of` evs.
Proof.
  intros Hs. apply Sorted_StronglySorted in Hs; [|intros ???; lia].
  apply StronglySorted_inv in Hs as [Hs _]. induction evs as [|e evs IH]; [done|].
  simpl in Hs. apply StronglySorted_inv in Hs as [Hs Hall].
  rewrite filter_cons. case_bool_decide.
  - by apply prefix_cons, IH.
  - rewrite (filter_deadline_all _ _ false); [apply prefix_nil|].
    intros e' He'. apply bool_decide_false.
    assert (Hin : e'.2 ∈ map snd evs) by (apply list_elem_of_fmap; by exists e').
    rewrite Forall_forall in Hall. specialize (Hall e'.2 Hin). lia.
Qed.

Section Timed.

(** Consider the wall time each probe of the round takes ... *)
Variable dur : nat -> Z.
(** ... and what each [urlopen] gives. *)
Variable res : nat -> urlopen_outcome.

(** A round's executor in time: the pool, the time of the last event,
    and for each running item the time its probe returns. *)
Record tpool := mk_tpool {
  tp_pool : upool;
  tp_now : Z;
  tp_busy : list (nat * Z)
}.

(** The running probe that returns first (the first one of the earliest). *)
Definition earliest (busy : list (nat * Z)) : option (nat * Z) :=
  foldr (fun x acc => match acc with
                      | Some y => if (x.2 <=? y.2)%Z then Some x else Some y
                      | None => Some x
                      end) None busy.

(** One event: a free worker takes the head of the queue now; otherwise
    the earliest running probe returns, and time moves to its return. *)
Definition tstep (t : tpool) : option (ulabel * tpool) :=
  match work_queue (tp_pool t), pool_apply PStart (tp_pool t) with
  | j :: _, Some p' => Some (PStart, mk_tpool p' (tp_now t) (tp_busy t ++ [(j, tp_now t + dur j)%Z]))
  | _, _ =>
      match earliest (tp_busy t) with
      | None => None
      | Some (j, f) =>
          match pool_apply (PFinish j (res j)) (tp_pool t) with
          | Some p' => Some (PFinish j (res j), mk_tpool p' f (remove_one (j, f) (tp_busy t)))
          | None => None
          end
      end
  end.

(** The events of the round, each with the time it happens. *)
Fixpoint timed_run (fuel : nat) (t : tpool) : tpool * list (ulabel * Z) :=
  match fuel with
  | O => (t, [])
  | S fuel =>
      match tstep t with
      | None => (t, [])
      | Some (l, t') => let '(t'', evs) := timed_run fuel t' in (t'', (l, tp_now t') :: evs)
      end
  end.

(** The times at which probes return. *)
Definition finish_times (evs : list (ulabel * Z)) : list Z :=
  omap (fun e => match e.1 with PFinish _ _ => Some e.2 | PStart => None end) evs.

(** The work the probes started so far need, and what is left of it. *)
Definition started_work (p : upool) : Z := zsum (map dur (started p)).
Definition remaining (t : tpool) : Z := zsum (map (fun x => x.2 - tp_now t) (tp_busy t))%Z.

(** ** The run is a run of the pool *)

Lemma earliest_none busy : earliest busy = None -> busy = [].
Proof.
  destruct busy as [|x busy]; [done|]. simpl.
  destruct (earliest busy); [destruct (_ <=? _)%Z|]; discriminate.
Qed.

Lemma earliest_spec busy x :
  earliest busy = Some x -> x ∈ busy /\ forall y, y ∈ busy -> (x.2 <= y.2)%Z.
Proof.
  revert x. induction busy as [|z busy IH]; intros x; simpl; [discriminate|].
  destruct (earliest busy) as [y|] eqn:E.
  - destruct (IH y eq_refl) as [Hy Hmin]. destruct (Z.leb_spec z.2 y.2); intros [= <-].
    + split; [constructor|]. intros u [->|Hu]%elem_of_cons; [lia|]. specialize (Hmin u Hu). lia.
    + split; [by constructor|]. intros u [->|Hu]%elem_of_cons; [lia|]. by apply Hmin.
  - intros [= <-]. apply earliest_none in E as ->. split; [constructor|].
    intros u [->|Hu]%elem_of_cons; [lia|]. by apply elem_of_nil in Hu.
Qed.


(** A probe takes no negative time. *)
Hypothesis dur_nonneg : forall j, (0 <= dur j)%Z.

(** What a timed pool keeps: the running items are those with a return
    time, and no probe returns in the past. *)
Record tinv (t : tpool) : Prop := {
  ti_pool : pool_inv (tp_pool t);
  ti_busy : map fst (tp_busy t) ≡ₚ running (tp_pool t);
  ti_future : forall x, x ∈ tp_busy t -> (tp_now t <= x.2)%Z
}.

Lemma map_fst_remove_one (busy : list (nat * Z)) x :
  x ∈ busy -> map fst busy ≡ₚ x.1 :: map fst (remove_one x busy).
Proof. intros Hx. rewrite (remove_one_perm x busy Hx) at 1. done. Qed.

(** Each event is a transition of the pool, keeps [tinv], and does not
    go back in time. *)
Lemma tstep_spec t l t' :
  tstep t = Some (l, t') -> tinv t ->
  pool_step l (tp_pool t) (tp_pool t') /\ tinv t' /\ (tp_now t <= tp_now t')%Z.
Proof.
  intros Hs [Hinv Hbusy Hfut]. unfold tstep in Hs.
  destruct (work_queue (tp_pool t)) as [|j q] eqn:Hq;
    [|destruct (pool_apply PStart (tp_pool t)) as [p'|] eqn:Ha].
  2:{ injection Hs as <- <-. apply pool_apply_spec in Ha as Hst.
      split; [done|]. split; [|simpl; lia]. split; simpl.
      - by apply (step_inv PStart (tp_pool t)).
      - revert Ha. destruct (tp_pool t) as [n q0 r st f sd subs]; simpl in *. subst q0.
        case_decide; [intros [= <-]|done]. simpl. rewrite map_app, Hbusy. done.
      - intros x [Hx|Hx%list_elem_of_singleton]%elem_of_app; [by apply Hfut|subst x; simpl].
        specialize (dur_nonneg j). lia. }
  all: destruct (earliest (tp_busy t)) as [[j' f]|] eqn:He; [|discriminate].
  all: destruct (pool_apply (PFinish j' (res j')) (tp_pool t)) as [p'|] eqn:Ha'; [|discriminate].
  all: injection Hs as <- <-; apply pool_apply_spec in Ha' as Hst.
  all: destruct (earliest_spec _ _ He) as [Hin Hmin]; simpl in Hmin.
  all: split; [done|]; split; [|exact (Hfut _ Hin)].
  all: pose proof (remove_one_perm _ _ Hin) as Hperm.
  all: split; simpl; [by apply (step_inv _ (tp_pool t) _ Hst)| |].
  all: try (intros x Hx; apply Hmin; rewrite Hperm; by constructor).
  all: destruct (tp_pool t) as [n q0 r st fin sd subs]; inversion Hst as [|? ? ? ? ? ? ? ? ? Hj]; subst;
    simpl in *.
  all: apply (Permutation_cons_inv (a := j')).
  all: rewrite <- (remove_one_perm j' r Hj), <- Hbusy, (map_fst_remove_one _ _ Hin); done.
Qed.

(** With a worker, a timed pool stops only when it is idle. *)
Lemma tstep_none t :
  tinv t -> 0 < max_workers (tp_pool t) -> tstep t = None -> idle (tp_pool t).
Proof.
  intros [Hinv Hbusy Hfut] Hw. unfold tstep.
  destruct (earliest (tp_busy t)) as [[j f]|] eqn:He.
  - destruct (earliest_spec _ _ He) as [Hin _].
    assert (Hj : j ∈ running (tp_pool t)).
    { rewrite <- Hbusy. apply list_elem_of_fmap. by exists (j, f). }
    assert (Ha : is_Some (pool_apply (PFinish j (res j)) (tp_pool t))).
    { destruct (tp_pool t). simpl in *. rewrite decide_True by done. by eexists. }
    destruct Ha as [p' Ha]. rewrite Ha.
    destruct (work_queue (tp_pool t)); [discriminate|]. by destruct (pool_apply PStart (tp_pool t)).
  - apply earliest_none in He. rewrite He in Hbusy. apply Permutation_nil in Hbusy.
    destruct (tp_pool t) as [n [|j q] r st fin sd subs]; simpl in *; subst r; [by intros _|].
    rewrite decide_True by (simpl; lia). discriminate.
Qed.

Lemma timed_run_sound fuel t t' evs :
  timed_run fuel t = (t', evs) -> tinv t ->
  tinv t' /\ run_schedule (map fst evs) (tp_pool t) = tp_pool t' /\
  rtc step (tp_pool t) (tp_pool t') /\ Sorted Z.le (tp_now t :: map snd evs) /\
  last (tp_now t :: map snd evs) = Some (tp_now t').
Proof.
  revert t t' evs. induction fuel as [|fuel IH]; intros t t' evs; simpl.
  { intros [= <- <-] Hi. split_and!; [done|done|apply rtc_refl|repeat constructor|done]. }
  destruct (tstep t) as [[l t1]|] eqn:Hs; [|intros [= <- <-] Hi; split_and!; [done|done|apply rtc_refl|repeat constructor|done]].
  destruct (timed_run fuel t1) as [t2 evs2] eqn:Hr. intros [= <- <-] Hi.
  destruct (tstep_spec t l t1 Hs Hi) as (Hst & Hi1 & Hle).
  destruct (IH t1 t2 evs2 Hr Hi1) as (Hi2 & Hrun & Hrtc & Hsort & Hlast).
  split_and!.
  - done.
  - simpl. apply pool_apply_spec in Hst. by rewrite Hst.
  - eapply rtc_l; [by exists l|done].
  - simpl. constructor; [done|]. by constructor.
  - done.
Qed.

(** Enough fuel: the work left of the pool. *)
Lemma timed_run_idle fuel t :
  work_left (tp_pool t) <= fuel -> tinv t -> 0 < max_workers (tp_pool t) ->
  idle (tp_pool (timed_run fuel t).1).
Proof.
  revert t. induction fuel as [|fuel IH]; intros t Hf Hi Hw; simpl.
  - destruct (tstep t) as [[l t1]|] eqn:Hs.
    + exfalso. destruct (tstep_spec t l t1 Hs Hi) as (Hst & _). apply step_work_left in Hst. lia.
    + by apply tstep_none.
  - destruct (tstep t) as [[l t1]|] eqn:Hs; [|by apply tstep_none].
    destruct (tstep_spec t l t1 Hs Hi) as (Hst & Hi1 & _).
    destruct (step_frame _ _ _ Hst) as (_ & Hmw & _).
    apply step_work_left in Hst as Hlt.
    destruct (timed_run fuel t1) as [t2 evs2] eqn:Hr. simpl.
    replace t2 with (timed_run fuel t1).1 by (by rewrite Hr). apply IH; [lia|done|congruence].
Qed.

Lemma remaining_nonneg t : tinv t -> (0 <= remaining t)%Z.
Proof.
  intros [_ _ Hfut]. apply zsum_nonneg, Forall_forall. intros y (x & -> & Hx)%list_elem_of_fmap.
  apply Hfut in Hx. lia.
Qed.

(** When the probe of [x] returns at [f], what is left of the others is
    what was left, less the time [f - now] that passed on each. *)
Lemma remaining_finish (busy : list (nat * Z)) x now :
  x ∈ busy ->
  zsum (map (fun y => y.2 - x.2) (remove_one x busy))%Z =
    (zsum (map (fun y => y.2 - now) busy) - Z.of_nat (length busy) * (x.2 - now))%Z.
Proof.
  intros Hx. pose proof (remove_one_perm x busy Hx) as Hp.
  rewrite (zsum_perm (map (fun y => y.2 - now)%Z busy) _ (Permutation_map _ Hp)),
    (Permutation_length Hp). simpl. rewrite !zsum_map_sub. lia.
Qed.

Lemma pool_apply_start (p p' : upool) j q :
  work_queue p = j :: q -> pool_apply PStart p = Some p' ->
  work_queue p' = q /\ started p' = started p ++ [j] /\ running p' = running p ++ [j].
Proof.
  destruct p as [m q0 r st fin sd subs]; simpl. intros ->. case_decide; [|done].
  by intros [= <-].
Qed.

Lemma pool_apply_start_none (p : upool) j q :
  work_queue p = j :: q -> pool_apply PStart p = None -> max_workers p <= length (running p).
Proof.
  destruct p as [m q0 r st fin sd subs]; simpl. intros ->. case_decide; [done|]. lia.
Qed.

Lemma pool_apply_finish (p p' : upool) j o :
  pool_apply (PFinish j o) p = Some p' ->
  work_queue p' = work_queue p /\ started p' = started p.
Proof. destruct p as [m q0 r st fin sd subs]; simpl. case_decide; [|done]. by intros [= <-]. Qed.

(** An event adds its completion, if any, to the pool's, and only a
    return moves the clock, to the time of that return. *)
Lemma tstep_finished t l t' :
  tstep t = Some (l, t') ->
  finished (tp_pool t') = finished (tp_pool t) ++ finishes [(l, tp_now t')] /\
  (tp_now t' = tp_now t \/ exists j o, l = PFinish j o).
Proof.
  unfold tstep. destruct (work_queue (tp_pool t)) as [|j q] eqn:Hq;
    [|destruct (pool_apply PStart (tp_pool t)) as [p'|] eqn:Ha].
  2:{ intros [= <- <-]. simpl. rewrite app_nil_r. split; [|by left].
      revert Ha. destruct (tp_pool t); simpl in *. subst. case_decide; [|done]. by intros [= <-]. }
  all: destruct (earliest (tp_busy t)) as [[j' f]|]; [|discriminate].
  all: destruct (pool_apply (PFinish j' (res j')) (tp_pool t)) as [p'|] eqn:Ha'; [|discriminate].
  all: intros [= <- <-]; split; [|right; by eauto]; simpl.
  all: revert Ha'; destruct (tp_pool t); simpl; case_decide; [|done]; by intros [= <-].
Qed.

Lemma timed_run_finished fuel t t' evs :
  timed_run fuel t = (t', evs) ->
  finished (tp_pool t') = finished (tp_pool t) ++ finishes evs /\
  (tp_now t' = tp_now t \/ exists j o, (PFinish j o, tp_now t') ∈ evs).
Proof.
  revert t t' evs. induction fuel as [|fuel IH]; intros t t' evs; simpl.
  { intros [= <- <-]. rewrite app_nil_r. split; [done|by left]. }
  destruct (tstep t) as [[l t1]|] eqn:Hs; [|intros [= <- <-]; rewrite app_nil_r; split; [done|by left]].
  destruct (timed_run fuel t1) as [t2 evs2] eqn:Hr. intros [= <- <-].
  destruct (tstep_finished t l t1 Hs) as [Hf1 Hn1]. destruct (IH t1 t2 evs2 Hr) as [Hf2 Hn2].
  split; [by rewrite Hf2, Hf1, <- app_assoc, <- finishes_app|].
  destruct Hn2 as [Hn2|(j & o & Hin)]; [|right; exists j, o; by constructor].
  destruct Hn1 as [Hn1|(j & o & ->)]; [left; congruence|].
  right. exists j, o. rewrite Hn2. constructor.
Qed.

Section Bound.

(** Consider a round of [n] futures on [w] workers, started at [t0] ... *)
Variables (w : Z) (n : nat) (t0 D : Z).
(** ... whose probes take at most [D] ticks. *)
Hypothesis dur_le : forall j, j < n -> (dur j <= D)%Z.

(** The bound kept by a round in time: the clock never passes the bound
    of the theorem, nor does a running probe's return; and while items
    are queued, every worker has been busy since [t0], so [w] times the
    time elapsed plus the work still running is the work started. *)
Record binv (t : tpool) : Prop := {
  bi_sub : submitted (tp_pool t) = seq 0 n;
  bi_w : max_workers (tp_pool t) = Z.to_nat w;
  bi_pos : (0 < w)%Z;
  bi_start : (t0 <= tp_now t)%Z;
  bi_now : (w * (tp_now t - t0 - D) <= (Z.of_nat n - 1) * D)%Z;
  bi_work : work_queue (tp_pool t) <> [] ->
            (w * (tp_now t - t0) + remaining t <= started_work (tp_pool t))%Z;
  bi_busy : forall x, x ∈ tp_busy t -> (w * (x.2 - t0 - D) <= (Z.of_nat n - 1) * D)%Z
}.

(** The work started is at most [D] per item started, and fewer than [n]
    items have started while one is queued. *)
Lemma started_work_bound p :
  pool_inv p -> submitted p = seq 0 n ->
  (started_work p <= Z.of_nat (length (started p)) * D)%Z /\
  length (started p) + length (work_queue p) = n.
Proof.
  intros [Hfifo _ _] Hsub. rewrite Hsub in Hfifo. split.
  - unfold started_work. rewrite <- (length_map dur). apply zsum_le_const, Forall_forall.
    intros d (j & -> & Hj)%list_elem_of_fmap. apply dur_le.
    assert (Hin : j ∈ seq 0 n) by (rewrite <- Hfifo; apply elem_of_app; by left).
    apply elem_of_seq in Hin. lia.
  - by rewrite <- (length_seq n 0), <- Hfifo, length_app.
Qed.

Lemma tstep_binv t l t' : tstep t = Some (l, t') -> tinv t -> binv t -> binv t'.
Proof.
  intros Hs Hi Hb. destruct (tstep_spec t l t' Hs Hi) as (Hst & Hi' & Hle).
  destruct (step_frame _ _ _ Hst) as (Hsub & Hmw & _).
  pose proof (remaining_nonneg t Hi) as HR.
  destruct Hi as [Hinv Hbusy Hfut], Hb as [Hsub0 Hw0 Hpos Hstart Hnow Hwork Hbsy].
  destruct (started_work_bound _ Hinv Hsub0) as [HS Hlen].
  unfold tstep in Hs.
  destruct (work_queue (tp_pool t)) as [|j q] eqn:Hq;
    [|destruct (pool_apply PStart (tp_pool t)) as [p'|] eqn:Ha].
  2:{ injection Hs as <- <-. destruct (pool_apply_start _ _ _ _ Hq Ha) as (Hq' & Hst' & _).
      assert (Hj : j < n).
      { assert (Hin : j ∈ seq 0 n) by (rewrite <- Hsub0, <- (inv_fifo _ Hinv), Hq; set_solver).
        apply elem_of_seq in Hin. lia. }
      pose proof (dur_le j Hj) as HdD. pose proof (dur_nonneg j) as Hd0.
      specialize (Hwork ltac:(done)). simpl in Hlen.
      assert (HSD : (Z.of_nat (length (started (tp_pool t))) * D <= (Z.of_nat n - 1) * D)%Z)
        by (apply Z.mul_le_mono_nonneg_r; lia).
      assert (Hwd : (w * (dur j - D) <= 0)%Z) by (apply Z.mul_nonneg_nonpos; lia).
      unfold remaining, started_work in *. simpl in *.
      constructor; simpl; try congruence.
      - intros _. unfold remaining, started_work. simpl. rewrite Hst', !map_app, !zsum_app. simpl. lia.
      - intros x [Hx|Hx%list_elem_of_singleton]%elem_of_app; [by apply Hbsy|subst x; simpl]. lia. }
  all: destruct (earliest (tp_busy t)) as [[j' f]|] eqn:He; [|discriminate].
  all: destruct (pool_apply (PFinish j' (res j')) (tp_pool t)) as [p'|] eqn:Ha'; [|discriminate].
  all: injection Hs as <- <-; destruct (pool_apply_finish _ _ _ _ Ha') as [Hq' Hst'].
  all: destruct (earliest_spec _ _ He) as [Hin _].
  all: pose proof (Hfut _ Hin) as Hf; simpl in Hf.
  all: simpl in Hsub, Hmw.
  all: constructor; simpl; try congruence; try lia; try exact (Hbsy _ Hin);
    try (intros x Hx; apply Hbsy; rewrite (remove_one_perm _ _ Hin); by constructor).
  intros _. specialize (Hwork ltac:(done)).
    apply (pool_apply_start_none _ j q) in Ha; [|done].
    pose proof (Permutation_length Hbusy) as Hbl. rewrite length_map in Hbl.
    pose proof (remaining_finish _ _ (tp_now t) Hin) as HRf. simpl in HRf.
    unfold remaining in *. simpl. rewrite HRf.
    unfold started_work in *. rewrite Hst'.
    assert (Hprod : (0 <= (Z.of_nat (length (tp_busy t)) - w) * (f - tp_now t))%Z)
      by (apply Z.mul_nonneg_nonneg; lia).
    lia.
Qed.

Lemma timed_run_binv fuel t t' evs :
  timed_run fuel t = (t', evs) -> tinv t -> binv t -> binv t'.
Proof.
  revert t t' evs. induction fuel as [|fuel IH]; intros t t' evs; simpl; [by intros [= <- _]|].
  destruct (tstep t) as [[l t1]|] eqn:Hs; [|by intros [= <- _]].
  destruct (timed_run fuel t1) as [t2 evs2] eqn:Hr. intros [= <- _] Hi Hb.
  apply (IH t1 _ evs2 Hr); [apply (tstep_spec t l t1 Hs Hi)|by apply (tstep_binv t l)].
Qed.

End Bound.

End Timed.

Lemma finishes_elem evs j o x : (PFinish j o, x) ∈ evs -> (j, o) ∈ finishes evs.
Proof.
  induction evs as [|e evs IH]; [by intros ?%elem_of_nil|].
  intros [<-|Hin]%elem_of_cons; unfold finishes; simpl; [by constructor|].
  destruct e as [[] ?]; simpl; [|constructor]; by apply IH.
Qed.

Lemma timed_completions_elem evs d j o :
  (j, o) ∈ timed_completions evs d -> exists x, (PFinish j o, x) ∈ evs /\ (x <= d)%Z.
Proof.
  unfold timed_completions. induction evs as [|[l x] evs IH]; [by intros ?%elem_of_nil|].
  rewrite filter_cons. case_bool_decide as Hx.
  - unfold finishes. simpl. destruct l as [|j' o'].
    + intros (x' & ? & ?)%IH. exists x'. split; [by constructor|done].
    + intros [[= -> ->]|(x' & ? & ?)%IH]%elem_of_cons; [exists x; split; [constructor|done]|].
      exists x'. split; [by constructor|done].
  - intros (x' & ? & ?)%IH. exists x'. split; [by constructor|done].
Qed.

(** A future returns once: two returns of [j] are at the same time. *)
Lemma finishes_once evs j o o' x x' :
  NoDup (map fst (finishes evs)) -> (PFinish j o, x) ∈ evs -> (PFinish j o', x') ∈ evs -> x = x'.
Proof.
  induction evs as [|[l y] evs IH]; [by intros _ ?%elem_of_nil|].
  unfold finishes. simpl. destruct l as [|j1 o1]; simpl.
  - intros Hnd [Hh|H1]%elem_of_cons [Hh'|H2]%elem_of_cons; try discriminate; by apply IH.
  - intros [Hj Hnd]%NoDup_cons.
    assert (Hnot : forall o2 x2, (PFinish j o2, x2) ∈ evs -> j1 <> j).
    { intros o2 x2 H ->. apply Hj. apply list_elem_of_fmap. exists (j, o2). split; [done|].
      by apply (finishes_elem _ _ _ x2). }
    intros [Hh|H1]%elem_of_cons [Hh'|H2]%elem_of_cons; simplify_eq; try done.
    + by destruct (Hnot _ _ H2).
    + by destruct (Hnot _ _ H1).
    + by apply IH.
Qed.

Lemma sorted_below_last (t0 m : Z) (l : list Z) :
  Sorted Z.le (t0 :: l) -> last (t0 :: l) = Some m -> (t0 <= m)%Z /\ forall x, x ∈ l -> (t0 <= x <= m)%Z.
Proof.
  intros Hs. apply Sorted_StronglySorted in Hs; [|intros ???; lia]. revert t0 Hs.
  induction l as [|y l IH]; intros t0 Hs Hl.
  - simpl in Hl. injection Hl as ->. split; [lia|]. by intros ? ?%elem_of_nil.
  - apply StronglySorted_inv in Hs as [Hs Hall]. apply Forall_cons in Hall as [Hy Hall].
    destruct (IH y Hs Hl) as [Hym Hm]. split; [lia|].
    intros x [->|Hx]%elem_of_cons; [lia|]. specialize (Hm x Hx). lia.
Qed.

(** The round's executor when the loop submitted its futures at [t0]. *)
Definition round_start (p : upool) (t0 : Z) : tpool := mk_tpool p t0 [].

(** The whole round: the workers run until every probe has returned. *)
Definition round_run (dur : nat -> Z) (res : nat -> urlopen_outcome) (p : upool) (t0 : Z)
    : tpool * list (ulabel * Z) :=
  timed_run dur res (work_left p) (round_start p t0).

Lemma round_start_inv dur w n t0 D p :
  round_pool w n = Ok p -> (0 <= D)%Z ->
  tinv (round_start p t0) /\ binv dur w n t0 D (round_start p t0).
Proof.
  intros Hp HD. destruct (round_pool_reachable w n p Hp) as [Hr Hsub].
  destruct (pool_reachable_inv_aux w p Hr) as (Hinv & Hm & Hw).
  destruct (round_pool_fresh w n p Hp) as [Hst _].
  assert (Hrun : running p = []).
  { pose proof (inv_started _ Hinv) as Hperm. rewrite Hst in Hperm.
    symmetry in Hperm. apply Permutation_nil in Hperm. by apply app_eq_nil in Hperm as [? _]. }
  split; constructor; simpl; try done.
  - by rewrite Hrun.
  - by intros ? ?%elem_of_nil.
  - nia.
  - intros _. unfold remaining, started_work. simpl. rewrite Hst. simpl. lia.
  - by intros ? ?%elem_of_nil.
Qed.

(** The round with one worker after [k] of its [n] probes, each of [D]
    ticks, have returned. *)
Definition one_worker_state (res : nat -> urlopen_outcome) (n : nat) (t0 D : Z) (k : nat) : tpool :=
  mk_tpool (mk_pool 1 (seq k (n - k)) [] (seq 0 k) (map (fun j => (j, res j)) (seq 0 k)) false (seq 0 n))
    (t0 + Z.of_nat k * D)%Z [].

Lemma round_pool_shape w n p :
  round_pool w n = Ok p -> p = mk_pool (Z.to_nat w) (seq 0 n) [] [] [] false (seq 0 n).
Proof.
  unfold round_pool, executor. destruct (w <=? 0)%Z; [discriminate|].
  assert (Hgen : forall js q (p' : upool),
            submit_all js (mk_pool (Z.to_nat w) q [] [] [] false q) = Ok p' ->
            p' = mk_pool (Z.to_nat w) (q ++ js) [] [] [] false (q ++ js)).
  { induction js as [|j js IH]; intros q p'; simpl; [intros [= <-]; by rewrite app_nil_r|].
    intros H. rewrite (IH _ _ H). by rewrite <- app_assoc. }
  apply (Hgen (seq 0 n) []).
Qed.

(** With one worker, a probe runs then returns, [D] ticks later. *)
Lemma one_worker_two_steps res n t0 D k m :
  k + S m = n ->
  exists t1, tstep (fun _ => D) res (one_worker_state res n t0 D k) = Some (PStart, t1) /\
    tstep (fun _ => D) res t1 = Some (PFinish k (res k), one_worker_state res n t0 D (S k)) /\
    tp_now t1 = (t0 + Z.of_nat k * D)%Z.
Proof.
  intros Hn. unfold one_worker_state. replace (n - k) with (S m) by lia.
  replace (n - S k) with m by lia. cbn [seq]. eexists. split_and!; [reflexivity| |reflexivity].
  unfold tstep. cbn [tp_pool tp_busy tp_now work_queue].
  assert (Hno : pool_apply (J := nat) (Out := urlopen_outcome) PStart
    (mk_pool 1 (seq (S k) m) [k] (seq 0 k ++ [k]) (map (fun j => (j, res j)) (seq 0 k)) false (seq 0 n)) = None).
  { by destruct m. }
  cbn [app]. rewrite Hno.
  assert (Hrm : remove_one k [k] = []) by (simpl; by rewrite decide_True).
  assert (Hrm2 : remove_one (k, (t0 + Z.of_nat k * D + D)%Z) [(k, (t0 + Z.of_nat k * D + D)%Z)] = [])
    by (simpl; by rewrite decide_True).
  assert (Hfin : pool_apply (PFinish k (res k))
    (mk_pool 1 (seq (S k) m) [k] (seq 0 k ++ [k]) (map (fun j => (j, res j)) (seq 0 k)) false (seq 0 n)) =
    Some (mk_pool 1 (seq (S k) m) [] (seq 0 (S k)) (map (fun j => (j, res j)) (seq 0 (S k))) false (seq 0 n))).
  { cbn [pool_apply]. rewrite decide_True by constructor. rewrite Hrm, seq_S, map_app. done. }
  assert (Hnow : (t0 + Z.of_nat k * D + D)%Z = (t0 + Z.of_nat (S k) * D)%Z) by lia.
  cbn [earliest foldr]. rewrite Hfin, Hrm2, Hnow.
  by destruct (seq (S k) m).
Qed.

(** The events of one worker running probes [k] to [k + m - 1] of [D]
    ticks each: each starts when the previous one returned. *)
Fixpoint one_worker_events (res : nat -> urlopen_outcome) (t0 D : Z) (k m : nat) : list (ulabel * Z) :=
  match m with
  | O => []
  | S m => (PStart, t0 + Z.of_nat k * D)%Z :: (PFinish k (res k), t0 + Z.of_nat (S k) * D)%Z ::
             one_worker_events res t0 D (S k) m
  end.

Lemma one_worker_run res n t0 D k m :
  k + m = n ->
  (timed_run (fun _ => D) res (2 * m) (one_worker_state res n t0 D k)).1 = one_worker_state res n t0 D n /\
  finish_times (timed_run (fun _ => D) res (2 * m) (one_worker_state res n t0 D k)).2 =
    map (fun i => t0 + (Z.of_nat i + 1) * D)%Z (seq k m) /\
  (timed_run (fun _ => D) res (2 * m) (one_worker_state res n t0 D k)).2 = one_worker_events res t0 D k m.
Proof.
  revert k. induction m as [|m IH]; intros k Hn.
  - replace k with n by lia. done.
  - destruct (one_worker_two_steps res n t0 D k m Hn) as (t1 & H1 & H2 & Hnow).
    replace (2 * S m) with (S (S (2 * m))) by lia. simpl. rewrite H1. simpl. rewrite H2.
    destruct (IH (S k) ltac:(lia)) as (Hst & Hft & Hev).
    destruct (timed_run _ _ (2 * m) _) as [t2 evs2] eqn:Hr. simpl in *. rewrite Hr. simpl.
    split_and!; [done| |by rewrite Hnow, Hev].
    unfold finish_times in *. simpl. rewrite Hft. f_equal. lia.
Qed.

(** The whole round with one worker and probes of [D] ticks: the probes
    run one after the other. *)
Lemma one_worker_round res n t0 D p :
  round_pool 1 n = Ok p ->
  round_run (fun _ => D) res p t0 = (one_worker_state res n t0 D n, one_worker_events res t0 D 0 n).
Proof.
  intros Hp. apply round_pool_shape in Hp as ->. unfold round_run.
  assert (Hs : round_start (mk_pool (Z.to_nat 1) (seq 0 n) [] [] [] false (seq 0 n)) t0 =
                 one_worker_state res n t0 D 0).
  { unfold round_start, one_worker_state. rewrite Nat.sub_0_r. f_equal. lia. }
  replace (work_left _) with (2 * n) by (unfold work_left; simpl; rewrite length_seq; lia).
  rewrite Hs. destruct (one_worker_run res n t0 D 0 n ltac:(lia)) as (H1 & _ & H3).
  destruct (timed_run _ _ _ _). simpl in *. by subst.
Qed.

(** ** The round in time *)

(** A timed run of the round is a run of the thread pool, in time
    order: the events happen at non-decreasing times from [t0], their
    transitions are the ones [pool_step] allows, and what [as_completed]
    yields for that schedule ([PoolEnv.pool_completions]) is the list
    of futures finished in the timed run. *)
Lemma timed_run_refines (dur : nat -> Z) res w n t0 p fuel :
  (forall j, 0 <= dur j)%Z -> round_pool w n = Ok p ->
  pool_completions w (map fst (timed_run dur res fuel (round_start p t0)).2) n =
    finished (tp_pool (timed_run dur res fuel (round_start p t0)).1) /\
  rtc step p (tp_pool (timed_run dur res fuel (round_start p t0)).1) /\
  Sorted Z.le (t0 :: map snd (timed_run dur res fuel (round_start p t0)).2) /\
  last (t0 :: map snd (timed_run dur res fuel (round_start p t0)).2) =
    Some (tp_now (timed_run dur res fuel (round_start p t0)).1).
Proof.
  intros Hd Hp. destruct (round_start_inv dur w n t0 0 p Hp ltac:(lia)) as [Hi _].
  destruct (timed_run dur res fuel (round_start p t0)) as [t' evs] eqn:Hr. simpl.
  destruct (timed_run_sound dur res Hd fuel _ t' evs Hr Hi) as (_ & Hrun & Hrtc & Hsort & Hlast).
  unfold pool_completions. rewrite Hp. simpl in *. by rewrite Hrun.
Qed.

(** How long the round's probes keep the session: with [w] workers,
    [n] futures and probes of at most [D] ticks, the timed run of a
    round started at [t0] ends with every future finished, at a time
    [T] with [w * (T - t0 - D) <= (n - 1) * D]: the last probe returns
    at most [D + (n - 1) * D / w] after the round began.  This is when
    the [shutdown(wait=True)] of the [with] block returns after an
    [as_completed] timeout, so the session can end up to that long
    after the round's deadline. *)
Lemma timed_round_bound (dur : nat -> Z) res w n t0 D p :
  (forall j, 0 <= dur j)%Z -> (forall j, j < n -> (dur j <= D)%Z) -> (0 <= D)%Z ->
  round_pool w n = Ok p ->
  idle (tp_pool (timed_run dur res (work_left p) (round_start p t0)).1) /\
  map fst (finished (tp_pool (timed_run dur res (work_left p) (round_start p t0)).1)) ≡ₚ seq 0 n /\
  (t0 <= tp_now (timed_run dur res (work_left p) (round_start p t0)).1)%Z /\
  (w * (tp_now (timed_run dur res (work_left p) (round_start p t0)).1 - t0 - D) <=
     (Z.of_nat n - 1) * D)%Z.
Proof.
  intros Hd HdD HD Hp. destruct (round_start_inv dur w n t0 D p Hp HD) as [Hi Hb].
  pose proof (bi_w _ _ _ _ _ _ Hb) as Hm0. pose proof (bi_pos _ _ _ _ _ _ Hb) as Hw0. simpl in Hm0.
  pose proof (timed_run_idle dur res Hd (work_left p) (round_start p t0) ltac:(done) Hi
    ltac:(simpl; lia)) as Hidle.
  destruct (timed_run dur res (work_left p) (round_start p t0)) as [t' evs] eqn:Hr. simpl in *.
  destruct (timed_run_sound dur res Hd _ _ t' evs Hr Hi) as (Hi' & _).
  pose proof (timed_run_binv dur res Hd w n t0 D HdD _ _ t' evs Hr Hi Hb) as Hb'.
  split_and!; [done| |apply Hb'|apply Hb'].
  rewrite <- (bi_sub _ _ _ _ _ _ Hb'). apply idle_finished; [apply Hi'|done].
Qed.

(** The bound is reached: with one worker and every probe taking
    [D] ticks, future [k] returns at [t0 + (k + 1) * D] and the round
    ends at [t0 + n * D], the limit of [timed_round_bound] for [w = 1].
    With the default three URLs, [--threads 1] and probes that hang
    for the whole [--timeout], the session ends about three timeouts
    after it started. *)
Lemma one_worker_bound_reached res n t0 D p :
  round_pool 1 n = Ok p ->
  finish_times (timed_run (fun _ => D) res (work_left p) (round_start p t0)).2 =
    map (fun k => t0 + (Z.of_nat k + 1) * D)%Z (seq 0 n) /\
  tp_now (timed_run (fun _ => D) res (work_left p) (round_start p t0)).1 = (t0 + Z.of_nat n * D)%Z.
Proof.
  intros Hp. pose proof (one_worker_round res n t0 D p Hp) as Hr. unfold round_run in Hr. rewrite Hr.
  cbn [fst snd]. split; [|done].
  assert (Hk : forall k m, finish_times (one_worker_events res t0 D k m) =
                            map (fun i => t0 + (Z.of_nat i + 1) * D)%Z (seq k m)).
  { intros k m. revert k. induction m as [|m IH]; intros k; [done|].
    unfold finish_times in *. cbn. rewrite IH. f_equal. lia. }
  apply Hk.
Qed.

(** [as_completed] in a timed round (lines 114-116): the futures it
    yields before the deadline are the first ones to return, in the
    order they return, and it raises its timeout exactly when the
    round's last probe returns after the deadline; the [with] block is
    then left at that return. *)
Lemma as_completed_timed (dur : nat -> Z) res w t0 deadline p (futs : list url) :
  (forall j, 0 <= dur j)%Z -> futs <> [] -> round_pool w (length futs) = Ok p ->
  (all_completed futs (timed_completions (round_run dur res p t0).2 deadline) = true <->
     (tp_now (round_run dur res p t0).1 <= deadline)%Z) /\
  timed_completions (round_run dur res p t0).2 deadline `prefix_of` finished (tp_pool (round_run dur res p t0).1).
Proof.
  intros Hd Hne Hp. set (n := length futs).
  destruct (round_start_inv dur w n t0 0 p Hp ltac:(lia)) as [Hi Hb].
  pose proof (bi_w _ _ _ _ _ _ Hb) as Hm0. pose proof (bi_pos _ _ _ _ _ _ Hb) as Hw0. simpl in Hm0.
  pose proof (timed_run_idle dur res Hd (work_left p) (round_start p t0) ltac:(done) Hi
    ltac:(simpl; lia)) as Hidle.
  destruct (round_pool_reachable w n p Hp) as [_ Hsub].
  destruct (round_pool_fresh w n p Hp) as [_ Hf0].
  unfold round_run. destruct (timed_run dur res (work_left p) (round_start p t0)) as [t' evs] eqn:Hr.
  simpl in *.
  destruct (timed_run_sound dur res Hd _ _ t' evs Hr Hi) as (Hi' & _ & Hrtc & Hsort & Hlast).
  destruct (timed_run_finished dur res _ _ t' evs Hr) as [Hfin Hnow]. simpl in Hfin, Hnow.
  rewrite Hf0 in Hfin. simpl in Hfin.
  assert (Hsub' : submitted (tp_pool t') = seq 0 n) by (rewrite (proj1 (rtc_step_frame _ _ Hrtc)); done).
  destruct (finished_submitted _ (ti_pool _ Hi')) as [Hnd _]; [rewrite Hsub'; apply NoDup_seq|].
  rewrite Hfin in Hnd.
  pose proof (idle_finished _ (ti_pool _ Hi') Hidle) as Hperm. rewrite Hsub', Hfin in Hperm.
  destruct (sorted_below_last t0 _ _ Hsort Hlast) as [Ht0 Hbelow].
  split.
  - split.
    + intros Hall. destruct (Z.le_gt_cases (tp_now t') deadline) as [|Hgt]; [done|]. exfalso.
      rewrite all_completed_spec in Hall.
      destruct Hnow as [Hnow|(j & o & Hj)].
      * assert (Hempty : timed_completions evs deadline = []).
        { unfold timed_completions. rewrite (filter_deadline_all _ _ false); [done|].
          intros e He. apply bool_decide_false.
          assert (e.2 ∈ map snd evs) by (apply list_elem_of_fmap; by exists e).
          specialize (Hbelow e.2 ltac:(done)). lia. }
        rewrite Hempty in Hall. assert (Hpos : 0 < length futs) by (destruct futs; [done|simpl; lia]).
        pose proof (Hall 0 Hpos) as H0. by apply elem_of_nil in H0.
      * assert (Hjn : j < n).
        { assert (Hin : j ∈ map fst (finishes evs)).
          { apply list_elem_of_fmap. exists (j, o). split; [done|]. by apply (finishes_elem _ _ _ (tp_now t')). }
          rewrite Hperm in Hin. apply elem_of_seq in Hin. lia. }
        destruct (list_elem_of_fmap_1 _ _ _ (Hall j Hjn)) as ([j' o'] & Hj' & Hin). simpl in Hj'. subst j'.
        destruct (timed_completions_elem _ _ _ _ Hin) as (x & Hx & Hxd).
        pose proof (finishes_once evs j o o' (tp_now t') x Hnd Hj Hx). lia.
    + intros Hle. apply all_completed_of_perm. fold n. rewrite <- Hperm. f_equal. f_equal.
      unfold timed_completions. rewrite (filter_deadline_all _ _ true); [done|].
      intros e He. apply bool_decide_true.
      assert (e.2 ∈ map snd evs) by (apply list_elem_of_fmap; by exists e).
      specialize (Hbelow e.2 ltac:(done)). lia.
  - rewrite Hfin. destruct (filter_sorted_prefix t0 evs deadline Hsort) as [k Hk].
    exists (finishes k). unfold timed_completions. by rewrite <- finishes_app, <- Hk.
Qed.

End TimedPool.
