(* ===== verification/TimedSession.v ===== *)
(** The session in time: [i_can_has_threaded_connection]
    (src/wait_for_connection.py, lines 80-142) run on the thread pool of
    [TimedPool], with the wall clock that pool drives, the records the
    worker threads log in [check_url] (lines 62 and 64), and the
    [shutdown(wait=True)] that leaving the [with] block of lines 96-138
    runs.

    [Poller] takes the clock readings and what [as_completed] yields as
    an environment.  Here they come from the pool: iteration [k] reads
    the clock when the previous round's [as_completed] returned; its
    comprehension submits the round's futures to an executor of
    [pool_size] workers; future [j] of iteration [k] takes
    [(probe k j).1] ticks and [urlopen] gives [(probe k j).2];
    [as_completed(..., timeout=time_left)] yields the futures that
    returned by [now + time_left], in the order they returned, each when
    it returns, and raises its timeout at that deadline.  The main
    thread itself takes no time.  When the loop is left inside the
    [with] block, by [return] or by an exception, the handler's record
    comes first, then the workers run every future still queued or
    running (the executor cancels nothing), and only then does the
    session return, or log [FAIL] (lines 140-142) after the block.

    [timed_body] is one iteration, [timed_loop] the loop, and
    [timed_session] the session with its whole log (main thread and
    workers, in the order the records are written) and the time it
    returns.  The theorems: the main thread of the timed session is
    [Poller]'s session under an environment that satisfies [env_wf];
    the session's duration is bounded by the timeout plus the time the
    workers need for one round; the session returns when every probe
    takes at least one tick; with one worker and probes that hang for
    the whole timeout it lasts [N * timeout]; and at the default level
    the last record of the log announces the result, while after -2 or
    -3 only workers' records can follow the error. *)

From stdpp Require Import base list relations strings.
From Stdlib Require Import ZArith Lia Sorted.
From S2P Require Import Prelude PyExc PyDict UrlState ReturnCode Round Poller Pool PoolEnv TimedPool Logging.
Import PyExc PyDict UrlState ReturnCode Round Poller Pool PoolEnv TimedPool Logging.
Local Open Scope wfc_scope.

Module TimedSession.

(** ** The process's log *)

(** A record of the log: one of the main thread's events, or a record of
    [check_url] in a worker thread. *)
Inductive record :=
| RMain (ev : event)   (** an event of [Round.event] *)
| RTrying (u : url)    (** [logger.debug(f"Trying to reach {url}")], line 62 *)
| RReached (u : url).  (** [logger.debug(f"Reached {url}")], line 64 *)

#[export] Instance record_eq_dec : EqDecision record.
Proof. solve_decision. Defined.

Definition level_rec (r : record) : option Z :=
  match r with
  | RMain ev => level_of ev
  | RTrying _ | RReached _ => Some DEBUG
  end.

(** What the [basicConfig] handler writes at [threshold], in order. *)
Definition emitted_rec (threshold : Z) (log : list record) : list record :=
  List.filter (fun r => match level_rec r with Some l => (threshold <=? l)%Z | None => false end) log.

Definition is_worker (r : record) : bool := match r with RMain _ => false | _ => true end.

(** The main thread's part of the log. *)
Definition main_of (log : list record) : list event :=
  omap (fun r => match r with RMain ev => Some ev | _ => None end) log.

(** The events a statement appended to the trace of the store. *)
Definition new_events (s s' : store) : list event := drop (length (events s)) (events s').

(** ** A round in time *)

(** The events of a round up to the deadline, in time order, and the
    events after it. *)
Fixpoint span_deadline (d : Z) (evs : list (ulabel * Z)) : list (ulabel * Z) * list (ulabel * Z) :=
  match evs with
  | [] => ([], [])
  | e :: evs' =>
      if bool_decide (e.2 <= d)%Z then let '(b, a) := span_deadline d evs' in (e :: b, a)
      else ([], evs)
  end.

(** [Trying] for the next future a worker takes ([starts] lists them in
    the order the workers take them), [Reached] when a probe's [urlopen]
    returned. *)
Definition start_rec (futs : list url) (starts : list nat) : list record * list nat :=
  match starts with
  | j :: st => ([RTrying (futs !!! j)], st)
  | [] => ([], [])
  end.

Definition finish_rec (futs : list url) (j : nat) (o : urlopen_outcome) : list record :=
  match o with Opened => [RReached (futs !!! j)] | Failed _ => [] end.

(** The workers' records of a run of events. *)
Fixpoint worker_log (futs : list url) (starts : list nat) (evs : list (ulabel * Z)) : list record :=
  match evs with
  | [] => []
  | (PStart, _) :: evs => let '(r, st) := start_rec futs starts in r ++ worker_log futs st evs
  | (PFinish j o, _) :: evs => finish_rec futs j o ++ worker_log futs starts evs
  end.

(** What the main thread's drain of [as_completed] leaves: its result,
    the store, the log so far, the futures not yet taken by a worker,
    and the events after the one where it raised. *)
Record walk := mk_walk {
  w_res : result unit;
  w_store : store;
  w_log : list record;
  w_starts : list nat;
  w_rest : list (ulabel * Z)
}.

(** The [for future in as_completed(...)] loop (lines 114-123) while
    the workers run: at each return of a probe up to the deadline, the
    main thread runs the body for that future, until the body raises. *)
Fixpoint main_walk (futs : list url) (starts : list nat) (evs : list (ulabel * Z)) (s : store) : walk :=
  match evs with
  | [] => mk_walk (Ok tt) s [] starts []
  | (PStart, _) :: evs' =>
      let '(r, st) := start_rec futs starts in
      let w := main_walk futs st evs' s in
      mk_walk (w_res w) (w_store w) (r ++ w_log w) (w_starts w) (w_rest w)
  | (PFinish j o, _) :: evs' =>
      match on_completed futs (j, o) s with
      | (Ok _, s1) =>
          let w := main_walk futs starts evs' s1 in
          mk_walk (w_res w) (w_store w) (finish_rec futs j o ++ map RMain (new_events s s1) ++ w_log w)
                  (w_starts w) (w_rest w)
      | (Raise ex, s1) => mk_walk (Raise ex) s1 (finish_rec futs j o ++ map RMain (new_events s s1)) starts evs'
      end
  end.

(** What an iteration of the loop ends with: the next iteration at the
    time [as_completed] returned, or the loop left, with the time the
    round's workers finish and the records they log after the main
    thread left the loop. *)
Inductive iter_out :=
| IterNext (s : store) (now : Z) (log : list record)
| IterExit (r : result loop_exit) (s : store) (log : list record) (tend : Z) (drain : list record).

(** The loop left: how, the store, the log, the time the workers finish,
    their records still to come, and the clock readings of the
    iterations. *)
Record exit_info := mk_exit {
  x_res : result loop_exit;
  x_store : store;
  x_log : list record;
  x_end : Z;
  x_drain : list record;
  x_readings : list Z
}.

(** The handlers of lines 130-138, inside the [with] block: [Some c] for
    a [return c], [None] to go on after the block. *)
Definition finish_in_with (py311 : bool) (r : result loop_exit) : PyM store (option Z) :=
  match r with
  | Ok Return0 => ret (Some 0%Z)
  | Ok Break => ret None
  | Raise ex =>
      if issubclass ex (futures_TimeoutError py311) then log (EvExecTimeout ex) ;; ret None
      else if issubclass ex ValueError then log (EvInvalid ex) ;; ret (Some INVALID_URL_CODE)
      else if issubclass ex Exception then log (EvUnexpected ex) ;; ret (Some UNEXPECTED_CODE)
      else raise ex
  end.

(** ** Lemmas on logs and spans *)

Lemma main_of_app l l' : main_of (l ++ l') = main_of l ++ main_of l'.
Proof. apply omap_app. Qed.

Lemma main_of_map_RMain evs : main_of (map RMain evs) = evs.
Proof. induction evs as [|ev evs IH]; [done|]. simpl. by rewrite IH. Qed.

Lemma main_of_start_rec futs st : main_of (start_rec futs st).1 = [].
Proof. by destruct st. Qed.

Lemma main_of_finish_rec futs j o : main_of (finish_rec futs j o) = [].
Proof. by destruct o. Qed.

Lemma main_of_worker_log futs st evs : main_of (worker_log futs st evs) = [].
Proof.
  revert st. induction evs as [|[[|j o] t] evs IH]; intros st; [done| |]; cbn [worker_log].
  - destruct (start_rec futs st) as [r st'] eqn:E. rewrite main_of_app, IH, app_nil_r.
    pose proof (main_of_start_rec futs st) as H. by rewrite E in H.
  - by rewrite main_of_app, IH, main_of_finish_rec.
Qed.

Create HintDb tsess.
#[local] Hint Rewrite main_of_app main_of_map_RMain main_of_start_rec main_of_finish_rec
  main_of_worker_log app_nil_r app_nil_l : tsess.

(** A store whose trace extends another's: the new events are the
    extension. *)
Lemma new_events_spec s s' : events s `prefix_of` events s' -> events s' = events s ++ new_events s s'.
Proof. intros [l Hl]. unfold new_events. rewrite Hl, drop_app_length. done. Qed.

Lemma submit_each_prefix urls s : events s `prefix_of` events (submit_each urls s).2.
Proof.
  revert s. induction urls as [|u us IH]; intros s; [done|]. cbn [submit_each]. unfold bind at 1, get.
  destruct (dict_get u (url_up s)) as [[]|]; [apply IH| |done].
  unfold bind, log, modify, ret. cbn -[submit_each].
  destruct (submit_each us _) as [[fs|e] s1] eqn:E; simpl;
    (etrans; [|pose proof (IH (mk_store (url_up s) (events s ++ [EvSubmit u]))) as H; rewrite E in H; exact H]);
    by apply prefix_app_r.
Qed.

Lemma on_completed_prefix futs c s : events s `prefix_of` events (on_completed futs c s).2.
Proof.
  destruct c as [j o]. destruct (futs !! j) as [u|] eqn:Hj; [|unfold on_completed; by rewrite Hj].
  rewrite (on_completed_spec _ _ _ u) by done.
  destruct o as [|e]; [|destruct (matches e _)]; simpl; [by apply prefix_app_r..|done].
Qed.

(** The main thread's records of a drain are the events it appended. *)
Lemma main_walk_events futs st evs s :
  events (w_store (main_walk futs st evs s)) = events s ++ main_of (w_log (main_walk futs st evs s)).
Proof.
  revert st s. induction evs as [|[[|j o] t] evs IH]; intros st s; cbn [main_walk].
  - by rewrite app_nil_r.
  - destruct (start_rec futs st) as [r st'] eqn:E. cbn [w_store w_log].
    rewrite IH, main_of_app. pose proof (main_of_start_rec futs st) as H. rewrite E in H. simpl in H.
    by rewrite H.
  - pose proof (on_completed_prefix futs (j, o) s) as Hp.
    destruct (on_completed futs (j, o) s) as [[[]|ex] s1]; cbn [w_store w_log]; simpl in Hp;
      autorewrite with tsess; [rewrite IH, app_assoc|]; by rewrite <- new_events_spec.
Qed.

(** A drain that did not raise consumed every event. *)
Lemma main_walk_rest futs st evs s :
  w_res (main_walk futs st evs s) = Ok tt -> w_rest (main_walk futs st evs s) = [].
Proof.
  revert st s. induction evs as [|[[|j o] t] evs IH]; intros st s; cbn [main_walk]; [done| |].
  - destruct (start_rec futs st) as [r st']. apply IH.
  - destruct (on_completed futs (j, o) s) as [[[]|ex] s1]; [apply IH|done].
Qed.

Lemma span_app d evs : (span_deadline d evs).1 ++ (span_deadline d evs).2 = evs.
Proof.
  induction evs as [|e evs IH]; [done|]. cbn [span_deadline].
  case_bool_decide; [|done]. destruct (span_deadline d evs) as [b a]. simpl in *. by rewrite IH.
Qed.

Lemma span_all d evs : (forall e, e ∈ evs -> (e.2 <= d)%Z) -> span_deadline d evs = (evs, []).
Proof.
  induction evs as [|e evs IH]; intros Hall; [done|]. cbn [span_deadline].
  rewrite bool_decide_true by (apply Hall; constructor).
  rewrite IH; [done|]. intros e' He'. apply Hall. by constructor.
Qed.

(** In time order, the events up to the deadline are those at or before it. *)
Lemma span_filter (t : Z) d evs :
  Sorted Z.le (t :: map snd evs) ->
  (span_deadline d evs).1 = filter (fun e => bool_decide (e.2 <= d)%Z) evs.
Proof.
  intros Hs. apply Sorted_StronglySorted in Hs; [|intros ???; lia].
  apply StronglySorted_inv in Hs as [Hs _]. induction evs as [|e evs IH]; [done|].
  simpl in Hs. apply StronglySorted_inv in Hs as [Hs Hall].
  cbn [span_deadline]. rewrite filter_cons. case_bool_decide as He.
  - specialize (IH Hs). destruct (span_deadline d evs) as [b a]. simpl in *. by rewrite IH.
  - simpl. symmetry. apply (filter_deadline_all _ _ false). intros e' He'. apply bool_decide_false.
    assert (e'.2 ∈ map snd evs) by (apply list_elem_of_fmap; by exists e').
    rewrite Forall_forall in Hall. specialize (Hall e'.2 ltac:(done)). lia.
Qed.

Lemma worker_log_workers futs st evs : Forall (fun r => is_worker r = true) (worker_log futs st evs).
Proof.
  revert st. induction evs as [|[[|j o] t] evs IH]; intros st; cbn [worker_log]; [constructor| |].
  - destruct st as [|j st]; simpl; [apply IH|]. constructor; [done|apply IH].
  - apply Forall_app. split; [destruct o; repeat constructor|apply IH].
Qed.

Lemma new_events_add s ev : new_events s (add_event s ev) = [ev].
Proof. unfold new_events. simpl. by rewrite drop_app_length. Qed.

Lemma new_events_same s : new_events s s = [].
Proof. unfold new_events. by rewrite drop_all. Qed.

Lemma emitted_rec_app th l l' : emitted_rec th (l ++ l') = emitted_rec th l ++ emitted_rec th l'.
Proof. apply List.filter_app. Qed.

(** The handlers inside the [with] block: [return 0] after the loop's
    [return 0]; going on after the block, with the executor's timeout
    logged or after a [break]; -2 or -3 with their error record; or the
    exception raised again. *)
Lemma finish_in_with_cases py311 r s r1 s1 :
  finish_in_with py311 r s = (r1, s1) ->
  (r = Ok Return0 /\ r1 = Ok (Some 0%Z) /\ s1 = s) \/
  (r1 = Ok None /\ (s1 = s \/ exists ex, s1 = add_event s (EvExecTimeout ex))) \/
  (r1 = Ok (Some INVALID_URL_CODE) /\ exists ex, s1 = add_event s (EvInvalid ex)) \/
  (r1 = Ok (Some UNEXPECTED_CODE) /\ exists ex, s1 = add_event s (EvUnexpected ex)) \/
  (exists ex, r1 = Raise ex /\ s1 = s).
Proof.
  unfold finish_in_with, bind, log, modify, ret, raise.
  destruct r as [[]|ex]; [intros [= <- <-]; by left|intros [= <- <-]; right; left; by split; [|left]|].
  destruct (issubclass ex _); [intros [= <- <-]; right; left; split; [done|right]; by exists ex|].
  destruct (issubclass ex ValueError); [intros [= <- <-]; right; right; left; split; [done|]; by exists ex|].
  destruct (issubclass ex Exception); intros [= <- <-]; [do 3 right; left; split; [done|]; by exists ex|].
  do 4 right. by exists ex.
Qed.

(** The workers' records are shown at [DEBUG] only. *)
Lemma emitted_workers th l :
  Forall (fun r => is_worker r = true) l ->
  Forall (fun r => is_worker r = true) (emitted_rec th l) /\ ((DEBUG < th)%Z -> emitted_rec th l = []).
Proof.
  induction 1 as [|r l Hr _ [IH1 IH2]]; [done|]. unfold emitted_rec in *. cbn [List.filter].
  destruct r as [ev|u|u]; [discriminate| |]; cbn [level_rec];
    (destruct (Z.leb_spec th DEBUG); [split; [by constructor|intros; unfold DEBUG in *; lia]|by split]).
Qed.

(** A record at [INFO] or above is shown at a threshold up to [INFO]. *)
Lemma emitted_rec_shown th ev :
  (th <= INFO)%Z -> (exists lv, level_of ev = Some lv /\ (INFO <= lv)%Z) ->
  emitted_rec th [RMain ev] = [RMain ev].
Proof.
  intros Hth (lv & Hl & Hle). unfold emitted_rec. cbn [List.filter level_rec]. rewrite Hl.
  by rewrite (proj2 (Z.leb_le th lv)) by lia.
Qed.

(** With probes of at least one tick, a probe started at or after [t0]
    returns after [t0]. *)
Lemma tstep_late (dur : nat -> Z) res t0 t l t' :
  (forall j, (1 <= dur j)%Z) -> tstep dur res t = Some (l, t') -> tinv t ->
  (t0 <= tp_now t)%Z -> (forall x, x ∈ tp_busy t -> (t0 + 1 <= x.2)%Z) ->
  (t0 <= tp_now t')%Z /\ (forall x, x ∈ tp_busy t' -> (t0 + 1 <= x.2)%Z) /\
  (forall j o, l = PFinish j o -> (t0 + 1 <= tp_now t')%Z).
Proof.
  intros Hd Hs Hi Hnow Hbusy.
  assert (Hnn : forall j, (0 <= dur j)%Z) by (intros j; specialize (Hd j); lia).
  destruct (tstep_spec dur res Hnn t l t' Hs Hi) as (_ & _ & Hle).
  split; [lia|]. unfold tstep in Hs.
  destruct (work_queue (tp_pool t)) as [|j q] eqn:Hq.
  2: destruct (pool_apply PStart (tp_pool t)) as [p'|] eqn:Ha.
  2: { injection Hs as <- <-. split; [|done]. simpl.
       intros x [Hx | ->%list_elem_of_singleton]%elem_of_app; [by apply Hbusy|]. simpl. specialize (Hd j). lia. }
  all: destruct (earliest (tp_busy t)) as [[j' f]|] eqn:He; [|discriminate].
  all: destruct (pool_apply (PFinish j' (res j')) (tp_pool t)); [|discriminate].
  all: injection Hs as <- <-; destruct (earliest_spec _ _ He) as [Hin _]; cbn [tp_busy tp_now].
  all: split; [|intros; by apply (Hbusy (j', f))].
  all: intros x Hx; apply Hbusy; rewrite (remove_one_perm _ _ Hin); by apply list_elem_of_further.
Qed.

Lemma timed_run_late (dur : nat -> Z) res t0 fuel t t' evs :
  (forall j, (1 <= dur j)%Z) -> timed_run dur res fuel t = (t', evs) -> tinv t ->
  (t0 <= tp_now t)%Z -> (forall x, x ∈ tp_busy t -> (t0 + 1 <= x.2)%Z) ->
  forall j o x, (PFinish j o, x) ∈ evs -> (t0 + 1 <= x)%Z.
Proof.
  intros Hd. assert (Hnn : forall j, (0 <= dur j)%Z) by (intros j; specialize (Hd j); lia).
  revert t t' evs. induction fuel as [|fuel IH]; intros t t' evs; cbn [timed_run].
  { intros [= _ <-] _ _ _ j o x Hx. by apply elem_of_nil in Hx. }
  destruct (tstep dur res t) as [[l t1]|] eqn:Hs; [|intros [= _ <-] _ _ _ j o x Hx; by apply elem_of_nil in Hx].
  destruct (timed_run dur res fuel t1) as [t2 evs2] eqn:Hr. intros [= _ <-] Hi Hnow Hbusy j o x Hx.
  destruct (tstep_late dur res t0 t l t1 Hd Hs Hi Hnow Hbusy) as (Hn1 & Hb1 & Hf1).
  apply elem_of_cons in Hx as [[= <- ->]|Hx]; [by apply (Hf1 j o)|].
  apply (IH t1 t2 evs2 Hr) with j o; try done. apply (tstep_spec dur res Hnn t l t1 Hs Hi).
Qed.

Lemma finishes_elem_inv evs j o : (j, o) ∈ finishes evs -> exists x, (PFinish j o, x) ∈ evs.
Proof.
  induction evs as [|[l x] evs IH]; [by intros ?%elem_of_nil|].
  destruct l as [|j1 o1]; unfold finishes; simpl.
  - intros Hin. destruct (IH Hin) as [y Hy]. exists y. by constructor.
  - intros [[= -> ->]|Hin]%elem_of_cons; [exists x; constructor|].
    destruct (IH Hin) as [y Hy]. exists y. by constructor.
Qed.

(** What a round run on the pool gives: the futures it finished are
    those of its events, each once, all of them, in time order, the
    last at the end of the run, and the executor idle at the end. *)
Record round_facts (n : nat) (t0 : Z) (tp : tpool) (evs : list (ulabel * Z)) : Prop := {
  rf_finished : finished (tp_pool tp) = finishes evs;
  rf_nodup : NoDup (map fst (finishes evs));
  rf_all : map fst (finishes evs) ≡ₚ seq 0 n;
  rf_sorted : Sorted Z.le (t0 :: map snd evs);
  rf_last : last (t0 :: map snd evs) = Some (tp_now tp);
  rf_idle : idle (tp_pool tp);
  rf_started : started (tp_pool tp) ≡ₚ seq 0 n;
  rf_end : tp_now tp = t0 \/ exists j o, (PFinish j o, tp_now tp) ∈ evs
}.

Lemma round_run_facts (dur : nat -> Z) res w n t0 p :
  (forall j, (0 <= dur j)%Z) -> round_pool w n = Ok p ->
  round_facts n t0 (round_run dur res p t0).1 (round_run dur res p t0).2.
Proof.
  intros Hd Hp. destruct (round_start_inv dur w n t0 0 p Hp ltac:(lia)) as [Hi Hb].
  pose proof (bi_w _ _ _ _ _ _ Hb) as Hm0. pose proof (bi_pos _ _ _ _ _ _ Hb) as Hw0. simpl in Hm0.
  pose proof (timed_run_idle dur res Hd (work_left p) (round_start p t0) ltac:(done) Hi
    ltac:(simpl; lia)) as Hidle.
  destruct (round_pool_reachable w n p Hp) as [_ Hsub].
  destruct (round_pool_fresh w n p Hp) as [_ Hf0].
  unfold round_run. destruct (timed_run dur res (work_left p) (round_start p t0)) as [t' evs] eqn:Hr.
  simpl in *.
  destruct (timed_run_sound dur res Hd _ _ t' evs Hr Hi) as (Hi' & _ & Hrtc & Hsort & Hlast).
  destruct (timed_run_finished dur res _ _ t' evs Hr) as [Hfin Hend]. simpl in Hfin, Hend.
  rewrite Hf0 in Hfin. simpl in Hfin.
  assert (Hsub' : submitted (tp_pool t') = seq 0 n) by (rewrite (proj1 (rtc_step_frame _ _ Hrtc)); done).
  destruct (finished_submitted _ (ti_pool _ Hi')) as [Hnd _]; [rewrite Hsub'; apply NoDup_seq|].
  pose proof (idle_finished _ (ti_pool _ Hi') Hidle) as Hperm. rewrite Hsub' in Hperm.
  pose proof (inv_started _ (ti_pool _ Hi')) as Hst. destruct Hidle as [Hq Hrun].
  split.
  - exact Hfin.
  - by rewrite <- Hfin.
  - by rewrite <- Hfin.
  - exact Hsort.
  - exact Hlast.
  - by split.
  - rewrite Hrun in Hst. simpl in Hst. by rewrite <- Hst.
  - exact Hend.
Qed.

Lemma span_fst_le d evs e : e ∈ (span_deadline d evs).1 -> (e.2 <= d)%Z.
Proof.
  induction evs as [|e' evs IH]; cbn [span_deadline]; [by intros ?%elem_of_nil|].
  case_bool_decide as He; [|by intros ?%elem_of_nil].
  destruct (span_deadline d evs) as [b a]. simpl in *. intros [->|Hin]%elem_of_cons; [done|by apply IH].
Qed.

(** When [as_completed] has yielded every future by the deadline, the
    round ended by the deadline and no event is left after it. *)
Lemma all_done_by_deadline futs now d tp evs :
  round_facts (length futs) now tp evs -> (now <= d)%Z ->
  all_completed futs (finishes (span_deadline d evs).1) = true ->
  (tp_now tp <= d)%Z /\ (span_deadline d evs).2 = [].
Proof.
  intros [_ Hnd Hall Hsort Hlast _ _ Hend] Hnd0 Hc.
  destruct (sorted_below_last now _ _ Hsort Hlast) as [Ht0 Hbelow].
  assert (Hle : (tp_now tp <= d)%Z).
  { destruct Hend as [->|(j & o & Hj)]; [done|].
    assert (Hjn : j < length futs).
    { assert (Hin : j ∈ map fst (finishes evs)).
      { apply list_elem_of_fmap. exists (j, o). split; [done|]. by apply (finishes_elem _ _ _ (tp_now tp)). }
      rewrite Hall in Hin. apply elem_of_seq in Hin. lia. }
    pose proof (proj1 (all_completed_spec _ _) Hc) as Hc'. destruct (list_elem_of_fmap_1 _ _ _ (Hc' j Hjn)) as ([j' o'] & Hj' & Hin).
    simpl in Hj'. subst j'.
    destruct (finishes_elem_inv _ _ _ Hin) as [x Hx]. pose proof (span_fst_le d evs _ Hx) as Hxd. simpl in Hxd.
    assert (Hx' : (PFinish j o', x) ∈ evs) by (rewrite <- (span_app d evs); set_solver).
    pose proof (finishes_once evs j o o' (tp_now tp) x Hnd Hj Hx'). lia. }
  split; [done|]. rewrite span_all; [done|]. intros e He.
  assert (e.2 ∈ map snd evs) by (apply list_elem_of_fmap; by exists e).
  specialize (Hbelow e.2 ltac:(done)). lia.
Qed.

Lemma pending_urls_init urls : pending_urls urls (init_url_up urls) = urls.
Proof.
  unfold pending_urls. assert (H : forall u, u ∈ urls -> negb (is_up (init_url_up urls) u) = true).
  { intros u Hu. unfold is_up. rewrite init_url_up_get. by rewrite decide_True. }
  revert H. generalize (init_url_up urls) as d. intros d.
  induction urls as [|u l IH]; intros H; [done|]. simpl.
  rewrite H by constructor. f_equal. apply IH. intros v Hv. apply H. by constructor.
Qed.

(** One worker, probes of [D > 0] ticks, deadline after [D]: the first
    probe returns at the deadline and the second starts there. *)
Lemma span_one_worker res t0 D m :
  (0 < D)%Z ->
  span_deadline (t0 + D) (one_worker_events res t0 D 0 (S (S m))) =
    ([(PStart, t0); (PFinish 0 (res 0), (t0 + D)%Z); (PStart, (t0 + D)%Z)],
     (PFinish 1 (res 1), (t0 + 2 * D)%Z) :: one_worker_events res t0 D 2 m).
Proof.
  intros HD. cbn -[Z.mul Z.add Z.of_nat].
  rewrite !bool_decide_true by lia. rewrite bool_decide_false by lia.
  repeat f_equal; lia.
Qed.

Section TimedSession.
Context (py311 : bool) (urls : list url) (timeout : Z).

(** The network: the ticks the probe of future [j] of iteration [k]
    takes, and what its [urlopen] gives. *)
Context (probe : nat -> nat -> Z * urlopen_outcome).

(** The round of iteration [k]: [n] futures submitted at [now] to an
    executor of [w] workers, run until every probe has returned. *)
Definition round_events (w : Z) (k n : nat) (now : Z) : tpool * list (ulabel * Z) :=
  match round_pool w n with
  | Ok p => round_run (fun j => (probe k j).1) (fun j => (probe k j).2) p now
  | Raise _ => (round_start (mk_pool 0 [] [] [] [] false []) now, [])
  end.

(** What [as_completed] yields in iteration [k]: the futures whose probes
    returned by the deadline [now + time_left], in that order. *)
Definition timed_done (w : Z) (k : nat) (start now : Z) (futs : list url) : list (nat * urlopen_outcome) :=
  finishes (span_deadline (now + time_left timeout start now) (round_events w k (length futs) now).2).1.

(** One iteration (lines 99-128) at clock reading [now]. *)
Definition timed_body (w : Z) (k : nat) (start now : Z) (s : store) : iter_out :=
  let tl := time_left timeout start now in
  let s0 := add_event s (EvTimeLeft tl) in
  if (tl <? 0)%Z then IterExit (Ok Break) (add_event s0 EvTimeout) [RMain (EvTimeLeft tl); RMain EvTimeout] now []
  else
    match submit_each urls s0 with
    | (Raise ex, s1) => IterExit (Raise ex) s1 (map RMain (new_events s s1)) now []
    | (Ok futs, s1) =>
        let '(tp, evs) := round_events w k (length futs) now in
        let '(before, after) := span_deadline (now + tl) evs in
        let wk := main_walk futs (started (tp_pool tp)) before s1 in
        let l := map RMain (new_events s s1) ++ w_log wk in
        let drain := worker_log futs (w_starts wk) (w_rest wk ++ after) in
        match w_res wk with
        | Raise ex => IterExit (Raise ex) (w_store wk) l (tp_now tp) drain
        | Ok _ =>
            if all_completed futs (finishes before) then
              match check_failed (url_up (w_store wk)) with
              | [] => IterExit (Ok Return0) (add_event (w_store wk) EvAllOk) (l ++ [RMain EvAllOk])
                        (tp_now tp) drain
              | _ :: _ => IterNext (w_store wk) (tp_now tp) l
              end
            else IterExit (Raise (futures_TimeoutError py311)) (w_store wk) l (tp_now tp) drain
        end
    end.

(** The [while True] loop, from iteration [k] at clock reading [now]; [rd]
    holds the readings of the iterations before. *)
Fixpoint timed_loop (w : Z) (fuel k : nat) (start now : Z) (s : store) (lg : list record) (rd : list Z)
    : option exit_info :=
  match fuel with
  | O => None
  | S fuel' =>
      match timed_body w k start now s with
      | IterNext s' now' l => timed_loop w fuel' (S k) start now' s' (lg ++ l) (rd ++ [now])
      | IterExit r s' l tend dr => Some (mk_exit r s' (lg ++ l) tend dr (rd ++ [now]))
      end
  end.

(** The session called at time [t0]: lines 86-94, the pool check of
    line 96, the loop, the handlers, the workers run out when the [with]
    block is left, and lines 140-142 after it.  The result, the store,
    the log and the time the session returns. *)
Definition timed_session (fuel : nat) (threads : option Z) (t0 : Z)
    : option (result Z * store * list record * Z) :=
  let s_init := init_store urls threads in
  let log0 := map RMain (events s_init) in
  if (pool_size urls threads <=? 0)%Z then Some (Raise ValueError, s_init, log0, t0)
  else
    match timed_loop (pool_size urls threads) fuel 0 t0 t0 s_init log0 [] with
    | None => None
    | Some x =>
        let '(r1, s1) := finish_in_with py311 (x_res x) (x_store x) in
        let l1 := x_log x ++ map RMain (new_events (x_store x) s1) ++ x_drain x in
        match r1 with
        | Ok (Some c) => Some (Ok c, s1, l1, x_end x)
        | Ok None =>
            let '(r2, s2) := fail_count s1 in Some (r2, s2, l1 ++ map RMain (new_events s1 s2), x_end x)
        | Raise ex => Some (Raise ex, s1, l1, x_end x)
        end
    end.

(** The environment of [Poller] the timed session runs in: the readings
    [rd] and what [as_completed] yields from the pool. *)
Definition timed_env (w : Z) (t0 : Z) (rd : list Z) : env :=
  mk_env (fun i => match i with O => t0 | S k => nth k rd t0 end)
         (fun k futs => timed_done w k t0 (nth k rd t0) futs).

(** ** The main thread is [Poller]'s loop *)

Lemma main_walk_spec futs st evs s :
  py_for (finishes evs) (on_completed futs) s =
    (w_res (main_walk futs st evs s), w_store (main_walk futs st evs s)).
Proof.
  revert st s. induction evs as [|[[|j o] t] evs IH]; intros st s; [done| |].
  - change (finishes ((PStart, t) :: evs)) with (finishes evs).
    cbn [main_walk]. destruct (start_rec futs st) as [r st']. apply IH.
  - change (finishes ((PFinish j o, t) :: evs)) with ((j, o) :: finishes evs).
    cbn [main_walk py_for]. unfold bind at 1.
    destruct (on_completed futs (j, o) s) as [[[]|ex] s1]; [apply IH|done].
Qed.

Lemma round_unfold done_of s :
  round py311 urls done_of s =
    match submit_each urls s with
    | (Ok futs, s1) => as_completed_loop py311 futs (done_of futs) s1
    | (Raise e, s1) => (Raise e, s1)
    end.
Proof. reflexivity. Qed.

(** The handlers, inside and after the [with] block, are [finish]. *)
Lemma finish_in_with_spec r s :
  finish py311 r s =
    bind (finish_in_with py311 r) (fun x => match x with Some c => ret c | None => fail_count end) s.
Proof.
  unfold finish, finish_in_with, bind, log, modify, ret, raise.
  destruct r as [[]|ex]; [done|done|].
  destruct (issubclass ex (futures_TimeoutError py311)); [done|].
  destruct (issubclass ex ValueError); [done|]. by destruct (issubclass ex Exception).
Qed.

(** One timed iteration does what [loop_body_at] does when
    [as_completed] yields what the pool returns by the deadline. *)
Lemma timed_body_main w k start now s :
  match timed_body w k start now s with
  | IterNext s' _ _ => loop_body_at py311 urls timeout start now (timed_done w k start now) s = (Ok None, s')
  | IterExit r s' _ _ _ =>
      loop_body_at py311 urls timeout start now (timed_done w k start now) s =
        (match r with Ok x => Ok (Some x) | Raise ex => Raise ex end, s')
  end.
Proof.
  rewrite loop_body_at_spec. unfold timed_body. destruct (_ <? 0)%Z; [done|].
  rewrite round_unfold. destruct (submit_each urls _) as [[futs|ex] s1]; [|done].
  unfold as_completed_loop, bind, timed_done.
  destruct (round_events w k (length futs) now) as [tp evs].
  cbn [fst snd]. destruct (span_deadline (now + time_left timeout start now) evs) as [before after].
  cbn [fst snd].
  rewrite (main_walk_spec futs (started (tp_pool tp)) before s1).
  destruct (w_res _) as [[]|ex]; [|done].
  destruct (all_completed futs (finishes before)); [|done].
  unfold ret. destruct (check_failed (url_up _)); cbv beta iota zeta; reflexivity.
Qed.

(** The timed loop is [run_loop] in an environment that reads the clock
    as the timed loop did and yields what the pool returns. *)
Lemma timed_loop_main w fuel k start now s lg rd x :
  timed_loop w fuel k start now s lg rd = Some x -> length rd = k ->
  (rd ++ [now]) `prefix_of` x_readings x /\
  forall e, clock e 0 = start ->
    (forall i, i < length (x_readings x) ->
       clock e (S i) = nth i (x_readings x) start /\ completions e i = timed_done w i start (nth i (x_readings x) start)) ->
    run_loop py311 urls timeout e fuel k s = Some (x_res x, x_store x).
Proof.
  revert k now s lg rd. induction fuel as [|fuel IH]; intros k now s lg rd; [discriminate|].
  intros Hl Hrd. cbn [timed_loop] in Hl.
  pose proof (timed_body_main w k start now s) as Hm.
  assert (Hat : forall e, clock e 0 = start ->
    (forall i, i < length (x_readings x) ->
       clock e (S i) = nth i (x_readings x) start /\ completions e i = timed_done w i start (nth i (x_readings x) start)) ->
    (rd ++ [now]) `prefix_of` x_readings x ->
    loop_body py311 urls timeout e k s = loop_body_at py311 urls timeout start now (timed_done w k start now) s).
  { intros e H0 Hcl [post Hpost]. unfold loop_body.
    assert (Hk : k < length (x_readings x)) by (rewrite Hpost, !length_app; simpl; lia).
    destruct (Hcl k Hk) as [Hc Hd].
    assert (Hn : nth k (x_readings x) start = now).
    { rewrite Hpost, <- app_assoc, app_nth2 by lia. rewrite Hrd, Nat.sub_diag. done. }
    rewrite H0, Hc, Hd, Hn. done. }
  destruct (timed_body w k start now s) as [s' now' l|r s' l tend dr].
  - destruct (IH (S k) now' s' (lg ++ l) (rd ++ [now]) Hl ltac:(rewrite length_app; simpl; lia))
      as [Hpre Hrun].
    assert (Hpre' : (rd ++ [now]) `prefix_of` x_readings x) by (etrans; [|exact Hpre]; by exists [now']).
    split; [exact Hpre'|]. intros e H0 Hcl. cbn [run_loop]. rewrite (Hat e H0 Hcl Hpre'), Hm.
    by apply Hrun.
  - injection Hl as <-. cbn [x_readings x_res x_store]. split; [done|].
    intros e H0 Hcl. cbn [run_loop]. rewrite (Hat e H0 Hcl ltac:(done)), Hm. by destruct r.
Qed.

(** ** The environment the pool gives *)

Section NonNeg.
(** Probes take no negative time. *)
Hypothesis probe_nonneg : forall k j, (0 <= (probe k j).1)%Z.

Lemma round_events_facts w k n now p :
  round_pool w n = Ok p ->
  round_facts n now (round_events w k n now).1 (round_events w k n now).2.
Proof. intros Hp. unfold round_events. rewrite Hp. apply (round_run_facts _ _ w); [|done]. intros j. apply probe_nonneg. Qed.

(** [as_completed] yields each submitted future at most once. *)
Lemma timed_done_ok w k start now futs :
  completions_ok (length futs) (timed_done w k start now futs) = true.
Proof.
  apply completions_ok_spec. unfold timed_done.
  set (d := (now + time_left timeout start now)%Z).
  destruct (round_pool w (length futs)) as [p|ex] eqn:Hp;
    [|unfold round_events; rewrite Hp; cbn; split; [apply NoDup_nil_2|intros c Hc; by apply elem_of_nil in Hc]].
  destruct (round_events_facts w k (length futs) now p Hp) as [_ Hnd Hall _ _ _ _].
  pose proof (span_app d (round_events w k (length futs) now).2) as Happ.
  rewrite <- Happ, finishes_app, map_app in Hnd. apply NoDup_app in Hnd as [Hnd _].
  split; [done|]. intros c Hc.
  assert (Hin : c.1 ∈ map fst (finishes (round_events w k (length futs) now).2)).
  { apply list_elem_of_fmap. exists c. split; [done|]. rewrite <- Happ, finishes_app. set_solver. }
  rewrite Hall in Hin. apply elem_of_seq in Hin. lia.
Qed.

Lemma timed_env_wf w t0 rd : env_wf (timed_env w t0 rd).
Proof. intros k futs. apply timed_done_ok. Qed.

End NonNeg.

Lemma round_pool_ok w n : (0 < w)%Z -> exists p, round_pool w n = Ok p.
Proof.
  intros Hw. unfold round_pool, executor. rewrite (proj2 (Z.leb_gt w 0) Hw).
  destruct (submit_all_ok (seq 0 n) (mk_pool (Z.to_nat w) [] [] [] [] false []) eq_refl) as (p & Hp & _).
  by exists p.
Qed.

Lemma submit_each_length s futs s1 :
  submit_each urls s = (Ok futs, s1) -> length futs <= length urls.
Proof.
  revert s futs s1. induction urls as [|u us IH]; intros s futs s1; cbn [submit_each].
  { intros [= <- _]. simpl. lia. }
  unfold bind at 1, get. destruct (dict_get u (url_up s)) as [[]|]; [| |discriminate].
  - intros H. apply IH in H. simpl. lia.
  - unfold bind, log, modify, ret. cbn -[submit_each].
    destruct (submit_each us _) as [[fs|e] s2] eqn:E; [|discriminate]. intros [= <- _].
    apply IH in E. simpl. lia.
Qed.

(** ** Time *)

Section Bound.
(** Consider probes that take at most [D] ticks each. *)
Variable D : Z.
Hypothesis probe_in : forall k j, (0 <= (probe k j).1 <= D)%Z.

Lemma probe_nonneg_of_in k j : (0 <= (probe k j).1)%Z.
Proof. apply probe_in. Qed.

(** An iteration that continues ends by the deadline; one that leaves
    the loop by [break] does so at once, after the deadline; any other
    ends when its round's workers have finished, at most [D + (N - 1) *
    D / w] after it began, [N] the number of URLs. *)
Lemma timed_body_time w k start now s :
  (0 < w)%Z ->
  match timed_body w k start now s with
  | IterNext _ now' _ => (now <= now' <= start + timeout)%Z
  | IterExit r _ _ tend _ =>
      (r = Ok Break /\ tend = now /\ (start + timeout < now)%Z) \/
      ((now <= start + timeout)%Z /\ (now <= tend)%Z /\
       (w * (tend - now - D) <= (Z.of_nat (length urls) - 1) * D)%Z)
  end.
Proof.
  intros Hw. assert (HD : (0 <= D)%Z) by (pose proof (probe_in 0 0); lia).
  unfold timed_body. destruct (Z.ltb_spec (time_left timeout start now) 0) as [Hlt|Hge].
  { left. unfold time_left in Hlt. split_and!; [done|done|lia]. }
  unfold time_left in Hge.
  destruct (submit_each urls _) as [[futs|ex] s1] eqn:Hsub; [|right; split_and!; nia].
  apply submit_each_length in Hsub.
  destruct (round_pool_ok w (length futs) Hw) as [p Hp].
  pose proof (round_events_facts probe_nonneg_of_in w k (length futs) now p Hp) as Hf.
  destruct (timed_round_bound (fun j => (probe k j).1) (fun j => (probe k j).2) w (length futs) now D p
    (probe_nonneg_of_in k) (fun j _ => proj2 (probe_in k j)) HD Hp) as (_ & _ & Hge0 & Hbnd).
  unfold round_events in Hf. rewrite Hp in Hf. unfold round_events. rewrite Hp.
  unfold round_run in *. destruct (timed_run _ _ _ _) as [tp evs]. cbn [fst snd] in *.
  assert (Hgen : (now <= start + timeout)%Z /\ (now <= tp_now tp)%Z /\
                 (w * (tp_now tp - now - D) <= (Z.of_nat (length urls) - 1) * D)%Z) by (split_and!; nia).
  pose proof (all_done_by_deadline futs now (now + time_left timeout start now) tp evs Hf) as Hdone.
  destruct (span_deadline _ evs) as [before after]. cbn [fst snd] in Hdone.
  destruct (w_res _) as [[]|ex]; [|by right].
  destruct (all_completed futs (finishes before)) eqn:Hc; [|by right].
  destruct (Hdone ltac:(unfold time_left; lia) eq_refl) as [Hle _]. unfold time_left in Hle.
  destruct (check_failed _); [by right|lia].
Qed.

Lemma timed_loop_time w fuel k start now s lg rd x :
  (0 < w)%Z -> timed_loop w fuel k start now s lg rd = Some x ->
  (k = 0 -> now = start) -> (0 < k -> (now <= start + timeout)%Z) -> (start <= now)%Z ->
  (start <= x_end x)%Z /\
  (w * (x_end x - start - Z.max 0 timeout - D) <= (Z.of_nat (length urls) - 1) * D)%Z.
Proof.
  intros Hw. assert (HD : (0 <= D)%Z) by (pose proof (probe_in 0 0); lia).
  revert k now s lg rd. induction fuel as [|fuel IH]; intros k now s lg rd; [discriminate|].
  cbn [timed_loop]. pose proof (timed_body_time w k start now s Hw) as Ht.
  destruct (timed_body w k start now s) as [s' now' l|r s' l tend dr].
  - intros Hl Hk0 Hk Hs. apply (IH (S k) now' s' (lg ++ l) (rd ++ [now]) Hl); [done|lia|lia].
  - intros [= <-] Hk0 Hk Hs. cbn [x_end].
    destruct Ht as [(_ & -> & Hlt)|(H1 & H2 & H3)].
    + destruct k as [|k]; [|specialize (Hk ltac:(lia)); lia]. rewrite (Hk0 eq_refl). split; [lia|nia].
    + split; [lia|]. nia.
Qed.

End Bound.

(** ** The main thread's trace is the main part of the log *)

Lemma timed_body_events w k start now s :
  match timed_body w k start now s with
  | IterNext s' _ l => events s' = events s ++ main_of l
  | IterExit _ s' l _ dr => events s' = events s ++ main_of l /\ main_of dr = []
  end.
Proof.
  unfold timed_body. destruct (_ <? 0)%Z; [simpl; by rewrite <- app_assoc|].
  set (s0 := add_event s (EvTimeLeft (time_left timeout start now))).
  assert (Hp0 : events s `prefix_of` events s0) by (by apply prefix_app_r).
  pose proof (submit_each_prefix urls s0) as Hp1.
  destruct (submit_each urls s0) as [[futs|ex] s1]; simpl in Hp1;
    [|autorewrite with tsess; split; [|done]; apply new_events_spec; by etrans].
  destruct (round_events w k (length futs) now) as [tp evs]. cbn [fst snd].
  destruct (span_deadline _ evs) as [before after].
  pose proof (main_walk_events futs (started (tp_pool tp)) before s1) as Hw.
  assert (Hs1 : events s1 = events s ++ new_events s s1) by (apply new_events_spec; by etrans).
  destruct (w_res _) as [[]|ex]; [destruct (all_completed _ _); [destruct (check_failed _)|]|];
    cbn [events]; autorewrite with tsess; rewrite ?Hw, ?Hs1, <- ?app_assoc; done.
Qed.

Lemma timed_loop_events w fuel k start now s lg rd x :
  timed_loop w fuel k start now s lg rd = Some x -> events s = main_of lg ->
  events (x_store x) = main_of (x_log x) /\ main_of (x_drain x) = [].
Proof.
  revert k now s lg rd. induction fuel as [|fuel IH]; intros k now s lg rd; [discriminate|].
  cbn [timed_loop]. pose proof (timed_body_events w k start now s) as He.
  destruct (timed_body w k start now s) as [s' now' l|r s' l tend dr].
  - intros Hl Hs. apply (IH _ _ _ _ _ Hl). by rewrite He, main_of_app, Hs.
  - intros [= <-] Hs. destruct He as [He Hd]. cbn [x_store x_log x_drain].
    by rewrite He, main_of_app, Hs.
Qed.

Lemma finish_in_with_prefix r s : events s `prefix_of` events (finish_in_with py311 r s).2.
Proof.
  unfold finish_in_with, bind, log, modify, ret, raise.
  destruct r as [[]|ex]; [done|done|].
  destruct (issubclass ex _); [simpl; by apply prefix_app_r|].
  destruct (issubclass ex ValueError); [simpl; by apply prefix_app_r|].
  destruct (issubclass ex Exception); simpl; [by apply prefix_app_r|done].
Qed.

Lemma fail_count_prefix s : events s `prefix_of` events (fail_count s).2.
Proof. unfold fail_count, bind, get, log, modify, ret. simpl. by apply prefix_app_r. Qed.

(** ** Termination *)

Section Progress.
(** Consider probes that take at least one tick each. *)
Hypothesis probe_ge1 : forall k j, (1 <= (probe k j).1)%Z.

Lemma probe_nonneg_of_ge1 k j : (0 <= (probe k j).1)%Z.
Proof. specialize (probe_ge1 k j). lia. Qed.

Lemma pending_nil_check_failed s :
  store_inv (dict_keys (init_url_up urls)) s -> pending_urls urls (url_up s) = [] ->
  check_failed (url_up s) = [].
Proof.
  intros Hinv Hnil. destruct (check_failed (url_up s)) as [|u l] eqn:E; [done|exfalso].
  assert (Hu : u ∈ check_failed (url_up s)) by (rewrite E; apply list_elem_of_here).
  apply (elem_of_check_failed u _ (store_dict_wf urls s Hinv)) in Hu.
  assert (Hk : u ∈ urls).
  { apply init_url_up_keys. rewrite <- (inv_keys _ _ Hinv). apply dict_get_is_Some. by eexists. }
  assert (Hp : u ∈ pending_urls urls (url_up s)).
  { apply elem_of_pending_urls. split; [done|]. unfold is_up. by rewrite Hu. }
  rewrite Hnil in Hp. by apply elem_of_nil in Hp.
Qed.

(** An iteration that goes on takes at least one tick: a URL is still
    down, so its round has a future, and that probe takes a tick. *)
Lemma timed_body_advance w k start now s :
  (0 < w)%Z -> store_inv (dict_keys (init_url_up urls)) s ->
  match timed_body w k start now s with
  | IterNext _ now' _ => (now + 1 <= now' <= start + timeout)%Z
  | IterExit _ _ _ _ _ => True
  end.
Proof.
  intros Hw Hinv. unfold timed_body. destruct (Z.ltb_spec (time_left timeout start now) 0) as [_|Hge]; [done|].
  destruct (submit_each urls _) as [[futs|ex] s1] eqn:Hsub; [|done].
  rewrite submit_each_spec in Hsub
    by (intros u Hu; cbn [url_up]; rewrite (inv_keys _ _ Hinv); by apply (urls_in_keys urls)).
  injection Hsub as Hfuts Hs1. cbn [url_up] in Hfuts.
  destruct (round_pool_ok w (length futs) Hw) as [p Hp].
  pose proof (round_events_facts probe_nonneg_of_ge1 w k (length futs) now p Hp) as Hf.
  assert (Hlate : forall j o x, (PFinish j o, x) ∈ (round_events w k (length futs) now).2 -> (now + 1 <= x)%Z).
  { unfold round_events. rewrite Hp. unfold round_run.
    destruct (timed_run _ _ _ _) as [tp evs] eqn:Hr. cbn [snd].
    destruct (round_start_inv (fun j => (probe k j).1) w (length futs) now 0 p Hp ltac:(lia)) as [Hi _].
    apply (timed_run_late _ _ now _ _ _ _ (probe_ge1 k) Hr Hi); [done|by intros ? ?%elem_of_nil]. }
  destruct (round_events w k (length futs) now) as [tp evs]. cbn [fst snd] in Hf, Hlate.
  pose proof (all_done_by_deadline futs now (now + time_left timeout start now) tp evs Hf) as Hdone.
  destruct Hf as [_ _ Hall Hsort Hlast _ _ _].
  destruct (sorted_below_last now _ _ Hsort Hlast) as [_ Hbelow].
  pose proof (main_walk_spec futs (started (tp_pool tp)) (span_deadline (now + time_left timeout start now) evs).1 s1) as Hmw.
  destruct (span_deadline _ evs) as [before after]. cbn [fst] in Hmw, Hdone.
  destruct (w_res _) as [[]|ex] eqn:Hres; [|done]. destruct (all_completed _ _) eqn:Hc; [|done].
  destruct (Hdone ltac:(lia) eq_refl) as [Hd _]. unfold time_left in Hd.
  destruct (check_failed (url_up (w_store _))) eqn:Hcf; [done|].
  destruct futs as [|u futs'].
  - exfalso. destruct (finishes before) as [|c cs] eqn:Hfb.
    + cbn in Hmw. apply (f_equal snd) in Hmw. cbn [snd] in Hmw. rewrite <- Hmw, <- Hs1 in Hcf. cbn [url_up] in Hcf.
      assert (Hnil : check_failed (url_up s) = []) by (by apply pending_nil_check_failed).
      unfold ret in Hcf. cbn [snd url_up] in Hcf. congruence.
    + destruct c as [j o]. cbn [py_for] in Hmw. unfold bind, on_completed in Hmw.
      rewrite lookup_nil in Hmw. unfold raise in Hmw. apply (f_equal fst) in Hmw. cbn [fst] in Hmw. congruence.
  - assert (H0 : 0 ∈ map fst (finishes evs)) by (rewrite Hall; apply elem_of_seq; simpl; lia).
    apply list_elem_of_fmap in H0 as ([j o] & Hj & Hin). simpl in Hj. subst j.
    destruct (finishes_elem_inv _ _ _ Hin) as [x Hx].
    assert (x ∈ map snd evs) by (apply list_elem_of_fmap; by exists (PFinish 0 o, x)).
    specialize (Hbelow x ltac:(done)). specialize (Hlate 0 o x Hx). lia.
Qed.

(** The loop ends: each iteration that goes on moves the clock by a
    tick and stays by the deadline, so with more iterations of fuel than
    ticks left the loop leaves. *)
Lemma timed_loop_some w fuel k start now s lg rd :
  (0 < w)%Z -> store_inv (dict_keys (init_url_up urls)) s ->
  Z.to_nat (start + timeout - now + 1) < fuel ->
  is_Some (timed_loop w fuel k start now s lg rd).
Proof.
  intros Hw. revert k now s lg rd. induction fuel as [|fuel IH]; intros k now s lg rd Hinv Hf; [lia|].
  cbn [timed_loop]. pose proof (timed_body_advance w k start now s Hw Hinv) as Ha.
  pose proof (timed_body_main w k start now s) as Hm.
  pose proof (loop_body_at_inv py311 urls timeout start now (timed_done w k start now) s Hinv) as Hinv'.
  destruct (timed_body w k start now s) as [s' now' l|]; [|by eexists].
  rewrite Hm in Hinv'. apply IH; [done|lia].
Qed.

End Progress.

(** ** The session's exits *)

(** A session ends in the pool check, or leaves the loop, runs the
    handler of the [with] block, and returns from it or after it. *)
Lemma timed_session_cases fuel threads t0 res s lg T :
  timed_session fuel threads t0 = Some (res, s, lg, T) ->
  ((pool_size urls threads <= 0)%Z /\ res = Raise ValueError /\ s = init_store urls threads /\
   lg = map RMain (events (init_store urls threads)) /\ T = t0) \/
  exists x r1 s1,
    (0 < pool_size urls threads)%Z /\
    timed_loop (pool_size urls threads) fuel 0 t0 t0 (init_store urls threads)
      (map RMain (events (init_store urls threads))) [] = Some x /\
    finish_in_with py311 (x_res x) (x_store x) = (r1, s1) /\ T = x_end x /\
    let l1 := x_log x ++ map RMain (new_events (x_store x) s1) ++ x_drain x in
    ((exists c, r1 = Ok (Some c) /\ res = Ok c /\ s = s1 /\ lg = l1) \/
     (r1 = Ok None /\ fail_count s1 = (res, s) /\ lg = l1 ++ map RMain (new_events s1 s)) \/
     (exists ex, r1 = Raise ex /\ res = Raise ex /\ s = s1 /\ lg = l1)).
Proof.
  unfold timed_session. destruct (Z.leb_spec (pool_size urls threads) 0) as [Hp|Hp].
  { intros [= <- <- <- <-]. by left. }
  destruct (timed_loop _ _ _ _ _ _ _ _) as [x|] eqn:Hl; [|discriminate].
  destruct (finish_in_with py311 (x_res x) (x_store x)) as [r1 s1] eqn:Hf.
  intros Hs. right. exists x, r1, s1.
  destruct r1 as [[c|]|ex]; [|destruct (fail_count s1) as [r2 s2] eqn:Hc|];
    injection Hs as <- <- <- <-; (split_and!; [lia|done|done|done|]).
  - left. by exists c.
  - by right; left.
  - right; right. by exists ex.
Qed.

(** How the loop is left, seen in the log: the records the workers
    write after the main thread left are workers' records, and there
    are none after [return 0] or [break], where no probe is running;
    [return 0] comes right after [OK:All Urls.]. *)
Definition exit_shape (x : exit_info) : Prop :=
  Forall (fun r => is_worker r = true) (x_drain x) /\
  (x_res x = Ok Return0 -> (exists l, x_log x = l ++ [RMain EvAllOk]) /\ x_drain x = []) /\
  (x_res x = Ok Break -> x_drain x = []).

Lemma timed_body_shape w k start now s :
  (forall k j, (0 <= (probe k j).1)%Z) -> (0 < w)%Z ->
  match timed_body w k start now s with
  | IterNext _ _ _ => True
  | IterExit r s' l tend dr => exit_shape (mk_exit r s' l tend dr [])
  end.
Proof.
  intros Hnn Hw. unfold exit_shape. cbn [x_drain x_res x_log]. unfold timed_body.
  destruct (_ <? 0)%Z eqn:Htl; [split_and!; [constructor|discriminate|done]|].
  destruct (submit_each urls _) as [[futs|ex] s1]; [|split_and!; [constructor|discriminate|discriminate]].
  destruct (round_pool_ok w (length futs) Hw) as [p Hp].
  pose proof (round_events_facts Hnn w k (length futs) now p Hp) as Hf.
  destruct (round_events w k (length futs) now) as [tp evs]. cbn [fst snd] in Hf.
  pose proof (all_done_by_deadline futs now (now + time_left timeout start now) tp evs Hf) as Hdone.
  destruct (span_deadline _ evs) as [before after]. cbn [fst snd] in Hdone.
  pose proof (main_walk_rest futs (started (tp_pool tp)) before s1) as Hrest.
  destruct (w_res _) as [[]|ex]; [|split_and!; [apply worker_log_workers|discriminate|discriminate]].
  destruct (all_completed futs (finishes before)) eqn:Hc;
    [|split_and!; [apply worker_log_workers|discriminate|discriminate]].
  destruct (check_failed _); [|done]. split_and!; [apply worker_log_workers| |discriminate].
  intros _. split; [by eexists|].
  apply Z.ltb_ge in Htl. destruct (Hdone ltac:(lia) eq_refl) as [_ ->]. by rewrite Hrest.
Qed.

Lemma timed_loop_shape w fuel k start now s lg rd x :
  (forall k j, (0 <= (probe k j).1)%Z) -> (0 < w)%Z ->
  timed_loop w fuel k start now s lg rd = Some x -> exit_shape x.
Proof.
  intros Hnn Hw. revert k now s lg rd. induction fuel as [|fuel IH]; intros k now s lg rd; [discriminate|].
  cbn [timed_loop]. pose proof (timed_body_shape w k start now s Hnn Hw) as Hsh.
  destruct (timed_body w k start now s) as [s' now' l|r s' l tend dr]; [apply IH|].
  intros [= <-]. destruct Hsh as (H1 & H2 & H3). unfold exit_shape. cbn [x_log x_drain x_res] in *.
  split_and!; [done| |done].
  intros Hr. destruct (H2 Hr) as [[l' Hl'] Hd]. split; [|done]. exists (lg ++ l'). by rewrite Hl', app_assoc.
Qed.

(** ** Properties *)


(** C12: The session returns.  When every probe takes at least a tick,
    each iteration that goes on moves the clock on by a tick and ends by
    the deadline; so the session, called with more iterations of fuel
    than [timeout + 1] ticks, leaves the loop and returns, whatever the
    URLs and the probes' outcomes. *)
Theorem timed_session_terminates fuel threads t0 :
  (forall k j, (1 <= (probe k j).1)%Z) -> Z.to_nat (timeout + 1) < fuel ->
  is_Some (timed_session fuel threads t0).
Proof.
  intros Hge Hf. unfold timed_session.
  destruct (Z.leb_spec (pool_size urls threads) 0) as [_|Hp]; [by eexists|].
  destruct (timed_loop_some Hge (pool_size urls threads) fuel 0 t0 t0 (init_store urls threads)
    (map RMain (events (init_store urls threads))) [] Hp (init_store_inv urls threads) ltac:(lia)) as [x ->].
  destruct (finish_in_with _ _ _) as [[[c|]|ex] s1]; [by eexists| |by eexists].
  destruct (fail_count s1). by eexists.
Qed.


(** C10: The log announces the result: at [INFO] (the level [cli_main]
    sets without [--verbose]) or below, the last record written is
    [OK:All Urls.] when the session returns 0 through [return 0] and
    [FAIL:<the URLs left>] when it returns the failure count, even at
    [DEBUG], since [FAIL] is logged after the [with] block has waited
    for the workers.  After -2 or -3 the error record is followed by the
    records of the workers still running or queued, which finish during
    [shutdown(wait=True)]: at [DEBUG] they can come after the error,
    at [INFO] nothing does. *)
Theorem timed_session_log_announces fuel threads t0 c s lg T th :
  (forall k j, (0 <= (probe k j).1)%Z) ->
  timed_session fuel threads t0 = Some (Ok c, s, lg, T) -> (th <= INFO)%Z ->
  (c = 0%Z /\ last (emitted_rec th lg) = Some (RMain EvAllOk)) \/
  (c = fail_code (check_failed (url_up s)) /\
     last (emitted_rec th lg) = Some (RMain (EvFail (check_failed (url_up s))))) \/
  (c = INVALID_URL_CODE /\ exists ex pre post, emitted_rec th lg = pre ++ RMain (EvInvalid ex) :: post /\
     Forall (fun r => is_worker r = true) post /\ ((DEBUG < th)%Z -> post = [])) \/
  (c = UNEXPECTED_CODE /\ exists ex pre post, emitted_rec th lg = pre ++ RMain (EvUnexpected ex) :: post /\
     Forall (fun r => is_worker r = true) post /\ ((DEBUG < th)%Z -> post = [])).
Proof.
  intros Hnn Hs Hth. destruct (timed_session_cases fuel threads t0 _ s lg T Hs)
    as [(_ & Hr & _)|(x & r1 & s1 & Hp & Hl & Hf & _ & Hend)]; [discriminate|].
  destruct (timed_loop_shape _ _ _ _ _ _ _ _ _ Hnn Hp Hl) as (Hw & H0 & Hb).
  destruct (emitted_workers th _ Hw) as [Hw1 Hw2].
  destruct (finish_in_with_cases _ _ _ _ _ Hf)
    as [(Hr0 & -> & ->)|[(-> & Hs1)|[(-> & ex & ->)|[(-> & ex & ->)|(ex & -> & ->)]]]];
    destruct Hend as [(c' & [= <-] & [= ->] & -> & ->)|[([= ] & Hc & ->)|(ex' & _ & [= ] & _)]];
    try discriminate.
  - left. destruct (H0 Hr0) as [[l ->] ->]. rewrite new_events_same. split; [done|].
    rewrite !app_nil_r, emitted_rec_app, emitted_rec_shown by (done || (by exists INFO)). apply last_snoc.
  - right; left. revert Hc. unfold fail_count, bind, get, log, modify, ret. intros [= <- <-].
    cbn [url_up]. split; [done|]. rewrite new_events_add. cbn [map].
    rewrite !emitted_rec_app, (emitted_rec_shown th (EvFail _)) by (done || (by exists ERROR)).
    cbn [map]. rewrite app_assoc. apply last_snoc.
  - do 2 right; left. split; [done|]. exists ex, (emitted_rec th (x_log x)), (emitted_rec th (x_drain x)).
    rewrite new_events_add. cbn [map].
    rewrite !emitted_rec_app, (emitted_rec_shown th (EvInvalid ex)) by (done || (by exists ERROR)).
    split_and!; [done|done|done].
  - do 3 right. split; [done|]. exists ex, (emitted_rec th (x_log x)), (emitted_rec th (x_drain x)).
    rewrite new_events_add. cbn [map].
    rewrite !emitted_rec_app, (emitted_rec_shown th (EvUnexpected ex)) by (done || (by exists ERROR)).
    split_and!; [done|done|done].
Qed.

End TimedSession.

(** A network where every probe hangs for [timeout] ticks and then
    fails with [URLError]. *)
Definition hang_probe (timeout : Z) (k j : nat) : Z * urlopen_outcome := (timeout, Failed URLError).

(** C13: The session waits for queued probes: with [--threads 1], two
    URLs or more and probes that each hang for the whole timeout, the
    first round's deadline passes while the second probe runs, and the
    [with] block of lines 113-128 waits for every queued probe before
    the failure count is returned: the session returns all URLs down,
    [N * timeout] after it was called, where section 3 of the
    specification promises the timeout plus one attempt's timeout and
    says that abandoned attempts do not block the session. *)
Theorem one_worker_overrun py311 urls timeout fuel t0 :
  2 <= length urls -> (0 < timeout)%Z ->
  exists s lg, timed_session py311 urls timeout (hang_probe timeout) (S fuel) (Some 1%Z) t0 =
    Some (Ok (fail_code (check_failed (init_url_up urls))), s, lg, (t0 + Z.of_nat (length urls) * timeout)%Z).
Proof.
  intros Hn Ht. destruct urls as [|u0 [|u1 rest]]; simpl in Hn; [lia|lia|].
  set (urls := u0 :: u1 :: rest).
  unfold timed_session. replace (pool_size urls (Some 1%Z)) with 1%Z by reflexivity.
  change (1 <=? 0)%Z with false. cbv iota.
  destruct (round_pool_ok 1 (length urls) ltac:(lia)) as [p Hp].
  cbn [timed_loop]. unfold timed_body.
  rewrite (proj2 (Z.ltb_ge _ 0)) by (unfold time_left; lia).
  rewrite submit_each_spec by (intros u Hu; by apply init_url_up_keys).
  cbn [url_up init_store]. rewrite pending_urls_init.
  unfold round_events. rewrite Hp. unfold hang_probe at 1 2. rewrite (one_worker_round _ _ _ _ _ Hp).
  unfold time_left. replace (t0 + (timeout - (t0 - t0)))%Z with (t0 + timeout)%Z by lia.
  change (length urls) with (S (S (length rest))). rewrite span_one_worker by done.
  destruct py311; cbn -[Z.of_nat Z.mul Z.add fail_code check_failed init_url_up]; eexists _, _; reflexivity.
Qed.

(** ** Witnesses *)

(** A session of two URLs that never answer, [--timeout 2], one worker;
    its log read at the level set without [--verbose]. *)
Definition sample_urls : list url := ["http://a"; "http://b"]%string.

Definition sample_session : option (result Z * store * list record * Z) :=
  timed_session false sample_urls 2 (hang_probe 2) 4 (Some 1%Z) 0.



Lemma timed_session_terminates_witness : is_Some sample_session.
Proof.
  apply (timed_session_terminates false sample_urls 2 (hang_probe 2) 4 (Some 1%Z) 0);
    [intros k j; unfold hang_probe; simpl; lia|vm_compute; lia].
Defined.

Lemma timed_session_log_announces_witness :
  match sample_session with
  | Some (Ok c, s, lg, T) =>
      (c = 0%Z /\ last (emitted_rec (basic_config false) lg) = Some (RMain EvAllOk)) \/
      (c = fail_code (check_failed (url_up s)) /\
         last (emitted_rec (basic_config false) lg) = Some (RMain (EvFail (check_failed (url_up s))))) \/
      (c = INVALID_URL_CODE /\ exists ex pre post, emitted_rec (basic_config false) lg = pre ++ RMain (EvInvalid ex) :: post /\
         Forall (fun r => is_worker r = true) post /\ ((DEBUG < basic_config false)%Z -> post = [])) \/
      (c = UNEXPECTED_CODE /\ exists ex pre post, emitted_rec (basic_config false) lg = pre ++ RMain (EvUnexpected ex) :: post /\
         Forall (fun r => is_worker r = true) post /\ ((DEBUG < basic_config false)%Z -> post = []))
  | _ => False
  end.
Proof.
  unfold sample_session. destruct (timed_session _ _ _ _ _ _ _) as [[[[[c|ex] s] lg] T]|] eqn:E;
    [|vm_compute in E; discriminate|vm_compute in E; discriminate].
  apply (timed_session_log_announces false sample_urls 2 (hang_probe 2) 4 (Some 1%Z) 0 c s lg T (basic_config false));
    [intros k j; unfold hang_probe; simpl; lia|exact E|vm_compute; discriminate].
Defined.

Lemma one_worker_overrun_witness :
  exists s lg, timed_session false sample_urls 2 (hang_probe 2) 4 (Some 1%Z) 0 =
    Some (Ok (fail_code (check_failed (init_url_up sample_urls))), s, lg, (0 + Z.of_nat (length sample_urls) * 2)%Z).
Proof. apply (one_worker_overrun false sample_urls 2 3 0); [simpl; lia|lia]. Defined.

End TimedSession.
