(* ===== verification/Argparse.v ===== *)
(** The string conversions argparse applies to the options of [cli_main]
    (src/wait_for_connection.py, lines 153-177): [type=float] for
    [--timeout] and [type=int] for [--threads], with the printing that
    inverts them.

    Strings are lists of ASCII characters here.  [float] is modelled on
    the decimal forms [[+-]d+[.d*]] and [[+-].d+] with at most six
    fraction digits, converted to microsecond ticks exactly; the forms
    [float] accepts beyond these (exponents, underscores, surrounding
    white space as [str.isspace] defines it, [inf], [nan], more fraction
    digits, and any string with a non-ASCII character, since [float]
    reads Unicode digits and spaces) are reported as outside the model
    ([ConvUnsupported]), and every other string is an error of [float],
    as in Python.  [int] likewise on [[+-]d+]. *)

From stdpp Require Import base list strings.
From Stdlib Require Import Ascii String ZArith Lia.
From S2P Require Import Prelude.

Module Argparse.

(** What a conversion gives: a value, the error of [float]/[int]
    (argparse then exits with status 2), or a string the model does not
    cover. *)
Inductive conv (A : Type) :=
| Conv (a : A)
| ConvErr
| ConvUnsupported.
Arguments Conv {A} a.
Arguments ConvErr {A}.
Arguments ConvUnsupported {A}.

(** ** Digits *)

Definition digit_of (c : ascii) : option Z :=
  let n := Z.of_nat (nat_of_ascii c) in
  if (48 <=? n)%Z && (n <=? 57)%Z then Some (n - 48)%Z else None.

Definition char_of_digit (d : Z) : ascii := ascii_of_nat (Z.to_nat (48 + d)).

(** The value of a string of digits read after [acc]. *)
Fixpoint digits_val (acc : Z) (cs : list ascii) : option Z :=
  match cs with
  | [] => Some acc
  | c :: cs => match digit_of c with
               | Some d => digits_val (acc * 10 + d)%Z cs
               | None => None
               end
  end.

(** The last [k] decimal digits of [n], most significant first. *)
Fixpoint fixed_digits (k : nat) (n : Z) : list ascii :=
  match k with
  | O => []
  | S k => fixed_digits k (n / 10) ++ [char_of_digit (n mod 10)]
  end.

(** Enough digits for [n]: [log2 n + 1] of them. *)
Definition show_digits (n : Z) : list ascii := fixed_digits (S (Z.to_nat (Z.log2 n))) n.

(** Splitting at the first occurrence of a character. *)
Fixpoint break_at (c : ascii) (cs : list ascii) : list ascii * option (list ascii) :=
  match cs with
  | [] => ([], None)
  | x :: r => if ascii_dec x c then ([], Some r)
              else let '(a, b) := break_at c r in (x :: a, b)
  end.

Definition split_sign (cs : list ascii) : Z * list ascii :=
  match cs with
  | "-"%char :: r => (-1, r)
  | "+"%char :: r => (1, r)
  | _ => (1, cs)
  end%Z.

(** The characters that make a string one [float] or [int] may accept
    beyond the forms modelled: exponent, [inf]/[nan], underscores, and
    what [str.isspace] calls white space, which both strip: space, tab to
    carriage return ([\t\n\v\f\r]) and the separators [\x1c]-[\x1f].
    A byte of 128 or more belongs to a non-ASCII character, which may be
    a Unicode space or digit that both accept too. *)
Definition outside_char (c : ascii) : bool :=
  let n := nat_of_ascii c in
  bool_decide (c ∈ ["e"; "E"; "i"; "I"; "n"; "N"; "_"; " "]%char) ||
  ((9 <=? n) && (n <=? 13))%nat || ((28 <=? n) && (n <=? 31))%nat || (128 <=? n)%nat.

(** ** Conversions *)

(** [float(s)], in microseconds. *)
Definition parse_seconds (s : string) : conv Z :=
  let cs := list_ascii_of_string s in
  if existsb outside_char cs then ConvUnsupported
  else
    let '(sg, r) := split_sign cs in
    match break_at "."%char r with
    | (ip, None) =>
        match ip, digits_val 0 ip with
        | _ :: _, Some v => Conv (sg * v * 1000000)%Z
        | _, _ => ConvErr
        end
    | (ip, Some fp) =>
        match digits_val 0 ip, digits_val 0 fp with
        | Some v, Some f =>
            if bool_decide (ip = [] /\ fp = []) then ConvErr
            else if (List.length fp <=? 6)%nat
                 then Conv (sg * (v * 1000000 + f * 10 ^ Z.of_nat (6 - List.length fp)))%Z
                 else ConvUnsupported
        | _, _ => ConvErr
        end
    end.

(** [int(s)]. *)
Definition parse_int (s : string) : conv Z :=
  let cs := list_ascii_of_string s in
  if existsb outside_char cs then ConvUnsupported
  else
    let '(sg, r) := split_sign cs in
    match r, digits_val 0 r with
    | _ :: _, Some v => Conv (sg * v)%Z
    | _, _ => ConvErr
    end.

(** ** Printing *)

Definition sign_chars (t : Z) : list ascii := if (t <? 0)%Z then ["-"%char] else [].

(** A tick count as seconds with six decimals, e.g. ["0.000001"]. *)
Definition show_seconds (t : Z) : string :=
  string_of_list_ascii
    (sign_chars t ++ show_digits (Z.abs t / 1000000) ++ "."%char :: fixed_digits 6 (Z.abs t mod 1000000)).

Definition show_int (n : Z) : string :=
  string_of_list_ascii (sign_chars n ++ show_digits (Z.abs n)).

Definition digit_chars : list ascii := ["0"; "1"; "2"; "3"; "4"; "5"; "6"; "7"; "8"; "9"]%char.

(** ** Lemmas *)

Lemma digit_of_char d : (0 <= d < 10)%Z -> digit_of (char_of_digit d) = Some d.
Proof.
  intros Hd.
  assert (d = 0 \/ d = 1 \/ d = 2 \/ d = 3 \/ d = 4 \/ d = 5 \/ d = 6 \/ d = 7 \/ d = 8 \/ d = 9)%Z
    as Hc by lia.
  repeat destruct Hc as [-> | Hc]; [reflexivity..|]. by subst.
Qed.

Lemma digits_val_app acc l1 l2 :
  digits_val acc (l1 ++ l2) = match digits_val acc l1 with Some v => digits_val v l2 | None => None end.
Proof.
  revert acc. induction l1 as [|c l1 IH]; intros acc; simpl; [done|].
  destruct (digit_of c); [apply IH|done].
Qed.

Lemma digits_val_fixed k n acc :
  (0 <= n)%Z -> digits_val acc (fixed_digits k n) = Some (acc * 10 ^ Z.of_nat k + n mod 10 ^ Z.of_nat k)%Z.
Proof.
  revert n acc. induction k as [|k IH]; intros n acc Hn; simpl.
  - f_equal. rewrite Z.mod_1_r. lia.
  - rewrite digits_val_app, IH by (apply Z.div_pos; lia). simpl.
    rewrite digit_of_char by (apply Z.mod_pos_bound; lia). f_equal.
    rewrite Nat2Z.inj_succ, Z.pow_succ_r by lia.
    rewrite Z.rem_mul_r by (try apply Z.pow_pos_nonneg; lia).
    lia.
Qed.

Lemma fixed_digits_length k n : List.length (fixed_digits k n) = k.
Proof. revert n. induction k as [|k IH]; intros n; simpl; [done|]. rewrite length_app, IH. simpl. lia. Qed.

(** The digits [show_digits] prints are those of [n]. *)
Lemma digits_val_show n acc :
  (0 <= n)%Z -> digits_val acc (show_digits n) = Some (acc * 10 ^ Z.of_nat (List.length (show_digits n)) + n)%Z.
Proof.
  intros Hn. unfold show_digits. rewrite digits_val_fixed, fixed_digits_length by done.
  rewrite Z.mod_small; [done|]. split; [done|].
  destruct (Z.eq_dec n 0) as [->|Hn0]; [apply Z.pow_pos_nonneg; lia|].
  apply Z.lt_le_trans with (2 ^ Z.of_nat (S (Z.to_nat (Z.log2 n))))%Z.
  - rewrite Nat2Z.inj_succ, Z2Nat.id by apply Z.log2_nonneg. apply Z.log2_spec. lia.
  - apply Z.pow_le_mono_l. lia.
Qed.

Lemma digit_char_cases d :
  (0 <= d < 10)%Z ->
  outside_char (char_of_digit d) = false /\ char_of_digit d <> "."%char /\
  (forall r, split_sign (char_of_digit d :: r) = (1%Z, char_of_digit d :: r)).
Proof.
  intros Hd.
  assert (d = 0 \/ d = 1 \/ d = 2 \/ d = 3 \/ d = 4 \/ d = 5 \/ d = 6 \/ d = 7 \/ d = 8 \/ d = 9)%Z
    as Hc by lia.
  repeat destruct Hc as [-> | Hc]; [split_and!; [reflexivity|discriminate|reflexivity]..|]. by subst.
Qed.

(** Every character [fixed_digits] prints is a digit. *)
Lemma fixed_digits_chars k n c :
  c ∈ fixed_digits k n -> exists d, (0 <= d < 10)%Z /\ c = char_of_digit d.
Proof.
  revert n. induction k as [|k IH]; intros n; simpl; [by intros ?%elem_of_nil|].
  intros [Hc|Hc%list_elem_of_singleton]%elem_of_app; [by apply (IH (n / 10)%Z)|].
  exists (n mod 10)%Z. split; [apply Z.mod_pos_bound; lia|done].
Qed.

Lemma digits_no_outside k n : existsb outside_char (fixed_digits k n) = false.
Proof.
  apply not_true_iff_false. rewrite existsb_exists. intros (c & Hin & Hout).
  apply list_elem_of_In, fixed_digits_chars in Hin as (d & Hd & ->).
  by rewrite (proj1 (digit_char_cases d Hd)) in Hout.
Qed.

Lemma break_at_digits k n rest :
  break_at "."%char (fixed_digits k n ++ "."%char :: rest) = (fixed_digits k n, Some rest).
Proof.
  assert (Hgen : forall l, (forall c, c ∈ l -> c <> "."%char) ->
            break_at "."%char (l ++ "."%char :: rest) = (l, Some rest)).
  { induction l as [|c l IH]; intros Hl; simpl; [done|].
    destruct (ascii_dec c "."); [exfalso; by apply (Hl c); [apply list_elem_of_here|]|].
    rewrite IH; [done|]. intros c' Hc'. apply Hl. by apply list_elem_of_further. }
  apply Hgen. intros c Hc. apply fixed_digits_chars in Hc as (d & Hd & ->).
  apply (digit_char_cases d Hd).
Qed.

(** [show_digits] starts with a digit. *)
Lemma show_digits_cons n : exists d r, (0 <= d < 10)%Z /\ show_digits n = char_of_digit d :: r.
Proof.
  pose proof (fixed_digits_length (S (Z.to_nat (Z.log2 n))) n) as Hl.
  unfold show_digits. destruct (fixed_digits _ n) as [|c r] eqn:E; [discriminate|].
  assert (Hc : c ∈ fixed_digits (S (Z.to_nat (Z.log2 n))) n) by (rewrite E; apply list_elem_of_here).
  apply fixed_digits_chars in Hc as (d & Hd & ->). by exists d, r.
Qed.

Lemma split_sign_show t rest :
  split_sign (sign_chars t ++ show_digits (Z.abs t / 1000000) ++ rest) =
    (if (t <? 0)%Z then (-1)%Z else 1%Z, show_digits (Z.abs t / 1000000) ++ rest).
Proof.
  unfold sign_chars. destruct (t <? 0)%Z; [done|].
  destruct (show_digits_cons (Z.abs t / 1000000)) as (d & r & Hd & ->). simpl.
  apply (digit_char_cases d Hd).
Qed.
(** ** The characters printed *)

Lemma char_of_digit_in d : (0 <= d < 10)%Z -> char_of_digit d ∈ digit_chars.
Proof.
  intros Hd.
  assert (d = 0 \/ d = 1 \/ d = 2 \/ d = 3 \/ d = 4 \/ d = 5 \/ d = 6 \/ d = 7 \/ d = 8 \/ d = 9)%Z
    as Hc by lia.
  repeat destruct Hc as [-> | Hc]; try subst; vm_compute; repeat constructor.
Qed.

Lemma fixed_digits_in k n c : c ∈ fixed_digits k n -> c ∈ digit_chars.
Proof. intros (d & Hd & ->)%fixed_digits_chars. by apply char_of_digit_in. Qed.

Lemma sign_chars_in t c : c ∈ sign_chars t -> c = "-"%char.
Proof. unfold sign_chars. destruct (t <? 0)%Z; [apply list_elem_of_singleton|by intros ?%elem_of_nil]. Qed.

(** [show_seconds] prints a sign, digits and a point only. *)
Lemma show_seconds_chars t c :
  c ∈ list_ascii_of_string (show_seconds t) -> c ∈ "-"%char :: "."%char :: digit_chars.
Proof.
  unfold show_seconds, show_digits. rewrite list_ascii_of_string_of_list_ascii.
  intros [->%sign_chars_in|[Hc|[->|Hc]%elem_of_cons]%elem_of_app]%elem_of_app.
  - apply list_elem_of_here.
  - by do 2 apply list_elem_of_further; eapply fixed_digits_in.
  - apply list_elem_of_further, list_elem_of_here.
  - by do 2 apply list_elem_of_further; eapply fixed_digits_in.
Qed.

Lemma show_int_chars n c :
  c ∈ list_ascii_of_string (show_int n) -> c ∈ "-"%char :: digit_chars.
Proof.
  unfold show_int, show_digits. rewrite list_ascii_of_string_of_list_ascii.
  intros [->%sign_chars_in|Hc]%elem_of_app; [apply list_elem_of_here|].
  by apply list_elem_of_further; eapply fixed_digits_in.
Qed.

Lemma break_at_notin c l : c ∉ l -> break_at c l = (l, None).
Proof.
  induction l as [|x l IH]; intros Hl; simpl; [done|].
  destruct (ascii_dec x c) as [->|_]; [by destruct Hl; apply list_elem_of_here|].
  rewrite IH; [done|]. intros Hin. apply Hl. by apply list_elem_of_further.
Qed.

(** ** Round trips *)

(** [float] reads back the seconds [show_seconds] prints. *)
Lemma parse_show_seconds t : parse_seconds (show_seconds t) = Conv t.
Proof.
  unfold parse_seconds, show_seconds. rewrite list_ascii_of_string_of_list_ascii.
  set (q := (Z.abs t / 1000000)%Z). set (r := (Z.abs t mod 1000000)%Z).
  assert (Hq : (0 <= q)%Z) by (apply Z.div_pos; lia).
  assert (Hr : (0 <= r < 1000000)%Z) by (apply Z.mod_pos_bound; lia).
  replace (existsb outside_char _) with false.
  2:{ symmetry. rewrite existsb_app, existsb_app. cbn [existsb]. unfold show_digits.
      rewrite !digits_no_outside. unfold sign_chars. destruct (t <? 0)%Z; vm_compute; reflexivity. }
  rewrite split_sign_show. fold q. unfold show_digits at 1. rewrite break_at_digits.
  fold (show_digits q). rewrite digits_val_show, digits_val_fixed, fixed_digits_length by lia.
  destruct (show_digits_cons q) as (d & l & _ & Hl). rewrite Hl.
  rewrite bool_decide_false by (intros [? _]; discriminate). simpl.
  rewrite (Z.mod_small r) by lia. f_equal.
  assert (Ht : Z.abs t = (q * 1000000 + r)%Z) by (unfold q, r; pose proof (Z.div_mod (Z.abs t) 1000000); lia).
  destruct (Z.ltb_spec t 0); lia.
Qed.

(** [int] reads back what [show_int] prints. *)
Lemma parse_show_int n : parse_int (show_int n) = Conv n.
Proof.
  unfold parse_int, show_int. rewrite list_ascii_of_string_of_list_ascii.
  replace (existsb outside_char _) with false.
  2:{ symmetry. rewrite existsb_app. unfold show_digits. rewrite digits_no_outside.
      unfold sign_chars. destruct (n <? 0)%Z; vm_compute; reflexivity. }
  destruct (show_digits_cons (Z.abs n)) as (d & l & Hd & Hl).
  assert (Hs : split_sign (sign_chars n ++ show_digits (Z.abs n)) =
                 (if (n <? 0)%Z then (-1)%Z else 1%Z, show_digits (Z.abs n))).
  { unfold sign_chars. destruct (n <? 0)%Z; [done|]. rewrite Hl. apply (digit_char_cases d Hd). }
  pose proof (digits_val_show (Z.abs n) 0 ltac:(lia)) as Hv.
  rewrite Hs. cbn -[show_digits digits_val]. rewrite Hl in Hv |- *. rewrite Hv. f_equal.
  destruct (Z.ltb_spec n 0); lia.
Qed.
End Argparse.
