(* ===== verification/Cli.v ===== *)
(** The command line: the defaults of lines 44-52, argparse (Python
    3.11) on the argument strings of [cli_main] (lines 145-179), the call
    of line 183, the [sys.exit] of line 187, and the invocations of
    src/test_wait_for_connection.py.

    [parse_tokens] follows [ArgumentParser.parse_args]: every string is
    first classified by [_parse_optional] (ambiguous abbreviations fail
    there), then [_parse_known_args] consumes the strings with
    [consume_optional] for each option; [--timeout] and [--threads] take
    one string, [--urls] the strings up to the next option, [-v] and
    [-h] none.  Values are converted by [Argparse]: ticks are
    microseconds, so [TIMEOUT = 30.0] seconds is [30000000].  The
    theorems: the printed command line of a namespace parses back to it,
    argparse's exits, and the tests' calls. *)

From stdpp Require Import base list strings.
From Stdlib Require Import Ascii String ZArith Lia.
From S2P Require Import Prelude PyExc PyDict UrlState ReturnCode Round Poller Argparse.
Import PyExc PyDict UrlState ReturnCode Round Poller Argparse.

Module Cli.

(** ** Defaults (lines 44-52) *)

Definition TIMEOUT : Z := 30000000.
Definition URLS : list url :=
  ["https://google.com/"; "http://archive.raspberrypi.org/debian";
   "http://raspbian.raspberrypi.org/raspbian"].
Definition VERBOSE : bool := false.
Definition THREADS : Z := 8.

(** ** Arguments *)

(** [vars(args)]: the keyword arguments [cli_main] passes on. *)
Record namespace := mk_ns {
  ns_timeout : Z;
  ns_urls : list url;
  ns_verbose : bool;
  ns_threads : option Z
}.

(** The options of lines 153-177 as argparse delivers them. *)
Inductive cli_opt :=
| OptTimeout (t : Z)       (** [--timeout T], [type=float] *)
| OptUrls (us : list url)  (** [--urls U ...], [nargs="*"] *)
| OptVerbose               (** [-v] / [--verbose], [store_true] *)
| OptThreads (n : Z).      (** [--threads N], [type=int], no default *)

(** The namespace before any option: [default=TIMEOUT], [default=URLS],
    [False] for [store_true], and [None] for [--threads]. *)
Definition default_ns : namespace := mk_ns TIMEOUT URLS false None.

(** An option overwrites its destination; a later occurrence wins. *)
Definition apply_opt (ns : namespace) (o : cli_opt) : namespace :=
  match o with
  | OptTimeout t => mk_ns t (ns_urls ns) (ns_verbose ns) (ns_threads ns)
  | OptUrls us => mk_ns (ns_timeout ns) us (ns_verbose ns) (ns_threads ns)
  | OptVerbose => mk_ns (ns_timeout ns) (ns_urls ns) true (ns_threads ns)
  | OptThreads n => mk_ns (ns_timeout ns) (ns_urls ns) (ns_verbose ns) (Some n)
  end.

(** [ap.parse_args(args)] *)
Definition parse_args (opts : list cli_opt) : namespace := fold_left apply_opt opts default_ns.

(** [cli_main(args)]: [i_can_has_threaded_connection] called with the
    keyword arguments [vars(args)]; the
    logging set-up of line 181 has no effect on the result. *)
Definition cli_main (py311 : bool) (e : env) (fuel : nat) (opts : list cli_opt)
    : option (result Z * store) :=
  let ns := parse_args opts in
  i_can_has_threaded_connection py311 (ns_urls ns) (ns_timeout ns) e fuel (ns_threads ns).

(** The exit status of [sys.exit(cli_main())] (line 187): the low byte of
    the returned code; an uncaught exception ends the interpreter with
    status 1, except [KeyboardInterrupt], which ends it by [SIGINT]
    (status 130 in a shell). *)
Definition process_status (r : result Z) : Z :=
  match r with
  | Ok c => exit_status c
  | Raise KeyboardInterrupt => 130
  | Raise _ => 1
  end.


(** ** argparse's reading of the command line (Python 3.11) *)

(** The actions of the parser: [-h]/[--help], added by [ArgumentParser],
    and the four of lines 153-177. *)
Inductive action_kind := ActHelp | ActTimeout | ActUrls | ActVerbose | ActThreads.

#[export] Instance action_kind_eq_dec : EqDecision action_kind.
Proof. solve_decision. Defined.

(** [_option_string_actions], in the order the strings are registered. *)
Definition option_strings : list (list ascii * action_kind) :=
  map (fun p => (list_ascii_of_string p.1, p.2))
    [("-h", ActHelp); ("--help", ActHelp); ("--timeout", ActTimeout); ("--urls", ActUrls);
     ("-v", ActVerbose); ("--verbose", ActVerbose); ("--threads", ActThreads)].

Definition option_lookup (o : list ascii) : option action_kind :=
  snd <$> List.find (fun p => bool_decide (p.1 = o)) option_strings.

(** [_match_argument(action, 'A')]: the strings an explicit argument
    stands for; 0 for [store_true] and [help]. *)
Definition takes_arg (a : action_kind) : bool :=
  match a with ActHelp | ActVerbose => false | _ => true end.

(** What [_parse_optional] makes of one string. *)
Inductive token_class :=
| TArg                                        (** ['A']: an argument *)
| TOpt (a : action_kind) (o : list ascii) (explicit : option (list ascii))
| TUnknown                                    (** ['O'] with no action *)
| TAmbiguous.                                 (** [ambiguous option]: error *)

(** [_get_option_tuples]: the abbreviations of a long option, or a short
    option followed by its argument or further short options. *)
Definition option_tuples (cs : list ascii) : list (action_kind * list ascii * option (list ascii)) :=
  match cs with
  | "-"%char :: "-"%char :: _ =>
      let '(pre, ex) := break_at "="%char cs in
      map (fun p => (p.2, p.1, ex)) (filter (fun p => bool_decide (pre `prefix_of` p.1)) option_strings)
  | "-"%char :: c :: rest =>
      flat_map (fun p => if bool_decide (p.1 = ["-"; c]%char) then [(p.2, p.1, Some rest)]
                         else if bool_decide (cs `prefix_of` p.1) then [(p.2, p.1, None)] else [])
        option_strings
  | _ => []
  end.

Definition all_digits (cs : list ascii) : bool := forallb (fun c => bool_decide (is_Some (digit_of c))) cs.

(** [_negative_number_matcher]: [^-\d+$|^-\d*\.\d+$]. *)
Definition negative_number (cs : list ascii) : bool :=
  match cs with
  | "-"%char :: r =>
      match break_at "."%char r with
      | (ip, None) => bool_decide (ip <> []) && all_digits ip
      | (ip, Some fp) => all_digits ip && bool_decide (fp <> []) && all_digits fp
      end
  | _ => false
  end.

(** [_parse_optional] *)
Definition parse_optional (cs : list ascii) : token_class :=
  match cs with
  | [] => TArg
  | c :: _ =>
    if negb (bool_decide (c = "-"%char)) then TArg else
    match option_lookup cs with
    | Some a => TOpt a cs None
    | None =>
      if bool_decide (List.length cs = 1%nat) then TArg else
      let by_tuples :=
        match option_tuples cs with
        | [(a, o, ex)] => TOpt a o ex
        | _ :: _ :: _ => TAmbiguous
        | [] => if negative_number cs then TArg
                else if bool_decide (" "%char ∈ cs) then TArg else TUnknown
        end in
      match break_at "="%char cs with
      | (o, Some ex) => match option_lookup o with Some a => TOpt a o (Some ex) | None => by_tuples end
      | (_, None) => by_tuples
      end
    end
  end.

(** [_get_values] for one argument string: [type=float], [type=int], or
    the string itself for [--urls]. *)
Definition convert (a : action_kind) (s : string) : conv cli_opt :=
  match a with
  | ActTimeout => match parse_seconds s with
                  | Conv t => Conv (OptTimeout t) | ConvErr => ConvErr | ConvUnsupported => ConvUnsupported
                  end
  | ActThreads => match parse_int s with
                  | Conv n => Conv (OptThreads n) | ConvErr => ConvErr | ConvUnsupported => ConvUnsupported
                  end
  | ActUrls => Conv (OptUrls [s])
  | ActHelp | ActVerbose => ConvErr
  end.

(** How parsing ends: the options in the order their actions ran,
    [parser.exit(status)] (0 after the help, 2 after an error), or a
    command line outside the model. *)
Inductive parse_outcome :=
| Parsed (opts : list cli_opt)
| ArgExit (status : Z)
| ArgUnsupported.

(** The option whose arguments are being consumed. *)
Inductive pmode :=
| Idle
| WantArg (a : action_kind)     (** [nargs=None]: the next string *)
| Collect (us : list url).      (** [nargs="*"]: the strings so far, reversed *)

Inductive opt_step :=
| StepTo (m : pmode) (acc : list cli_opt) (extras : bool)
| StepExit (o : parse_outcome).

(** [consume_optional] with no explicit argument. *)
Definition open_option (a : action_kind) (acc : list cli_opt) (extras : bool) : opt_step :=
  match a with
  | ActHelp => StepExit (ArgExit 0)
  | ActVerbose => StepTo Idle (OptVerbose :: acc) extras
  | ActTimeout | ActThreads => StepTo (WantArg a) acc extras
  | ActUrls => StepTo (Collect []) acc extras
  end.

(** [take_action] on the single-dash flags of a chain, in order: the help
    exits, [--verbose] stores [True]. *)
Fixpoint take_flags (fl : list action_kind) (acc : list cli_opt) : option (list cli_opt) :=
  match fl with
  | [] => Some acc
  | ActHelp :: _ => None
  | _ :: fl => take_flags fl (OptVerbose :: acc)
  end.

(** [consume_optional] with an explicit argument: the argument of an
    option that takes one, or the chain [-vh...] of single-dash flags,
    whose actions run once the whole chain is read; [ignored explicit
    argument] otherwise.  [flags] holds the chain read so far, last
    first. *)
Fixpoint explicit_chain (a : action_kind) (o ex : list ascii) (flags : list action_kind)
    (acc : list cli_opt) (extras : bool) : opt_step :=
  if takes_arg a then
    match take_flags (rev flags) acc with
    | None => StepExit (ArgExit 0)
    | Some acc =>
        match convert a (string_of_list_ascii ex) with
        | Conv v => StepTo Idle (v :: acc) extras
        | ConvErr => StepExit (ArgExit 2)
        | ConvUnsupported => StepExit ArgUnsupported
        end
    end
  else
    match o, ex with
    | _ :: c :: _, x :: r =>
        if bool_decide (c = "-"%char) then StepExit (ArgExit 2) else
        match option_lookup ["-"; x]%char with
        | None => StepExit (ArgExit 2)
        | Some a' =>
            match r with
            | [] => match take_flags (rev (a :: flags)) acc with
                    | None => StepExit (ArgExit 0)
                    | Some acc => open_option a' acc extras
                    end
            | _ :: _ => explicit_chain a' ["-"; x]%char r (a :: flags) acc extras
            end
        end
    | _, _ => StepExit (ArgExit 2)
    end.

(** [consume_optional] on an option string. *)
Definition option_step (cls : token_class) (acc : list cli_opt) (extras : bool) : opt_step :=
  match cls with
  | TArg | TUnknown => StepTo Idle acc true
  | TAmbiguous => StepExit (ArgExit 2)
  | TOpt a _ None => open_option a acc extras
  | TOpt a o (Some ex) => explicit_chain a o ex [] acc extras
  end.

(** One string of the loop of [_parse_known_args]: an argument no
    option takes goes to the extras; an option that needs an argument
    and meets none fails ([expected one argument]). *)
Definition consume_one (m : pmode) (acc : list cli_opt) (extras : bool) (tok : string)
    (cls : token_class) : opt_step :=
  match m, cls with
  | WantArg a, TArg =>
      match convert a tok with
      | Conv v => StepTo Idle (v :: acc) extras
      | ConvErr => StepExit (ArgExit 2)
      | ConvUnsupported => StepExit ArgUnsupported
      end
  | WantArg _, _ => StepExit (ArgExit 2)
  | Collect us, TArg => StepTo (Collect (tok :: us)) acc extras
  | Collect us, _ => option_step cls (OptUrls (rev us) :: acc) extras
  | Idle, TArg => StepTo Idle acc true
  | Idle, _ => option_step cls acc extras
  end.

(** The end of the strings: the last option's arguments, then
    [unrecognized arguments] (status 2) if there are extras. *)
Definition consume_end (m : pmode) (acc : list cli_opt) (extras : bool) : parse_outcome :=
  match m with
  | WantArg _ => ArgExit 2
  | Idle => if extras then ArgExit 2 else Parsed (rev acc)
  | Collect us => if extras then ArgExit 2 else Parsed (rev (OptUrls (rev us) :: acc))
  end.

Fixpoint consume (ts : list (string * token_class)) (m : pmode) (acc : list cli_opt) (extras : bool)
    : parse_outcome :=
  match ts with
  | [] => consume_end m acc extras
  | (tok, cls) :: ts =>
      match consume_one m acc extras tok cls with
      | StepTo m acc ex => consume ts m acc ex
      | StepExit o => o
      end
  end.

(** The state after a prefix of the strings, or how parsing ended in it. *)
Fixpoint consume_prefix (ts : list (string * token_class)) (m : pmode) (acc : list cli_opt)
    (extras : bool) : opt_step :=
  match ts with
  | [] => StepTo m acc extras
  | (tok, cls) :: ts =>
      match consume_one m acc extras tok cls with
      | StepTo m acc ex => consume_prefix ts m acc ex
      | StepExit o => StepExit o
      end
  end.

Definition is_ambiguous (cls : token_class) : bool :=
  match cls with TAmbiguous => true | _ => false end.

(** Strings outside the model: ["--"], after which every string is an
    argument, strings with a newline, which the [$] of the
    negative-number pattern accepts at the end, and strings with a
    non-ASCII character, which the pattern's [\d] may read as a digit. *)
Definition outside_token (t : string) : bool :=
  bool_decide (t = "--") || bool_decide ("010"%char ∈ list_ascii_of_string t) ||
  existsb (fun c => 128 <=? nat_of_ascii c)%nat (list_ascii_of_string t).

(** [ap.parse_args(args)] (line 179): every string is classified first,
    which reports an ambiguous abbreviation before any action runs. *)
Definition classify (argv : list string) : list (string * token_class) :=
  map (fun t => (t, parse_optional (list_ascii_of_string t))) argv.

Definition parse_tokens (argv : list string) : parse_outcome :=
  if existsb outside_token argv then ArgUnsupported else
  let ts := classify argv in
  if existsb (fun p => is_ambiguous p.2) ts then ArgExit 2 else consume ts Idle [] false.

(** A command line inside the model with no ambiguous abbreviation. *)
Definition argv_ok (argv : list string) : bool :=
  negb (existsb outside_token argv) && negb (existsb (fun p => is_ambiguous p.2) (classify argv)).

(** A string that [_parse_known_args] puts in the extras when no option
    is waiting for an argument: an argument, or an unknown option. *)
Definition leftover (u : string) : bool :=
  match parse_optional (list_ascii_of_string u) with TArg | TUnknown => true | _ => false end.

(** [cli_main(args)] on the strings of the command line: argparse exits,
    or the session runs on the parsed options. *)
Inductive cli_result :=
| CliExit (status : Z)
| CliReturn (r : option (result Z * store))
| CliUnsupported.

Definition cli_main_argv (py311 : bool) (e : env) (fuel : nat) (argv : list string) : cli_result :=
  match parse_tokens argv with
  | Parsed opts => CliReturn (cli_main py311 e fuel opts)
  | ArgExit st => CliExit st
  | ArgUnsupported => CliUnsupported
  end.

(** A string argparse takes as an argument, whatever its position. *)
Definition is_arg (cls : token_class) : bool := match cls with TArg => true | _ => false end.

Definition positional_string (u : string) : bool :=
  negb (outside_token u) && is_arg (parse_optional (list_ascii_of_string u)).

(** The command line that gives back a namespace: every field written
    out, [--urls] taking the strings up to the next option. *)
Definition render (ns : namespace) : list string :=
  ["--timeout"; show_seconds (ns_timeout ns); "--urls"] ++ ns_urls ns ++
  (if ns_verbose ns then ["--verbose"] else []) ++
  match ns_threads ns with Some n => ["--threads"; show_int n] | None => [] end.

(** ** The tests (src/test_wait_for_connection.py) *)

(** [test_wait]: [cli_main(('--timeout', '1'))]. *)
Definition test_wait_argv : list string := ["--timeout"; "1"].

(** [test_timeout]: [--timeout 0.000001], then [--timeout 0.01]; both
    are expected to return a positive count. *)
Definition test_timeout_first_argv : list string := ["--timeout"; "0.000001"].
Definition test_timeout_second_argv : list string := ["--timeout"; "0.01"].

(** [test_url_error]: [cli_main(('--urls', 'potato')) == -2]. *)
Definition test_url_error_argv : list string := ["--urls"; "potato"].

(** ** Lemmas *)

Lemma digit_chars_not c :
  c ∈ digit_chars -> c <> "-"%char /\ c <> "."%char /\ c <> "="%char /\ c <> "010"%char.
Proof. intros Hc. elem_cases Hc; subst; split_and!; discriminate. Qed.

Lemma all_digits_fixed k n : all_digits (fixed_digits k n) = true.
Proof.
  apply forallb_forall. intros c Hc%list_elem_of_In.
  apply fixed_digits_chars in Hc as (d & Hd & ->). rewrite digit_of_char by done.
  apply bool_decide_eq_true_2. eauto.
Qed.

(** A string starting with a digit, or a negative number, is an argument. *)
Lemma parse_optional_numeric c l :
  c ∈ digit_chars -> "="%char ∉ l ->
  parse_optional (c :: l) = TArg /\
  (negative_number ("-" :: c :: l)%char = true -> parse_optional ("-" :: c :: l)%char = TArg).
Proof.
  intros Hc Hl. destruct (digit_chars_not c Hc) as (Hdash & _ & Heq & _). split.
  { unfold parse_optional. by rewrite bool_decide_false. }
  intros Hn. unfold parse_optional. rewrite (break_at_notin "=").
  2:{ intros Hin. elem_cases Hin; [by apply Heq|done]. }
  rewrite Hn. elem_cases Hc; subst; vm_compute; reflexivity.
Qed.

(** The printed seconds and integers are arguments. *)
Lemma numeric_positional s :
  (forall c, c ∈ list_ascii_of_string s -> c ∈ "-"%char :: "."%char :: digit_chars) ->
  (exists c l, c ∈ digit_chars /\
     (list_ascii_of_string s = c :: l \/
      (list_ascii_of_string s = "-"%char :: c :: l /\ negative_number ("-" :: c :: l)%char = true))) ->
  positional_string s = true.
Proof.
  intros Hchars (c & l & Hc & Hs).
  assert (Hl : forall x, x ∈ l -> x ∈ "-"%char :: "."%char :: digit_chars).
  { intros x Hx. apply Hchars. destruct Hs as [-> | [-> _]]; by repeat constructor. }
  assert (Hnoeq : "="%char ∉ l) by (intros Hin%Hl; elem_cases Hin).
  assert (Hnonl : "010"%char ∉ list_ascii_of_string s) by (intros Hin%Hchars; elem_cases Hin).
  assert (Hin : c ∈ list_ascii_of_string s) by (destruct Hs as [-> | [-> _]]; by repeat constructor).
  unfold positional_string, outside_token. rewrite (bool_decide_false (s = "--")).
  2:{ intros ->. destruct (digit_chars_not c Hc) as (Hd & _). by elem_cases Hin. }
  rewrite bool_decide_false by done.
  assert (Hascii : existsb (fun c => 128 <=? nat_of_ascii c)%nat (list_ascii_of_string s) = false).
  { apply not_true_iff_false. rewrite existsb_exists.
    intros (x & Hx%list_elem_of_In%Hchars & Hb). by elem_cases Hx; subst x. }
  rewrite Hascii. cbn [negb orb andb].
  destruct (parse_optional_numeric c l Hc Hnoeq) as [Hp Hm].
  destruct Hs as [-> | [-> Hn]]; [by rewrite Hp|by rewrite Hm].
Qed.

Lemma show_seconds_positional t : positional_string (show_seconds t) = true.
Proof.
  apply numeric_positional; [apply show_seconds_chars|].
  unfold show_seconds. rewrite list_ascii_of_string_of_list_ascii.
  destruct (show_digits_cons (Z.abs t / 1000000)) as (d & l & Hd & Hl).
  exists (char_of_digit d), (l ++ "."%char :: fixed_digits 6 (Z.abs t mod 1000000)).
  split; [by apply char_of_digit_in|]. unfold sign_chars. rewrite Hl.
  destruct (t <? 0)%Z; [right|by left]. split; [done|].
  unfold negative_number. rewrite app_comm_cons, <- Hl. unfold show_digits at 1.
  rewrite break_at_digits. fold (show_digits (Z.abs t / 1000000)). rewrite Hl.
  rewrite <- Hl. unfold show_digits. rewrite !all_digits_fixed, bool_decide_true; [done|].
  rewrite <- length_zero_iff_nil, fixed_digits_length. done.
Qed.

Lemma show_int_positional n : positional_string (show_int n) = true.
Proof.
  apply numeric_positional.
  { intros c [-> | Hc]%show_int_chars%elem_of_cons; [constructor|by do 2 constructor]. }
  unfold show_int. rewrite list_ascii_of_string_of_list_ascii.
  destruct (show_digits_cons (Z.abs n)) as (d & l & Hd & Hl).
  exists (char_of_digit d), l. split; [by apply char_of_digit_in|]. unfold sign_chars. rewrite Hl.
  destruct (n <? 0)%Z; [right|by left]. split; [done|].
  unfold negative_number. rewrite <- Hl, break_at_notin.
  - rewrite bool_decide_true by (rewrite Hl; discriminate). unfold show_digits. by rewrite all_digits_fixed.
  - intros Hin. unfold show_digits in Hin. apply fixed_digits_in, digit_chars_not in Hin. by destruct Hin as (_ & ? & _).
Qed.

Lemma positional_string_spec u :
  positional_string u = true -> outside_token u = false /\ parse_optional (list_ascii_of_string u) = TArg.
Proof.
  unfold positional_string. intros [Ho Ha]%andb_prop. split; [by apply negb_true_iff|].
  by destruct (parse_optional _).
Qed.

Lemma classify_app a b : classify (a ++ b) = classify a ++ classify b.
Proof. apply map_app. Qed.

Lemma classify_positional us :
  Forall (fun u => positional_string u = true) us -> classify us = map (fun u => (u, TArg)) us.
Proof.
  intros Hus. apply list_eq_Forall2, Forall2_fmap, Forall_Forall2_diag.
  eapply Forall_impl; [exact Hus|]. intros u Hu. by rewrite (proj2 (positional_string_spec u Hu)).
Qed.

Lemma existsb_outside_positional us :
  Forall (fun u => positional_string u = true) us -> existsb outside_token us = false.
Proof.
  induction 1 as [|u us Hu _ IH]; [done|]. simpl. by rewrite (proj1 (positional_string_spec u Hu)), IH.
Qed.

(** [--urls] takes every argument up to the next option. *)
Lemma consume_collect us rest vs acc ex :
  consume (map (fun u => (u, TArg)) us ++ rest) (Collect vs) acc ex =
  consume rest (Collect (rev us ++ vs)) acc ex.
Proof.
  revert vs. induction us as [|u us IH]; intros vs; [done|].
  simpl. rewrite IH, <- app_assoc. done.
Qed.

(** How parsing can end before the last string: never with a namespace. *)
Definition early_exit (o : parse_outcome) : bool :=
  match o with Parsed _ => false | _ => true end.

(** The extras only grow, and a step that ends parsing is an exit. *)
Definition step_ok (extras : bool) (st : opt_step) : Prop :=
  match st with
  | StepTo _ _ ex => extras = true -> ex = true
  | StepExit o => early_exit o = true
  end.

Lemma open_option_ok a acc extras : step_ok extras (open_option a acc extras).
Proof. destruct a; simpl; auto. Qed.

Lemma explicit_chain_ok a o ex flags acc extras : step_ok extras (explicit_chain a o ex flags acc extras).
Proof.
  revert a o flags acc. induction ex as [|x r IH]; intros a o flags acc; simpl;
    (destruct (takes_arg a); [destruct (take_flags _ _); [destruct (convert _ _)|]; simpl; auto|]).
  - by destruct o as [|? []].
  - destruct o as [|? [|c ?]]; [done..|]. case_bool_decide; [done|].
    destruct (option_lookup _); [|done]. destruct r; [|apply IH].
    destruct (take_flags _ _); [apply open_option_ok|done].
Qed.

Lemma option_step_ok cls acc extras : step_ok extras (option_step cls acc extras).
Proof. destruct cls as [| ? ? []| |]; simpl; auto using open_option_ok, explicit_chain_ok. Qed.

Lemma consume_one_ok m acc extras tok cls : step_ok extras (consume_one m acc extras tok cls).
Proof.
  destruct m, cls; cbn [consume_one]; try apply option_step_ok; try destruct (convert _ tok); simpl; auto.
Qed.

Lemma consume_prefix_ok ts m acc extras : step_ok extras (consume_prefix ts m acc extras).
Proof.
  revert m acc extras. induction ts as [|[tok cls] ts IH]; intros m acc extras; simpl; [done|].
  pose proof (consume_one_ok m acc extras tok cls) as Hok.
  destruct (consume_one _ _ _ _ _) as [m' acc' ex'|o]; [|done].
  specialize (IH m' acc' ex'). destruct (consume_prefix _ _ _ _); simpl in *; auto.
Qed.

Lemma consume_app ts ts' m acc ex :
  consume (ts ++ ts') m acc ex =
  match consume_prefix ts m acc ex with StepTo m acc ex => consume ts' m acc ex | StepExit o => o end.
Proof.
  revert m acc ex. induction ts as [|[tok cls] ts IH]; intros m acc ex; simpl; [done|].
  destruct (consume_one _ _ _ _ _); [apply IH|done].
Qed.

(** With extras, parsing never gives a namespace. *)
Lemma consume_extras ts m acc opts : consume ts m acc true <> Parsed opts.
Proof.
  rewrite <- (app_nil_r ts), consume_app. pose proof (consume_prefix_ok ts m acc true) as Hok.
  destruct (consume_prefix _ _ _ _) as [m' acc' ex'|o]; simpl in Hok.
  - rewrite Hok by done. by destruct m'.
  - by destruct o.
Qed.

Lemma parse_tokens_ok argv :
  argv_ok argv = true -> parse_tokens argv = consume (classify argv) Idle [] false.
Proof.
  unfold argv_ok, parse_tokens. intros [Ho Ha]%andb_prop.
  apply negb_true_iff in Ho, Ha. by rewrite Ho, Ha.
Qed.

Lemma argv_ok_cons t argv :
  argv_ok (t :: argv) = negb (outside_token t) && negb (is_ambiguous (parse_optional (list_ascii_of_string t))) && argv_ok argv.
Proof. unfold argv_ok. cbn [existsb classify map]. by destruct (outside_token t), (is_ambiguous _), (existsb _ _). Qed.

(** [--timeout] with printed seconds. *)
Lemma parse_timeout t : parse_tokens ["--timeout"; show_seconds t] = Parsed [OptTimeout t].
Proof.
  destruct (positional_string_spec _ (show_seconds_positional t)) as [Hto Htc].
  rewrite parse_tokens_ok by (rewrite !argv_ok_cons, Hto, Htc; reflexivity).
  cbn [classify map consume]. rewrite Htc.
  change (parse_optional (list_ascii_of_string "--timeout")) with
    (TOpt ActTimeout (list_ascii_of_string "--timeout") None).
  cbn [consume_one option_step open_option convert]. by rewrite parse_show_seconds.
Qed.

(** ** Properties *)

(** C16: Round trip of the command line: for a namespace whose URLs
    argparse reads as arguments, parsing [render ns] runs the actions
    [--timeout], [--urls], [--verbose] and [--threads] whose namespace is
    [ns] again: [float] reads back the printed seconds, [int] the printed
    count, and [nargs="*"] stops at the next option. *)
Theorem parse_render ns :
  Forall (fun u => positional_string u = true) (ns_urls ns) ->
  exists opts, parse_tokens (render ns) = Parsed opts /\ parse_args opts = ns.
Proof.
  intros Hus. destruct ns as [t us v th]. cbn [ns_urls] in Hus.
  pose proof (positional_string_spec _ (show_seconds_positional t)) as [Hto Htc].
  unfold parse_tokens, render. cbn [ns_timeout ns_urls ns_verbose ns_threads].
  rewrite existsb_app, existsb_app, (existsb_outside_positional us Hus). cbn [existsb].
  rewrite Hto. replace (existsb outside_token _) with false
    by (destruct v, th as [n|]; cbn [existsb app];
        try rewrite (proj1 (positional_string_spec _ (show_int_positional n))); vm_compute; reflexivity).
  rewrite !classify_app, (classify_positional us Hus). cbn [classify map]. rewrite Htc.
  replace (outside_token "--timeout" || _) with false by (vm_compute; reflexivity). cbn [negb].
  pose proof (fun n => proj2 (positional_string_spec _ (show_int_positional n))) as Hic.
  replace (existsb _ _) with false.
  2:{ rewrite !existsb_app. replace (existsb _ (map _ us)) with false by (clear; induction us; done).
      destruct v, th; cbn [classify map]; try rewrite Hic; vm_compute; reflexivity. }
  change (parse_optional (list_ascii_of_string "--timeout")) with (TOpt ActTimeout (list_ascii_of_string "--timeout") None).
  change (parse_optional (list_ascii_of_string "--urls")) with (TOpt ActUrls (list_ascii_of_string "--urls") None).
  cbn [app consume consume_one consume_end option_step open_option convert]. rewrite parse_show_seconds.
  cbn [consume_one option_step open_option]. rewrite consume_collect.
  rewrite app_nil_r.
  destruct v, th; cbn [classify map]; try rewrite Hic;
    change (parse_optional (list_ascii_of_string "--verbose")) with
      (TOpt ActVerbose (list_ascii_of_string "--verbose") None);
    change (parse_optional (list_ascii_of_string "--threads")) with
      (TOpt ActThreads (list_ascii_of_string "--threads") None);
    cbn [app consume consume_one consume_end option_step open_option convert];
    rewrite ?parse_show_int, List.rev_involutive; (eexists; split; [reflexivity|done]).
Qed.

(** A namespace with a negative timeout, two URLs, [-v] and [--threads]. *)
Definition render_demo_ns : namespace := mk_ns (-1500000) ["https://example.org/"; "potato"] true (Some 4%Z).

Lemma parse_render_witness :
  Forall (fun u => positional_string u = true) (ns_urls render_demo_ns) /\
  render render_demo_ns =
    ["--timeout"; "-1.500000"; "--urls"; "https://example.org/"; "potato"; "--verbose"; "--threads"; "004"] /\
  exists opts, parse_tokens (render render_demo_ns) = Parsed opts /\ parse_args opts = render_demo_ns.
Proof.
  assert (Hus : Forall (fun u => positional_string u = true) (ns_urls render_demo_ns))
    by (repeat constructor).
  split; [exact Hus|]. split; [vm_compute; reflexivity|].
  exact (parse_render render_demo_ns Hus).
Defined.

(** C17: argparse's exits: [-h] first prints the help and exits with
    status 0; an option left without its argument ([expected one
    argument]), a [--timeout] value [float] rejects, a first string that
    is an argument or an unknown option ([unrecognized arguments]) and an
    abbreviation of two options ([--t]: [--timeout] or [--threads]) end
    parsing with status 2 or before any namespace is built. *)
Theorem parse_tokens_errors :
  (forall rest, argv_ok rest = true -> parse_tokens ("-h" :: rest) = ArgExit 0) /\
  (forall argv opts, parse_tokens (argv ++ ["--timeout"]) <> Parsed opts) /\
  (forall s rest, positional_string s = true -> parse_seconds s = ConvErr -> argv_ok rest = true ->
     parse_tokens ("--timeout" :: s :: rest) = ArgExit 2) /\
  (forall u argv opts, leftover u = true -> parse_tokens (u :: argv) <> Parsed opts) /\
  (forall argv, existsb outside_token argv = false -> "--t" ∈ argv -> parse_tokens argv = ArgExit 2).
Proof.
  split_and!.
  - intros rest Hok. rewrite parse_tokens_ok by (rewrite argv_ok_cons, Hok; reflexivity).
    cbn [classify map consume].
    change (parse_optional (list_ascii_of_string "-h")) with (TOpt ActHelp (list_ascii_of_string "-h") None).
    reflexivity.
  - intros argv opts. unfold parse_tokens.
    destruct (existsb outside_token _); [done|]. destruct (existsb _ _); [done|].
    rewrite classify_app, consume_app. pose proof (consume_prefix_ok (classify argv) Idle [] false) as Hok.
    destruct (consume_prefix _ _ _ _) as [m acc ex|o]; [|by destruct o].
    cbn [classify map consume].
    change (parse_optional (list_ascii_of_string "--timeout")) with
      (TOpt ActTimeout (list_ascii_of_string "--timeout") None).
    by destruct m.
  - intros s rest Hs Hconv Hok. destruct (positional_string_spec s Hs) as [Hso Hsc].
    rewrite parse_tokens_ok by (rewrite !argv_ok_cons, Hso, Hsc, Hok; reflexivity).
    cbn [classify map consume]. rewrite Hsc.
    change (parse_optional (list_ascii_of_string "--timeout")) with
      (TOpt ActTimeout (list_ascii_of_string "--timeout") None).
    cbn [consume_one option_step open_option convert]. by rewrite Hconv.
  - intros u argv opts Hu. unfold parse_tokens.
    destruct (existsb outside_token _); [done|]. destruct (existsb _ _); [done|].
    cbn [classify map consume]. unfold leftover in Hu.
    destruct (parse_optional (list_ascii_of_string u)); try discriminate; apply consume_extras.
  - intros argv Hout Hin. unfold parse_tokens. rewrite Hout.
    replace (existsb _ (classify argv)) with true; [done|]. symmetry. apply existsb_exists.
    exists ("--t", parse_optional (list_ascii_of_string "--t")). split; [|vm_compute; reflexivity].
    apply in_map_iff. exists "--t". split; [done|]. by apply list_elem_of_In.
Qed.

Lemma parse_tokens_errors_witness :
  parse_tokens ["-h"; "--urls"; "a"] = ArgExit 0 /\
  (forall opts, parse_tokens ["--urls"; "a"; "--timeout"] <> Parsed opts) /\
  parse_tokens ["--timeout"; "1.2.3"] = ArgExit 2 /\
  (forall opts, parse_tokens ["potato"; "--timeout"; "1"] <> Parsed opts) /\
  parse_tokens ["--t"; "1"] = ArgExit 2.
Proof.
  destruct parse_tokens_errors as (Hh & Hm & Hf & Hl & Ha).
  split_and!.
  - apply Hh. vm_compute. reflexivity.
  - apply (Hm ["--urls"; "a"]).
  - apply Hf; vm_compute; reflexivity.
  - intros opts. apply Hl. vm_compute. reflexivity.
  - apply Ha; [vm_compute; reflexivity|]. apply list_elem_of_here.
Defined.

(** C28: [test_timeout]'s first call: [cli_main(('--timeout', T))] with
    [T] printed in seconds and a first clock reading more than [T] after
    [start] breaks before any probe and returns 3, the number of default
    URLs, whatever the network does; the test's ["0.000001"] is [T] = 1
    tick. *)
Theorem test_timeout_first_check py311 e fuel t :
  (0 < fuel)%nat -> (t < clock e 1 - clock e 0)%Z ->
  exists s, cli_main_argv py311 e fuel ["--timeout"; show_seconds t] = CliReturn (Some (Ok 3%Z, s)).
Proof.
  intros Hf Ht. destruct fuel as [|fuel]; [lia|].
  unfold cli_main_argv. rewrite parse_timeout.
  unfold cli_main, parse_args. simpl. unfold i_can_has_threaded_connection. simpl.
  unfold loop_body. rewrite loop_body_at_spec.
  replace (time_left t (clock e 0) (clock e 1) <? 0)%Z with true
    by (symmetry; apply Z.ltb_lt; unfold time_left; lia).
  eexists. reflexivity.
Qed.

(** A clock that advances two ticks per reading, every URL answering. *)
Definition two_tick_env : env := mk_env (fun j => 2 * Z.of_nat j)%Z (all_complete (fun _ => all_up)).

Lemma test_timeout_first_check_witness :
  test_timeout_first_argv = ["--timeout"; show_seconds 1] /\
  (1 < clock two_tick_env 1 - clock two_tick_env 0)%Z /\
  exists s, cli_main_argv true two_tick_env 1 test_timeout_first_argv = CliReturn (Some (Ok 3%Z, s)).
Proof.
  assert (Ha : test_timeout_first_argv = ["--timeout"; show_seconds 1]) by (vm_compute; reflexivity).
  assert (Ht : (1 < clock two_tick_env 1 - clock two_tick_env 0)%Z) by (vm_compute; reflexivity).
  split; [exact Ha|]. split; [exact Ht|]. rewrite Ha.
  exact (test_timeout_first_check true two_tick_env 1 1 ltac:(lia) Ht).
Defined.

(** C29: [test_url_error]: when the probe of "potato" raises [ValueError]
    ([unknown url type]) in the first round and the first clock check
    passes, [cli_main(('--urls', 'potato'))] returns -2, as the test
    expects. *)
Theorem test_url_error_result py311 e fuel :
  completions e 0 ["potato"] = [(0%nat, Failed ValueError)] ->
  (clock e 1 - clock e 0 <= TIMEOUT)%Z ->
  exists s, cli_main_argv py311 e (S fuel) test_url_error_argv = CliReturn (Some (Ok INVALID_URL_CODE, s)).
Proof.
  intros Hc Ht. unfold cli_main_argv.
  replace (parse_tokens test_url_error_argv) with (Parsed [OptUrls ["potato"]]) by (vm_compute; reflexivity).
  unfold cli_main, parse_args. simpl.
  rewrite (session_first_round py311 ["potato"] TIMEOUT e fuel None);
    [|vm_compute; reflexivity|unfold time_left; lia].
  destruct (round_first_unhandled py311 ["potato"] (completions e 0)
    (add_event (init_store ["potato"] None) (EvTimeLeft (time_left TIMEOUT (clock e 0) (clock e 1))))
    [] 0 ValueError [] (urls_in_keys ["potato"])) as [s1 Hround].
  - simpl. rewrite Hc. reflexivity.
  - exact Hc.
  - intros c Hin. by apply elem_of_nil in Hin.
  - reflexivity.
  - rewrite Hround. eexists. by destruct py311.
Qed.

Lemma test_url_error_result_witness :
  completions (env_of (fun _ => Failed ValueError)) 0 ["potato"] = [(0%nat, Failed ValueError)] /\
  (clock (env_of (fun _ => Failed ValueError)) 1 - clock (env_of (fun _ => Failed ValueError)) 0
     <= TIMEOUT)%Z /\
  exists s, cli_main_argv true (env_of (fun _ => Failed ValueError)) 1 test_url_error_argv =
              CliReturn (Some (Ok INVALID_URL_CODE, s)).
Proof.
  assert (Hc : completions (env_of (fun _ => Failed ValueError)) 0 ["potato"] =
    [(0%nat, Failed ValueError)]) by reflexivity.
  assert (Ht : (clock (env_of (fun _ => Failed ValueError)) 1 -
    clock (env_of (fun _ => Failed ValueError)) 0 <= TIMEOUT)%Z) by (vm_compute; discriminate).
  split; [exact Hc|]. split; [exact Ht|].
  exact (test_url_error_result true _ 0 Hc Ht).
Defined.

(** The process exit status: always a byte; the returned codes -3 to
    125 get distinct statuses, but an uncaught exception other than
    [KeyboardInterrupt] exits with the status of one unreachable URL. *)
Lemma process_status_cases r :
  (0 <= process_status r < 256)%Z /\
  (forall c c', (-3 <= c <= 125)%Z -> (-3 <= c' <= 125)%Z ->
     process_status (Ok c) = process_status (Ok c') -> c = c') /\
  (forall ex, ex <> KeyboardInterrupt -> process_status (Raise ex) = process_status (Ok 1%Z)).
Proof.
  split; [|split].
  - destruct r as [c|[]]; simpl; try lia. apply exit_status_range.
  - intros c c' Hc Hc'. simpl. rewrite !exit_status_mod. intros Heq.
    assert (Hm : forall x, (-3 <= x <= 125)%Z -> (x mod 256 = if (x <? 0)%Z then x + 256 else x)%Z).
    { intros x Hx. destruct (Z.ltb_spec x 0).
      - rewrite <- (Z.mod_add x 1 256) by lia. apply Z.mod_small. lia.
      - apply Z.mod_small. lia. }
    rewrite (Hm c Hc), (Hm c' Hc') in Heq.
    destruct (Z.ltb_spec c 0), (Z.ltb_spec c' 0); lia.
  - intros ex Hex. destruct ex; done.
Qed.

End Cli.
